(** * CityO: road geometry, edit commands, zone grid and building placement

    Shallow embedding of [src/src/main.cpp].  Single-precision floats are
    read as exact real numbers ([R]); [int] and [uint32_t] values are [Z]
    (the 32-bit wrap-around is written out where the code relies on it);
    [std::vector]s are lists, updated by index as the code does. *)

From Stdlib Require Import String.
From Stdlib Require Import Reals Lra Lia List ZArith Bool Permutation.
Import ListNotations.

Open Scope R_scope.

(* ------------------------------------------------------------------ *)
(** ** Vectors and small numeric helpers *)

Record vec3 := V3 { vx : R; vy : R; vz : R }.

Definition vadd (a b : vec3) : vec3 := V3 (vx a + vx b) (vy a + vy b) (vz a + vz b).
Definition vsub (a b : vec3) : vec3 := V3 (vx a - vx b) (vy a - vy b) (vz a - vz b).
Definition vscale (a : vec3) (k : R) : vec3 := V3 (vx a * k) (vy a * k) (vz a * k).
Definition vdot (a b : vec3) : R := vx a * vx b + vy a * vy b + vz a * vz b.

(** [glm::cross] *)
Definition vcross (a b : vec3) : vec3 :=
  V3 (vy a * vz b - vy b * vz a)
     (vz a * vx b - vz b * vx a)
     (vx a * vy b - vx b * vy a).

(** [glm::normalize]: [v * inversesqrt(dot(v, v))] *)
Definition vnormalize (v : vec3) : vec3 := vscale v (/ sqrt (vdot v v)).

Definition vzero : vec3 := V3 0 0 0.
Definition vup : vec3 := V3 0 1 0.

Definition Rltb (a b : R) : bool := if Rlt_dec a b then true else false.
Definition Rleb (a b : R) : bool := if Rle_dec a b then true else false.

(** [static float Clamp(float v, float a, float b)] *)
Definition Clamp (v a b : R) : R :=
  if Rlt_dec v a then a else if Rlt_dec b v then b else v.

(** [std::floor] followed by a cast to [int] *)
Definition floorZ (x : R) : Z := Int_part x.
(** [std::ceil] followed by a cast to [int] *)
Definition ceilZ (x : R) : Z := (- Int_part (- x))%Z.

Definition eps6 : R := / 1000000.      (* 1e-6f *)
Definition eps8 : R := / 100000000.    (* 1e-8f *)
Definition big30 : R := IZR (10 ^ 30). (* 1e30f *)

(** [static float LenXZ(const glm::vec3& a, const glm::vec3& b)] *)
Definition LenXZ (a b : vec3) : R :=
  let dx := vx b - vx a in
  let dz := vz b - vz a in
  sqrt (dx * dx + dz * dz).

(* ------------------------------------------------------------------ *)
(** ** Roads: arc-length parameterisation ([struct Road]) *)

Record Road := MkRoad { rid : Z; pts : list vec3; cumLen : list R }.

Fixpoint cumFrom (acc : R) (ps : list vec3) : list R :=
  match ps with
  | p :: ((q :: _) as rest) =>
      let acc' := acc + LenXZ p q in acc' :: cumFrom acc' rest
  | _ => []
  end.

(** [Road::rebuildCum] *)
Definition rebuildCum (ps : list vec3) : list R :=
  match ps with
  | [] => []
  | _ => 0 :: cumFrom 0 ps
  end.

(** [Road::totalLen] *)
Definition totalLen (r : Road) : R := last (cumLen r) 0.

(** The scan of [pointAt]:
    [while (i + 1 < cumLen.size() && cumLen[i+1] < d) i++;] *)
Fixpoint segScan (cum : list R) (d : R) (fuel i : nat) : nat :=
  match fuel with
  | O => i
  | S f =>
      if (S i <? length cum)%nat then
        if Rlt_dec (nth (S i) cum 0) d then segScan cum d f (S i) else i
      else i
  end.

(** [Road::pointAt]: returns (position, tangent). *)
Definition pointAt (r : Road) (d0 : R) : vec3 * vec3 :=
  let ps := pts r in
  let cum := cumLen r in
  if ((length ps <? 2)%nat || negb (length cum =? length ps)%nat)%bool then
    (match ps with [] => vzero | p :: _ => p end, V3 1 0 0)
  else
    let d := Clamp d0 0 (totalLen r) in
    let i := segScan cum d (length cum) 0 in
    let a := nth i ps vzero in
    let b := nth (S i) ps vzero in
    let segLen := Rmax eps6 (LenXZ a b) in
    let t := (d - nth i cum 0) / segLen in
    let dir0 := V3 (vx b - vx a) 0 (vz b - vz a) in
    let l := sqrt (vx dir0 * vx dir0 + vz dir0 * vz dir0) in
    let dir := if Rlt_dec eps6 l then V3 (vx dir0 / l) (vy dir0 / l) (vz dir0 / l) else dir0 in
    let p := vadd a (vscale (vsub b a) t) in
    (V3 (vx p) 0 (vz p), dir).

(** [ClosestParamOnSegmentXZ]: returns (t, closest point). *)
Definition ClosestParamOnSegmentXZ (p a b : vec3) : R * vec3 :=
  let apx := vx p - vx a in
  let apz := vz p - vz a in
  let abx := vx b - vx a in
  let abz := vz b - vz a in
  let ab2 := abx * abx + abz * abz in
  let t := if Rlt_dec eps8 ab2 then (apx * abx + apz * abz) / ab2 else 0 in
  let t := Clamp t 0 1 in
  let c := vadd a (vscale (vsub b a) t) in
  (t, V3 (vx c) 0 (vz c)).

(** One iteration of the segment loop of [ClosestDistanceAlongRoadSq];
    the accumulator is (bestDistSq, bestAlong, bestTan). *)
Definition closestStep (r : Road) (p : vec3) (st : R * R * vec3) (i : nat) : R * R * vec3 :=
  let '(bestDistSq, bestAlong, bestTan) := st in
  let a := nth i (pts r) vzero in
  let b := nth (S i) (pts r) vzero in
  let '(t, c) := ClosestParamOnSegmentXZ p a b in
  let dx := vx p - vx c in
  let dz := vz p - vz c in
  let distSq := dx * dx + dz * dz in
  if Rlt_dec distSq bestDistSq then
    let segLen := LenXZ a b in
    let along := (if (i <? length (cumLen r))%nat then nth i (cumLen r) 0 else 0) + t * segLen in
    let dir0 := V3 (vx b - vx a) 0 (vz b - vz a) in
    let l := sqrt (vx dir0 * vx dir0 + vz dir0 * vz dir0) in
    let dir := if Rlt_dec eps6 l then V3 (vx dir0 / l) (vy dir0 / l) (vz dir0 / l) else dir0 in
    (distSq, along, dir)
  else st.

(** [ClosestDistanceAlongRoadSq]: returns (distSq, outAlong, outTan). *)
Definition ClosestDistanceAlongRoadSq (r : Road) (p : vec3) : R * R * vec3 :=
  if (length (pts r) <? 2)%nat then (big30, 0, V3 1 0 0)
  else fold_left (closestStep r p) (seq 0 (length (pts r) - 1)) (big30, 0, V3 1 0 0).

(* ------------------------------------------------------------------ *)
(** ** Zone strips and the world state ([struct ZoneStrip], [AppState]) *)

Inductive ZoneType := Residential | Commercial | Industrial | Office.

Definition ZONE_CELL_M : R := 8.          (* CHUNK_SIZE_M / ZoneChunk::DIM = 1024 / 128 *)
Definition ZONE_DEPTH_M : R := 48.        (* ZONE_DEPTH_CELLS * ZONE_CELL_M *)

Record ZoneStrip := MkZone {
  zid : Z; zroad : Z; zd0 : R; zd1 : R; zsideMask : Z; ztype : ZoneType; zdepth : R }.

(** The part of [AppState] the edit commands read and write.  The dirty
    flags only schedule the rebuild passes and are not modelled. *)
Record World := MkWorld {
  nextRoadId : Z; nextZoneId : Z; roads : list Road; zones : list ZoneStrip }.

Definition set_roads (w : World) (rs : list Road) : World :=
  MkWorld (nextRoadId w) (nextZoneId w) rs (zones w).
Definition set_zones (w : World) (zs : list ZoneStrip) : World :=
  MkWorld (nextRoadId w) (nextZoneId w) (roads w) zs.

Definition dummyRoad : Road := MkRoad 0 [] [].

(** [FindRoadIndexById]: the index of the first road with the id, [None]
    for the C++ [-1]. *)
Fixpoint FindRoadIndexById (rs : list Road) (id : Z) : option nat :=
  match rs with
  | [] => None
  | r :: rs' =>
      if Z.eqb (rid r) id then Some O
      else option_map S (FindRoadIndexById rs' id)
  end.

(** [v[i] = x] for an index in range, [v.insert(v.begin() + i, x)] and
    [v.erase(v.begin() + i)]. *)
Definition list_set {A} (l : list A) (i : nat) (x : A) : list A :=
  firstn i l ++ x :: skipn (S i) l.
Definition list_insert {A} (l : list A) (i : nat) (x : A) : list A :=
  firstn i l ++ x :: skipn i l.
Definition list_erase {A} (l : list A) (i : nat) : list A :=
  firstn i l ++ skipn (S i) l.

(** Replace the points of road [idx] and run [rebuildCum] on it. *)
Definition updateRoadPts (w : World) (idx : nat) (ps : list vec3) : World :=
  let r := nth idx (roads w) dummyRoad in
  set_roads w (list_set (roads w) idx (MkRoad (rid r) ps (rebuildCum ps))).

(** [r.pts[i] = pos; r.pts[i].y = 0.0f;] *)
Definition ground (p : vec3) : vec3 := V3 (vx p) 0 (vz p).

(* ------------------------------------------------------------------ *)
(** ** Edit commands ([struct ICommand] and its subclasses)

    One constructor per command class, carrying the class's fields; the
    fields a command mutates ([applied], [did], [removed], [pointIndex])
    are returned updated by [doIt] and [undoIt]. *)

Inductive Command :=
| CmdAddRoad (road : Road) (applied : bool)
| CmdExtendRoad (roadId : Z) (added : list vec3) (atStart : bool)
| CmdMoveRoadPoint (roadId : Z) (pointIndex : Z) (oldPos newPos : vec3)
| CmdDeleteRoadPoint (roadId : Z) (pointIndex : Z) (removed : vec3) (did : bool)
| CmdAddZone (zone : ZoneStrip) (applied : bool)
| CmdClearZonesForRoad (roadId : Z) (removed : list ZoneStrip) (applied : bool).

(** [std::find_if] on the zone id followed by [erase]. *)
Fixpoint eraseZoneById (zs : list ZoneStrip) (id : Z) : list ZoneStrip :=
  match zs with
  | [] => []
  | z :: zs' => if Z.eqb (zid z) id then zs' else z :: eraseZoneById zs' id
  end.

Definition doIt (w : World) (c : Command) : World * Command :=
  match c with
  | CmdAddRoad road applied =>
      if applied then (w, c)
      else (set_roads w (roads w ++ [road]), CmdAddRoad road true)
  | CmdExtendRoad roadId added atStart =>
      match FindRoadIndexById (roads w) roadId with
      | None => (w, c)
      | Some idx =>
          let r := nth idx (roads w) dummyRoad in
          match added with
          | [] => (w, c)
          | _ =>
              let ps := if atStart
                        then fold_left (fun ps p => p :: ps) (rev added) (pts r)
                        else pts r ++ added in
              (updateRoadPts w idx ps, c)
          end
      end
  | CmdMoveRoadPoint roadId pointIndex oldPos newPos =>
      match FindRoadIndexById (roads w) roadId with
      | None => (w, c)
      | Some idx =>
          let r := nth idx (roads w) dummyRoad in
          if ((pointIndex <? 0)%Z || (Z.of_nat (length (pts r)) <=? pointIndex)%Z)%bool then (w, c)
          else (updateRoadPts w idx (list_set (pts r) (Z.to_nat pointIndex) (ground newPos)), c)
      end
  | CmdDeleteRoadPoint roadId pointIndex removed did =>
      match FindRoadIndexById (roads w) roadId with
      | None => (w, c)
      | Some idx =>
          let r := nth idx (roads w) dummyRoad in
          if ((pointIndex <? 0)%Z || (Z.of_nat (length (pts r)) <=? pointIndex)%Z)%bool then (w, c)
          else if (Z.of_nat (length (pts r)) <=? 2)%Z then (w, c)
          else
            let removed' := nth (Z.to_nat pointIndex) (pts r) vzero in
            (updateRoadPts w idx (list_erase (pts r) (Z.to_nat pointIndex)),
             CmdDeleteRoadPoint roadId pointIndex removed' true)
      end
  | CmdAddZone zone applied =>
      if applied then (w, c)
      else (set_zones w (zones w ++ [zone]), CmdAddZone zone true)
  | CmdClearZonesForRoad roadId removed applied =>
      if applied then (w, c)
      else (set_zones w (filter (fun z => negb (Z.eqb (zroad z) roadId)) (zones w)),
            CmdClearZonesForRoad roadId removed true)
  end.

(** [Clamp((float)pointIndex, 0.0f, (float)r.pts.size())] on integers. *)
Definition ClampZ (v a b : Z) : Z :=
  if (v <? a)%Z then a else if (b <? v)%Z then b else v.

Definition undoIt (w : World) (c : Command) : World * Command :=
  match c with
  | CmdAddRoad road applied =>
      match FindRoadIndexById (roads w) (rid road) with
      | None => (w, c)
      | Some idx => (set_roads w (list_erase (roads w) idx), c)
      end
  | CmdExtendRoad roadId added atStart =>
      match FindRoadIndexById (roads w) roadId with
      | None => (w, c)
      | Some idx =>
          let r := nth idx (roads w) dummyRoad in
          let n := length (pts r) in
          let k := length added in
          if (n <=? k)%nat then (w, c)
          else
            let ps := if atStart then skipn k (pts r) else firstn (n - k) (pts r) in
            (updateRoadPts w idx ps, c)
      end
  | CmdMoveRoadPoint roadId pointIndex oldPos newPos =>
      match FindRoadIndexById (roads w) roadId with
      | None => (w, c)
      | Some idx =>
          let r := nth idx (roads w) dummyRoad in
          if ((pointIndex <? 0)%Z || (Z.of_nat (length (pts r)) <=? pointIndex)%Z)%bool then (w, c)
          else (updateRoadPts w idx (list_set (pts r) (Z.to_nat pointIndex) (ground oldPos)), c)
      end
  | CmdDeleteRoadPoint roadId pointIndex removed did =>
      if negb did then (w, c)
      else
        match FindRoadIndexById (roads w) roadId with
        | None => (w, c)
        | Some idx =>
            let r := nth idx (roads w) dummyRoad in
            let pi := ClampZ pointIndex 0 (Z.of_nat (length (pts r))) in
            (updateRoadPts w idx (list_insert (pts r) (Z.to_nat pi) removed),
             CmdDeleteRoadPoint roadId pi removed did)
        end
  | CmdAddZone zone applied =>
      (set_zones w (eraseZoneById (zones w) (zid zone)), c)
  | CmdClearZonesForRoad roadId removed applied =>
      (set_zones w (zones w ++ removed), c)
  end.

(** [struct CommandStack]: the heads of the lists are the backs of the
    C++ vectors. *)
Record CommandStack := MkStack { undoStack : list Command; redoStack : list Command }.

Definition emptyStack : CommandStack := MkStack [] [].

Definition exec (w : World) (st : CommandStack) (c : Command) : World * CommandStack :=
  let '(w', c') := doIt w c in (w', MkStack (c' :: undoStack st) []).

Definition doUndo (w : World) (st : CommandStack) : World * CommandStack :=
  match undoStack st with
  | [] => (w, st)
  | c :: u => let '(w', c') := undoIt w c in (w', MkStack u (c' :: redoStack st))
  end.

Definition doRedo (w : World) (st : CommandStack) : World * CommandStack :=
  match redoStack st with
  | [] => (w, st)
  | c :: rd => let '(w', c') := doIt w c in (w', MkStack (c' :: undoStack st) rd)
  end.

(* ------------------------------------------------------------------ *)
(** ** Zone-interval tests and the zone commit on mouse-up *)

(** [static bool ZonesOverlap(float a0, float a1, float b0, float b1)] *)
Definition ZonesOverlap (a0 a1 b0 b1 : R) : bool :=
  let lo := Rmax (Rmin a0 a1) (Rmin b0 b1) in
  let hi := Rmin (Rmax a0 a1) (Rmax b0 b1) in
  Rleb lo hi.

(** [struct LotCell] *)
Record LotCell := MkLot {
  lroad : Z; lside : Z; ld0 : R; ld1 : R;
  lcenter : vec3; lforward : vec3; lright : vec3;
  lzoned : bool; lzoneType : ZoneType }.

(** [static bool IsLotZoned(const AppState&, const LotCell&, ZoneType& outType)]:
    [Some t] for [true] with [outType = t]. *)
Fixpoint IsLotZoned (zs : list ZoneStrip) (lot : LotCell) : option ZoneType :=
  let sideBit := if (lside lot <? 0)%Z then 1%Z else 2%Z in
  match zs with
  | [] => None
  | z :: zs' =>
      if negb (Z.eqb (zroad z) (lroad lot)) then IsLotZoned zs' lot
      else if Z.eqb (Z.land (zsideMask z) sideBit) 0 then IsLotZoned zs' lot
      else if negb (ZonesOverlap (ld0 lot) (ld1 lot) (zd0 z) (zd1 z)) then IsLotZoned zs' lot
      else Some (ztype z)
  end.

(** [static bool ZoneOverlapsExisting(const AppState&, int roadId, float d0, float d1)] *)
Definition ZoneOverlapsExisting (w : World) (roadId : Z) (d0 d1 : R) : bool :=
  existsb (fun z => Z.eqb (zroad z) roadId && ZonesOverlap d0 d1 (zd0 z) (zd1 z)) (zones w).

(** The fields of the zone tool read by the commit. *)
Record ZoneTool := MkTool {
  toolRoadId : Z; startD : R; endD : R; toolSideMask : Z; toolType : ZoneType }.

(** The snapping of the dragged interval to whole road cells, done in the
    commit when the road exists. *)
Definition normalizeZone (w : World) (tool : ZoneTool) (z : ZoneStrip) : ZoneStrip :=
  match FindRoadIndexById (roads w) (zroad z) with
  | None => z
  | Some ridx =>
      let lo := Rmin (startD tool) (endD tool) in
      let hi := Rmax (startD tool) (endD tool) in
      let total := totalLen (nth ridx (roads w) dummyRoad) in
      let cols := floorZ (total / ZONE_CELL_M) in
      if (0 <? cols)%Z then
        let i0 := floorZ (lo / ZONE_CELL_M) in
        let i1 := (ceilZ (hi / ZONE_CELL_M) - 1)%Z in
        let i0 := Z.max 0 (Z.min (cols - 1) i0) in
        let i1 := Z.max 0 (Z.min (cols - 1) i1) in
        let '(i0, i1) := if (i1 <? i0)%Z then (i1, i0) else (i0, i1) in
        MkZone (zid z) (zroad z) (IZR i0 * ZONE_CELL_M) (IZR (i1 + 1) * ZONE_CELL_M)
               (zsideMask z) (ztype z) (zdepth z)
      else z
  end.

(** The zone commit on mouse-up: the new strip takes [nextZoneId++], is
    snapped, and is executed as [CmdAddZone] unless
    [ZoneOverlapsExisting] declines it. *)
Definition commitZone (w : World) (st : CommandStack) (tool : ZoneTool) : World * CommandStack :=
  let z0 := MkZone (nextZoneId w) (toolRoadId tool) (startD tool) (endD tool)
                   (toolSideMask tool) (toolType tool) ZONE_DEPTH_M in
  let w1 := MkWorld (nextRoadId w) (nextZoneId w + 1) (roads w) (zones w) in
  let z := normalizeZone w1 tool z0 in
  if ZoneOverlapsExisting w1 (zroad z) (zd0 z) (zd1 z) then (w1, st)
  else exec w1 st (CmdAddZone z false).

(** The strip the commit builds and tests, as a function of the state
    before the commit. *)
Definition requestedZone (w : World) (tool : ZoneTool) : ZoneStrip :=
  normalizeZone (MkWorld (nextRoadId w) (nextZoneId w + 1) (roads w) (zones w)) tool
    (MkZone (nextZoneId w) (toolRoadId tool) (startD tool) (endD tool)
            (toolSideMask tool) (toolType tool) ZONE_DEPTH_M).

(** The unzone click: gather the road's strips and execute
    [CmdClearZonesForRoad] unless there are none. *)
Definition unzoneRoad (w : World) (st : CommandStack) (roadId : Z) : World * CommandStack :=
  let removed := filter (fun z => Z.eqb (zroad z) roadId) (zones w) in
  match removed with
  | [] => (w, st)
  | _ => exec w st (CmdClearZonesForRoad roadId removed false)
  end.

(** User actions of the editor: a road command built by the road tool, a
    zone commit, an unzone click, undo and redo. *)
Inductive Action :=
| ActRoadCmd (c : Command)
| ActCommitZone (tool : ZoneTool)
| ActUnzone (roadId : Z)
| ActUndo
| ActRedo.

Definition isRoadCommand (c : Command) : bool :=
  match c with
  | CmdAddRoad _ _ | CmdExtendRoad _ _ _ | CmdMoveRoadPoint _ _ _ _
  | CmdDeleteRoadPoint _ _ _ _ => true
  | _ => false
  end.

Definition step (ws : World * CommandStack) (a : Action) : World * CommandStack :=
  let '(w, st) := ws in
  match a with
  | ActRoadCmd c => if isRoadCommand c then exec w st c else (w, st)
  | ActCommitZone tool => commitZone w st tool
  | ActUnzone roadId => unzoneRoad w st roadId
  | ActUndo => doUndo w st
  | ActRedo => doRedo w st
  end.

Definition run (ws : World * CommandStack) (acts : list Action) : World * CommandStack :=
  fold_left step acts ws.

Definition emptyWorld : World := MkWorld 1 1 [] [].

(** Two strips conflict when they are on the same road, share a side bit
    and their intervals overlap. *)
Definition zonesConflict (a b : ZoneStrip) : bool :=
  Z.eqb (zroad a) (zroad b)
  && negb (Z.eqb (Z.land (zsideMask a) (zsideMask b)) 0)
  && ZonesOverlap (zd0 a) (zd1 a) (zd0 b) (zd1 b).

Definition ZoneInvariant (zs : list ZoneStrip) : Prop :=
  forall i j, i <> j -> (i < length zs)%nat -> (j < length zs)%nat ->
    zonesConflict (nth i zs (MkZone 0 0 0 0 0 Residential 0))
                  (nth j zs (MkZone 0 0 0 0 0 Residential 0)) = false.

(* ------------------------------------------------------------------ *)
(** ** The zone grid ([ZoneChunk] flags, [RebuildZoneGrid])

    A cell is addressed by (chunkX, chunkZ, xi, zi) as [WorldToZoneCell]
    computes it; the chunk map is a total function that is [0] on cells
    never written, which is what [GetZoneFlagsAt] reads for a missing
    chunk. *)

Definition CHUNK_SIZE_M : R := 1024.
Definition DIM : Z := 128.
Definition ZONE_FLAG_BUILDABLE : Z := 1.
Definition ZONE_FLAG_ZONED : Z := 2.
Definition ZONE_FLAG_BLOCKED : Z := 4.
Definition ZONE_TYPE_MASK : Z := 24.
Definition ZONE_DEPTH_CELLS : nat := 6.
Definition ROAD_HALF_M : R := 8.     (* ROAD_WIDTH_M * 0.5f *)

Definition CellKey : Type := (Z * Z * Z * Z)%type.

Definition keyeqb (a b : CellKey) : bool :=
  let '(a1, a2, a3, a4) := a in
  let '(b1, b2, b3, b4) := b in
  Z.eqb a1 b1 && Z.eqb a2 b2 && Z.eqb a3 b3 && Z.eqb a4 b4.

Definition ZoneGrid : Type := CellKey -> Z.

Definition emptyGrid : ZoneGrid := fun _ => 0%Z.

(** [WorldToZoneCell] *)
Definition WorldToZoneCell (p : vec3) : option CellKey :=
  let cx := floorZ (vx p / CHUNK_SIZE_M) in
  let cz := floorZ (vz p / CHUNK_SIZE_M) in
  let originX := IZR cx * CHUNK_SIZE_M in
  let originZ := IZR cz * CHUNK_SIZE_M in
  let xi := floorZ ((vx p - originX) / ZONE_CELL_M) in
  let zi := floorZ ((vz p - originZ) / ZONE_CELL_M) in
  if ((xi <? 0) || (DIM <=? xi) || (zi <? 0) || (DIM <=? zi))%Z then None
  else Some (cx, cz, xi, zi).

(** [SetZoneCellFlags]: [v &= (uint8_t)~clearMask; v |= setMask;] *)
Definition SetZoneCellFlags (g : ZoneGrid) (k : CellKey) (setMask clearMask : Z) : ZoneGrid :=
  fun k' => if keyeqb k' k then Z.lor (Z.land (g k) (Z.lxor clearMask 255)) setMask else g k'.

(** [GetZoneFlagsAt] *)
Definition GetZoneFlagsAt (g : ZoneGrid) (pos : vec3) : Z :=
  let cx := floorZ (vx pos / CHUNK_SIZE_M) in
  let cz := floorZ (vz pos / CHUNK_SIZE_M) in
  let xi := floorZ ((vx pos - IZR cx * CHUNK_SIZE_M) / ZONE_CELL_M) in
  let zi := floorZ ((vz pos - IZR cz * CHUNK_SIZE_M) / ZONE_CELL_M) in
  if ((xi <? 0) || (DIM <=? xi) || (zi <? 0) || (DIM <=? zi))%Z then 0%Z
  else g (cx, cz, xi, zi).

(** The values taken by [for (float v = lo; v <= hi; v += step)]. *)
Definition floatRange (lo hi step : R) : list R :=
  if Rlt_dec hi lo then []
  else map (fun k => lo + INR k * step) (seq 0 (S (Z.to_nat (floorZ ((hi - lo) / step))))).

(** The centre and the right-hand unit vector at a distance along the
    road, [None] where the loops [continue] on a degenerate tangent. *)
Definition roadFrame (r : Road) (d : R) : option (vec3 * vec3) :=
  let '(p, tan) := pointAt r d in
  if Rlt_dec (vdot tan tan) eps6 then None
  else Some (p, vnormalize (vcross vup tan)).

(** Sample positions visited by [StampRoadInfluence], in loop order. *)
Definition influenceSamples (r : Road) : list vec3 :=
  if (length (pts r) <? 2)%nat then []
  else flat_map (fun d =>
         match roadFrame r d with
         | None => []
         | Some (p, rgt) =>
             flat_map (fun side =>
               map (fun row =>
                      let offset := ROAD_HALF_M + (INR row + /2) * ZONE_CELL_M in
                      vadd p (vscale rgt (side * offset)))
                   (seq 0 ZONE_DEPTH_CELLS))
               [-1; 1]
         end)
       (floatRange 0 (totalLen r) (ZONE_CELL_M * /2)).

(** Sample positions visited by [StampRoadSurfaceBlocked], in loop order. *)
Definition surfaceSamples (r : Road) : list vec3 :=
  if (length (pts r) <? 2)%nat then []
  else flat_map (fun d =>
         match roadFrame r d with
         | None => []
         | Some (p, rgt) =>
             map (fun off => vadd p (vscale rgt off))
                 (floatRange (- ROAD_HALF_M) ROAD_HALF_M (ZONE_CELL_M * /2))
         end)
       (floatRange 0 (totalLen r) (ZONE_CELL_M * /2)).

Definition stampSamples (g : ZoneGrid) (samples : list vec3) (setMask clearMask : Z) : ZoneGrid :=
  fold_left (fun g s =>
               match WorldToZoneCell s with
               | None => g
               | Some k => SetZoneCellFlags g k setMask clearMask
               end) samples g.

Definition SURFACE_CLEAR : Z := 27.  (* BUILDABLE | ZONED | ZONE_TYPE_MASK *)

Definition StampRoadInfluence (g : ZoneGrid) (r : Road) : ZoneGrid :=
  stampSamples g (influenceSamples r) ZONE_FLAG_BUILDABLE 0.

Definition StampRoadSurfaceBlocked (g : ZoneGrid) (r : Road) : ZoneGrid :=
  stampSamples g (surfaceSamples r) ZONE_FLAG_BLOCKED SURFACE_CLEAR.

(** [StampWaterMask]: the water mask is given by its non-zero cells. *)
Definition StampWaterMask (g : ZoneGrid) (water : list CellKey) : ZoneGrid :=
  fold_left (fun g k => SetZoneCellFlags g k ZONE_FLAG_BLOCKED SURFACE_CLEAR) water g.

(** [RebuildZoneGrid] *)
Definition RebuildZoneGrid (rs : list Road) (water : list CellKey) : ZoneGrid :=
  match rs with
  | [] => emptyGrid
  | _ =>
      StampWaterMask
        (fold_left (fun g r => StampRoadSurfaceBlocked (StampRoadInfluence g r) r) rs emptyGrid)
        water
  end.

(* ------------------------------------------------------------------ *)
(** ** Lot derivation ([ZoneRectCoverage], [RebuildLotCells]) *)

(** [ZoneRectCoverage]: the early [return 0.0f] on a forbidden sample is
    the [None] of the accumulator. *)
Definition ZoneRectCoverage (g : ZoneGrid) (center forward rgt : vec3)
    (width depth : R) (requiredMask forbiddenMask : Z) : R :=
  let nx := Z.max 1 (ceilZ (width / ZONE_CELL_M)) in
  let nz := Z.max 1 (ceilZ (depth / ZONE_CELL_M)) in
  let stepX := width / IZR nx in
  let stepZ := depth / IZR nz in
  let halfW := width * /2 in
  let halfD := depth * /2 in
  let total := (nx * nz)%Z in
  let samples :=
    flat_map (fun iz =>
      map (fun ix =>
             let v := - halfD + (INR iz + /2) * stepZ in
             let u := - halfW + (INR ix + /2) * stepX in
             vadd (vadd center (vscale rgt u)) (vscale forward v))
          (seq 0 (Z.to_nat nx)))
      (seq 0 (Z.to_nat nz)) in
  let res :=
    fold_left (fun acc p =>
      match acc with
      | None => None
      | Some hit =>
          let flags := GetZoneFlagsAt g p in
          if negb (Z.eqb (Z.land flags forbiddenMask) 0) then None
          else if Z.eqb (Z.land flags requiredMask) requiredMask then Some (hit + 1)%Z
          else Some hit
      end) samples (Some 0%Z) in
  match res with
  | None => 0
  | Some hit => if (0 <? total)%Z then IZR hit / IZR total else 0
  end.

(** [LotRectMeetsGrid] *)
Definition LotRectMeetsGrid (g : ZoneGrid) (center forward rgt : vec3)
    (width depth : R) (requiredMask forbiddenMask : Z) (minCoverage : R) : bool :=
  Rleb minCoverage (ZoneRectCoverage g center forward rgt width depth requiredMask forbiddenMask).

(** Accumulator of [RebuildLotCells]: the dedup set [occupied] and [s.lots]. *)
Record LotAcc := MkLotAcc { lotOccupied : list (Z * Z); lotList : list LotCell }.

Definition lotSide (g : ZoneGrid) (zs : list ZoneStrip) (r : Road) (d : R)
    (base tan rgt : vec3) (acc : LotAcc) (side : R) (sideZ : Z) : LotAcc :=
  let setback := ROAD_HALF_M + 0 + ZONE_DEPTH_M * /2 in
  let center := vadd base (vscale rgt (side * setback)) in
  if negb (LotRectMeetsGrid g center tan rgt (ZONE_CELL_M * 2) ZONE_DEPTH_M
             ZONE_FLAG_BUILDABLE ZONE_FLAG_BLOCKED (85 / 100)) then acc
  else
    let gx := floorZ (vx center / 4) in
    let gz := floorZ (vz center / 4) in
    if existsb (fun k => Z.eqb (fst k) gx && Z.eqb (snd k) gz) (lotOccupied acc) then acc
    else
      let c0 := MkLot (rid r) sideZ d (d + ZONE_CELL_M * 2) center (vnormalize tan) rgt
                      false Residential in
      let c := match IsLotZoned zs c0 with
               | Some zt => MkLot (rid r) sideZ d (d + ZONE_CELL_M * 2) center (vnormalize tan) rgt true zt
               | None => c0
               end in
      MkLotAcc ((gx, gz) :: lotOccupied acc) (lotList acc ++ [c]).

(** [RebuildLotCells] *)
Definition RebuildLotCells (g : ZoneGrid) (rs : list Road) (zs : list ZoneStrip) : list LotCell :=
  let cellLen := ZONE_CELL_M * 2 in
  let roadLots (acc : LotAcc) (r : Road) :=
    if (length (pts r) <? 2)%nat then acc
    else
      fold_left (fun acc d =>
        let '(base, tan) := pointAt r (d + cellLen * /2) in
        if Rlt_dec (vdot tan tan) eps6 then acc
        else
          let rgt := vnormalize (vcross vup tan) in
          lotSide g zs r d base tan rgt (lotSide g zs r d base tan rgt acc (-1) (-1)%Z) 1 1%Z)
        (floatRange 0 (totalLen r - cellLen) cellLen) acc in
  lotList (fold_left roadLots rs (MkLotAcc [] [])).

(* ------------------------------------------------------------------ *)
(** ** Building placement ([RebuildHousesFromLots])

    The asset catalog is an external collaborator; it is given by the two
    queries the placer makes of it. *)

Record AssetDef := MkAssetDef {
  meshRelPathEmpty : bool; defaultScale : vec3; footprintMX : R; footprintMY : R }.

Record AssetCatalog := MkCatalog {
  resolveCategoryAsset : string -> Z;
  findAsset : Z -> option AssetDef }.

Definition ZoneTypeCategory (t : ZoneType) : string :=
  match t with
  | Commercial => "commercial"
  | Industrial => "industrial"
  | Office => "office"
  | Residential => "residential"
  end.

Definition BaseSizeForZone (t : ZoneType) : vec3 :=
  match t with
  | Commercial => V3 12 8 14
  | Industrial => V3 14 8 20
  | Office => V3 25 30 25
  | Residential => V3 8 6 12
  end.

Definition ApplyAssetScale (assets : AssetCatalog) (assetId : Z) (baseSize : vec3) : vec3 :=
  match findAsset assets assetId with
  | None => baseSize
  | Some def =>
      let scaled := if meshRelPathEmpty def then baseSize else defaultScale def in
      if (Rleb (vx scaled) 0 || Rleb (vy scaled) 0 || Rleb (vz scaled) 0)%bool then baseSize
      else scaled
  end.

Definition GetAssetFootprint (assets : AssetCatalog) (assetId : Z) (fallback : R * R) : R * R :=
  match findAsset assets assetId with
  | None => fallback
  | Some def =>
      if meshRelPathEmpty def then fallback
      else if (Rltb 0 (footprintMX def) && Rltb 0 (footprintMY def))%bool
           then (footprintMX def, footprintMY def)
           else fallback
  end.

(** 32-bit unsigned arithmetic. *)
Definition u32 (x : Z) : Z := Z.land x (2 ^ 32 - 1).

(** [static uint32_t Hash32(uint32_t x)] *)
Definition Hash32 (x : Z) : Z :=
  let x := Z.lxor x (Z.shiftr x 16) in
  let x := u32 (x * 2146121005) in    (* 0x7feb352d *)
  let x := Z.lxor x (Z.shiftr x 15) in
  let x := u32 (x * 2221713035) in    (* 0x846ca68b *)
  Z.lxor x (Z.shiftr x 16).

(** [std::llround]: halves round away from zero. *)
Definition llround (x : R) : Z :=
  if Rle_dec 0 x then floorZ (x + /2) else (- floorZ (- x + /2))%Z.

(** [std::atan2] *)
Definition atan2 (y x : R) : R :=
  if Rlt_dec 0 x then atan (y / x)
  else if Rlt_dec x 0 then
    (if Rle_dec 0 y then atan (y / x) + PI else atan (y / x) - PI)
  else if Rlt_dec 0 y then PI / 2
  else if Rlt_dec y 0 then - (PI / 2)
  else 0.

Definition FLT_MAX : R := IZR 340282346638528859811704183484516925440.

(** [struct BuildingInstance]; [localPos] holds the world position. *)
Record BuildingInstance := MkInstance {
  asset : Z; localPos : vec3; yaw : R; scale : vec3; seed : Z }.

(** [struct HouseAnim] *)
Record HouseAnim := MkAnim {
  hpos : vec3; spawnTime : R; hforward : vec3; hasset : Z; hscale : vec3; hseed : Z }.

(** The matrix [translate(pos) * R * scale(houseSize)] by its factors:
    the translation, the three basis columns of [R] and the scale. *)
Record Transform := MkTransform {
  tpos : vec3; tright : vec3; tup : vec3; tfacing : vec3; tscale : vec3 }.

(** The outputs of the placer together with its local occupancy
    structures ([occupied], [placed]). *)
Record HouseOut := MkHouseOut {
  houseStatic : list Transform;
  houseAnim : list HouseAnim;
  houseStaticByChunk : list (Z * Z * Transform);
  buildingChunks : list (Z * Z * Z * BuildingInstance);   (* chunk x, chunk z, asset *)
  occupied : list (Z * Z);
  placed : list (vec3 * R) }.

Definition emptyHouseOut : HouseOut := MkHouseOut [] [] [] [] [] [].

Definition isOccupied (occ : list (Z * Z)) (pos : vec3) : bool :=
  let gx := floorZ (vx pos / 6) in
  let gz := floorZ (vz pos / 6) in
  existsb (fun k => Z.eqb (fst k) gx && Z.eqb (snd k) gz) occ.

(** [canPlace]: the buckets of [placedByCell] within [range] cells of
    [pos] are searched for a placed house closer than the radii allow;
    a placed house is in such a bucket iff its cell is within range. *)
Definition canPlace (pl : list (vec3 * R)) (pos : vec3) (radius : R) : bool :=
  let gx := floorZ (vx pos / 8) in
  let gz := floorZ (vz pos / 8) in
  let range := (ceilZ (radius / 8) + 1)%Z in
  let minDist := radius + /2 in
  forallb (fun ph =>
    let '(opos, orad) := ph in
    let ox := floorZ (vx opos / 8) in
    let oz := floorZ (vz opos / 8) in
    let inWindow := ((gx - range <=? ox) && (ox <=? gx + range)
                     && (gz - range <=? oz) && (oz <=? gz + range))%Z in
    let minPair := minDist + orad in
    let d := vsub pos opos in
    negb (inWindow && Rltb (vdot d d) (minPair * minPair))) pl.

(** [minCenterlineClearSq] *)
Definition minCenterlineClearSq (rs : list Road) (pos : vec3) : R :=
  fold_left (fun best other =>
    if (length (pts other) <? 2)%nat then best
    else let '(distSq, _, _) := ClosestDistanceAlongRoadSq other pos in Rmin best distSq)
    rs FLT_MAX.

Definition ChunkFromPosXZ (p : vec3) : Z * Z :=
  (floorZ (vx p / CHUNK_SIZE_M), floorZ (vz p / CHUNK_SIZE_M)).

(** The body of the loop over [s.lots]. *)
Definition placeLot (assets : AssetCatalog) (g : ZoneGrid) (rs : list Road)
    (animate : bool) (nowSec : R) (st : HouseOut) (c : LotCell) : HouseOut :=
  let residentialAsset := resolveCategoryAsset assets (ZoneTypeCategory Residential) in
  let commercialAsset := resolveCategoryAsset assets (ZoneTypeCategory Commercial) in
  let industrialAsset := resolveCategoryAsset assets (ZoneTypeCategory Industrial) in
  let officeAsset := resolveCategoryAsset assets (ZoneTypeCategory Office) in
  if negb (lzoned c) then st
  else if negb (Z.eqb (Z.land (GetZoneFlagsAt g (lcenter c)) ZONE_FLAG_BLOCKED) 0) then st
  else
  let lotType := lzoneType c in
  let assetId := match lotType with
                 | Commercial => commercialAsset
                 | Industrial => industrialAsset
                 | Office => officeAsset
                 | Residential => residentialAsset
                 end in
  let baseSize := BaseSizeForZone lotType in
  let houseSize := ApplyAssetScale assets assetId baseSize in
  let '(fpx, fpy) := GetAssetFootprint assets assetId (vx baseSize, vz baseSize) in
  let alignedAlong := Rmax (IZR (ceilZ (fpx / ZONE_CELL_M)) * ZONE_CELL_M) ZONE_CELL_M in
  let alignedDepth := Rmax (IZR (ceilZ (fpy / ZONE_CELL_M)) * ZONE_CELL_M) ZONE_CELL_M in
  if Rlt_dec ZONE_DEPTH_M alignedDepth then st
  else
  let radius := /2 * sqrt (alignedAlong * alignedAlong + alignedDepth * alignedDepth) in
  let pos := V3 (vx (lcenter c)) (vy houseSize * /2) (vz (lcenter c)) in
  let distSq := minCenterlineClearSq rs pos in
  let clearFromEdge := sqrt distSq - ROAD_HALF_M in
  if Rlt_dec clearFromEdge 0 then st
  else if isOccupied (occupied st) pos then st
  else if negb (canPlace (placed st) pos radius) then st
  else
  let facing := vnormalize (vscale (lright c) (- IZR (lside c))) in
  let basisRight := vnormalize (vcross vup facing) in
  let hx := u32 (llround (vx pos * 10)) in
  let hz := u32 (llround (vz pos * 10)) in
  let sd := Hash32 (Z.lxor (Z.lxor (Z.lxor hx (u32 (hz * 1664525)))
                                   (u32 (lroad c * 131071)))
                           (if (lside c <? 0)%Z then 2654435769 else 0)) in
  let yw := atan2 (vx facing) (vz facing) in
  let M := MkTransform pos basisRight vup facing houseSize in
  let '(ccx, ccz) := ChunkFromPosXZ pos in
  let inst := MkInstance assetId pos yw houseSize sd in
  MkHouseOut
    (if animate then houseStatic st else houseStatic st ++ [M])
    (if animate
     then houseAnim st ++ [MkAnim pos (nowSec + IZR (Z.modulo sd 120) / 1000) facing assetId houseSize sd]
     else houseAnim st)
    (houseStaticByChunk st ++ [(ccx, ccz, M)])
    (buildingChunks st ++ [(ccx, ccz, assetId, inst)])
    ((floorZ (vx pos / 6), floorZ (vz pos / 6)) :: occupied st)
    (placed st ++ [(pos, radius)]).

(** The derived state the placer reads: roads, zone grid and lots. *)
Record Pipeline := MkPipeline {
  pRoads : list Road; pGrid : ZoneGrid; pLots : list LotCell; pHouses : HouseOut }.

(** [RebuildHousesFromLots]: the outputs are cleared, then every lot is
    visited in order. *)
Definition RebuildHousesFromLots (s : Pipeline) (assets : AssetCatalog)
    (animate : bool) (nowSec : R) : Pipeline :=
  MkPipeline (pRoads s) (pGrid s) (pLots s)
    (fold_left (placeLot assets (pGrid s) (pRoads s) animate nowSec) (pLots s) emptyHouseOut).

(** The per-frame rebuild after an edit: zone grid, lots, then houses. *)
Definition rebuildAll (w : World) (water : list CellKey) (prev : HouseOut)
    (assets : AssetCatalog) (animate : bool) (nowSec : R) : Pipeline :=
  let rs := map (fun r => if (length (cumLen r) =? length (pts r))%nat then r
                          else MkRoad (rid r) (pts r) (rebuildCum (pts r))) (roads w) in
  let g := RebuildZoneGrid rs water in
  let lots := RebuildLotCells g rs (zones w) in
  RebuildHousesFromLots (MkPipeline rs g lots prev) assets animate nowSec.

(* ------------------------------------------------------------------ *)
(** ** Auxiliary notions used by the statements *)

(** The observable part of a road: its id and its ordered points. *)
Definition roadShape (r : Road) : Z * list vec3 := (rid r, pts r).

(** The road a point-editing command targets. *)
Definition targetRoad (c : Command) : option Z :=
  match c with
  | CmdExtendRoad roadId _ _ | CmdMoveRoadPoint roadId _ _ _
  | CmdDeleteRoadPoint roadId _ _ _ => Some roadId
  | _ => None
  end.

Definition isClearZones (c : Command) : bool :=
  match c with CmdClearZonesForRoad _ _ _ => true | _ => false end.

(** A command as the editor builds it for the state it is executed on:
    not yet applied, with a fresh id for a new road or strip, the moved
    point's previous position as [oldPos], a non-empty road to extend,
    and the road's strips as [removed] for a zone clear. *)
Definition cmdFitsState (w : World) (c : Command) : Prop :=
  match c with
  | CmdAddRoad road applied =>
      applied = false /\ FindRoadIndexById (roads w) (rid road) = None
  | CmdExtendRoad roadId _ _ =>
      forall idx, FindRoadIndexById (roads w) roadId = Some idx ->
        pts (nth idx (roads w) dummyRoad) <> []
  | CmdMoveRoadPoint roadId pointIndex oldPos _ =>
      forall idx, FindRoadIndexById (roads w) roadId = Some idx ->
        (0 <= pointIndex < Z.of_nat (length (pts (nth idx (roads w) dummyRoad))))%Z ->
        nth (Z.to_nat pointIndex) (pts (nth idx (roads w) dummyRoad)) vzero = ground oldPos
  | CmdDeleteRoadPoint _ _ _ did => did = false
  | CmdAddZone zone applied =>
      applied = false /\ Forall (fun z => zid z <> zid zone) (zones w)
  | CmdClearZonesForRoad roadId removed applied =>
      applied = false /\ removed = filter (fun z => Z.eqb (zroad z) roadId) (zones w)
  end.

(** A straight 16 m road along the x axis, and a second one 20 m away. *)
Definition roadA : Road :=
  MkRoad 1 [V3 0 0 0; V3 16 0 0] (rebuildCum [V3 0 0 0; V3 16 0 0]).
Definition roadB : Road :=
  MkRoad 2 [V3 0 0 20; V3 16 0 20] (rebuildCum [V3 0 0 20; V3 16 0 20]).

(** A road that runs 10 m along x and comes back to its start. *)
Definition roadFold : Road :=
  MkRoad 1 [V3 0 0 0; V3 10 0 0; V3 0 0 0] (rebuildCum [V3 0 0 0; V3 10 0 0; V3 0 0 0]).

(** Draw [roadA], zone its first cell on both sides, unzone it, then
    undo, redo, undo. *)
Definition zoneTraceTool : ZoneTool := MkTool 1 0 8 3 Residential.
Definition zoneTrace : list Action :=
  [ActRoadCmd (CmdAddRoad roadA false); ActCommitZone zoneTraceTool; ActUnzone 1;
   ActUndo; ActRedo; ActUndo].

(** The state after running a command and undoing it right away. *)
Definition undoAfterDo (w : World) (c : Command) : World :=
  let '(w1, c1) := doIt w c in fst (undoIt w1 c1).

(** The squared XZ distance from [p] to segment [i] and the arc length
    of its closest point there, as the loop of
    [ClosestDistanceAlongRoadSq] computes them. *)
Definition segDistSq (r : Road) (p : vec3) (i : nat) : R :=
  let a := nth i (pts r) vzero in
  let b := nth (S i) (pts r) vzero in
  let c := snd (ClosestParamOnSegmentXZ p a b) in
  (vx p - vx c) * (vx p - vx c) + (vz p - vz c) * (vz p - vz c).

Definition segAlong (r : Road) (p : vec3) (i : nat) : R :=
  let a := nth i (pts r) vzero in
  let b := nth (S i) (pts r) vzero in
  (if (i <? length (cumLen r))%nat then nth i (cumLen r) 0 else 0)
  + fst (ClosestParamOnSegmentXZ p a b) * LenXZ a b.

(** The point of segment [i] at parameter [s] in the XZ plane, and its
    arc length along the road. *)
Definition segPoint (r : Road) (i : nat) (s : R) : vec3 :=
  let a := nth i (pts r) vzero in
  let b := nth (S i) (pts r) vzero in
  V3 (vx a + (vx b - vx a) * s) 0 (vz a + (vz b - vz a) * s).

Definition segArc (r : Road) (i : nat) (s : R) : R :=
  nth i (cumLen r) 0 + s * LenXZ (nth i (pts r) vzero) (nth (S i) (pts r) vzero).

(* ------------------------------------------------------------------ *)
(** ** Chunk keys, chunk cell arrays and zone-type bits *)

(** [uint64_t] truncation, and the [int32_t] read of a 32-bit pattern. *)
Definition u64 (x : Z) : Z := Z.land x (2 ^ 64 - 1).
Definition i32 (x : Z) : Z :=
  let u := u32 x in if (u <? 2 ^ 31)%Z then u else (u - 2 ^ 32)%Z.

(** [static uint64_t PackChunk(int32_t cx, int32_t cz)] *)
Definition PackChunk (cx cz : Z) : Z :=
  u64 (Z.lor (Z.shiftl (u32 cx) 32) (u32 cz)).

(** [static void UnpackChunk(uint64_t key, int32_t& cx, int32_t& cz)] *)
Definition UnpackChunk (key : Z) : Z * Z :=
  (i32 (Z.shiftr key 32), i32 (Z.land key 4294967295)).

(** The [std::array<uint8_t, DIM * DIM> cells] of a [ZoneChunk] (and of a
    [WaterChunk]), with its [set] and [get]. *)
Definition ZoneChunk_set (cells : list Z) (x z v : Z) : list Z :=
  if ((x <? 0) || (DIM <=? x) || (z <? 0) || (DIM <=? z))%Z then cells
  else list_set cells (Z.to_nat (z * DIM + x)) v.

Definition ZoneChunk_get (cells : list Z) (x z : Z) : Z :=
  if ((x <? 0) || (DIM <=? x) || (z <? 0) || (DIM <=? z))%Z then 0%Z
  else nth (Z.to_nat (z * DIM + x)) cells 0%Z.

(** [cells.fill(0)] *)
Definition ZoneChunk_cleared : list Z := repeat 0%Z (Z.to_nat (DIM * DIM)).

Definition ZONE_TYPE_SHIFT : Z := 3.

(** [uint8_t(t)] for [enum class ZoneType : uint8_t] *)
Definition ZoneTypeToZ (t : ZoneType) : Z :=
  match t with Residential => 0 | Commercial => 1 | Industrial => 2 | Office => 3 end%Z.

(** [(ZoneType)v]; [ZoneTypeFromFlags] only passes values 0..3. *)
Definition ZoneTypeOfZ (v : Z) : ZoneType :=
  match v with 1%Z => Commercial | 2%Z => Industrial | 3%Z => Office | _ => Residential end.

(** [static uint8_t ZoneTypeBits(ZoneType t)] *)
Definition ZoneTypeBits (t : ZoneType) : Z :=
  Z.land (Z.shiftl (ZoneTypeToZ t) ZONE_TYPE_SHIFT) ZONE_TYPE_MASK.

(** [static ZoneType ZoneTypeFromFlags(uint8_t flags)] *)
Definition ZoneTypeFromFlags (flags : Z) : ZoneType :=
  ZoneTypeOfZ (Z.shiftr (Z.land flags ZONE_TYPE_MASK) ZONE_TYPE_SHIFT).

(* ------------------------------------------------------------------ *)
(** ** Cursor snapping, picking and the render origin *)

(** [std::round] on a float: halves away from zero. *)
Definition roundR (x : R) : R := IZR (llround x).

(** [static glm::vec3 SnapToGridXZ(glm::vec3 p, float grid)] *)
Definition SnapToGridXZ (p : vec3) (grid : R) : vec3 :=
  if Rle_dec grid 0 then p
  else V3 (roundR (vx p / grid) * grid) 0 (roundR (vz p / grid) * grid).

(** [static glm::vec3 SnapAngle15FromPrev(const glm::vec3& prev, const glm::vec3& raw)] *)
Definition SnapAngle15FromPrev (prev raw : vec3) : vec3 :=
  let d := V3 (vx raw - vx prev) 0 (vz raw - vz prev) in
  let len := sqrt (vx d * vx d + vz d * vz d) in
  if Rlt_dec len eps6 then raw
  else
    let ang := atan2 (vz d) (vx d) in
    let step := 15 * (PI / 180) in       (* glm::radians(15.0f) *)
    let snapped := roundR (ang / step) * step in
    let out := vadd prev (vscale (V3 (cos snapped) 0 (sin snapped)) len) in
    V3 (vx out) 0 (vz out).

Definition ORIGIN_STEP_M : R := 1024.

(** [static glm::vec3 ComputeRenderOrigin(const glm::vec3& target)] *)
Definition ComputeRenderOrigin (target : vec3) : vec3 :=
  V3 (IZR (floorZ (vx target / ORIGIN_STEP_M)) * ORIGIN_STEP_M)
     0
     (IZR (floorZ (vz target / ORIGIN_STEP_M)) * ORIGIN_STEP_M).

(** The squared XZ distance of the picking code. *)
Definition distSqXZ (p q : vec3) : R :=
  (vx p - vx q) * (vx p - vx q) + (vz p - vz q) * (vz p - vz q).

(** The inner loop of [PickRoadPoint] over the points of one road; the
    accumulator is (bestSq, bestRoad, bestPt). *)
Fixpoint pickPoints (p : vec3) (id : Z) (ps : list vec3) (i : Z) (st : R * Z * Z) : R * Z * Z :=
  match ps with
  | [] => st
  | q :: ps' =>
      pickPoints p id ps' (i + 1)%Z
        (if Rlt_dec (distSqXZ p q) (fst (fst st)) then (distSqXZ p q, id, i) else st)
  end.

(** [static bool PickRoadPoint(roads, p, radius, outRoadId, outPointIndex)]:
    [Some (outRoadId, outPointIndex)] for [true]. *)
Definition PickRoadPoint (rs : list Road) (p : vec3) (radius : R) : option (Z * Z) :=
  let '(_, bestRoad, bestPt) :=
    fold_left (fun st r => pickPoints p (rid r) (pts r) 0 st) rs (radius * radius, (-1)%Z, (-1)%Z) in
  if Z.eqb bestRoad (-1) then None else Some (bestRoad, bestPt).

(** One road of the loop of [SnapToAnyEndpoint]; the accumulator is
    (bestSq, bestRoad, bestStart, bestPos). *)
Definition endpointStep (p : vec3) (st : R * Z * bool * vec3) (r : Road) : R * Z * bool * vec3 :=
  if (length (pts r) <? 2)%nat then st
  else
    let a := hd vzero (pts r) in
    let b := last (pts r) vzero in
    let st := if Rlt_dec (distSqXZ p a) (fst (fst (fst st))) then (distSqXZ p a, rid r, true, a) else st in
    if Rlt_dec (distSqXZ p b) (fst (fst (fst st))) then (distSqXZ p b, rid r, false, b) else st.

(** [static bool SnapToAnyEndpoint(roads, p, radius, outSnap, outRoadId, outIsStart)]:
    [Some (outSnap, outRoadId, outIsStart)] for [true]. *)
Definition SnapToAnyEndpoint (rs : list Road) (p : vec3) (radius : R) : option (vec3 * Z * bool) :=
  let '(_, bestRoad, bestStart, bestPos) :=
    fold_left (endpointStep p) rs (radius * radius, (-1)%Z, false, p) in
  if Z.eqb bestRoad (-1) then None else Some (bestPos, bestRoad, bestStart).

(* ------------------------------------------------------------------ *)
(** ** Overlay helpers ([FindZoneForRoadAt], [ShouldCullForIntersection]) *)

(** [static const ZoneStrip* FindZoneForRoadAt(zones, d, sideBit)]:
    [None] for [nullptr]. *)
Fixpoint FindZoneForRoadAt (zs : list ZoneStrip) (d : R) (sideBit : Z) : option ZoneStrip :=
  match zs with
  | [] => None
  | z :: zs' =>
      if Z.eqb (Z.land (zsideMask z) sideBit) 0 then FindZoneForRoadAt zs' d sideBit
      else if (Rleb (Rmin (zd0 z) (zd1 z)) d && Rleb d (Rmax (zd0 z) (zd1 z)))%bool then Some z
      else FindZoneForRoadAt zs' d sideBit
  end.

(** The loop of [ShouldCullForIntersection] over [s.roads], with the
    normalised [forward] [f] and [clearSq]. *)
Fixpoint cullScan (rs : list Road) (roadId : Z) (pos f : vec3) (clearSq : R) : bool :=
  match rs with
  | [] => false
  | other :: rs' =>
      if Z.eqb (rid other) roadId then cullScan rs' roadId pos f clearSq
      else if (length (pts other) <? 2)%nat then cullScan rs' roadId pos f clearSq
      else
        let '(distSq, _, tan) := ClosestDistanceAlongRoadSq other pos in
        if Rle_dec clearSq distSq then cullScan rs' roadId pos f clearSq
        else
          let tLenSq := vdot tan tan in
          if Rlt_dec tLenSq eps6 then true
          else
            let t := vscale tan (/ sqrt tLenSq) in
            let align := Rabs (vdot f t) in
            if Rlt_dec (85 / 100) align then cullScan rs' roadId pos f clearSq
            else true
  end.

(** [static bool ShouldCullForIntersection(s, roadId, pos, forward, clearDist)] *)
Definition ShouldCullForIntersection (rs : list Road) (roadId : Z) (pos forward : vec3)
    (clearDist : R) : bool :=
  let fLenSq := vdot forward forward in
  if Rlt_dec fLenSq eps6 then false
  else cullScan rs roadId pos (vscale forward (/ sqrt fLenSq)) (clearDist * clearDist).

(* ------------------------------------------------------------------ *)
(** ** Loop invariants of the query and rebuild passes *)

(** The invariant of the point loop of [PickRoadPoint] over the points
    visited so far. *)
Definition pickInv (rs : list Road) (p : vec3) (radius : R) (seen : list vec3)
    (st : R * Z * Z) : Prop :=
  let '(b, id, i) := st in
  (forall q, In q seen -> b <= distSqXZ p q) /\ b <= radius * radius /\
  (id = (-1)%Z -> b = radius * radius) /\
  (id <> (-1)%Z -> exists r, In r rs /\ rid r = id /\
     (0 <= i < Z.of_nat (length (pts r)))%Z /\
     distSqXZ p (nth (Z.to_nat i) (pts r) vzero) = b /\ b < radius * radius).

(** The same for the loop of [SnapToAnyEndpoint], whose accumulator also
    carries [bestStart] and [bestPos]. *)
Definition endpointInv (rs : list Road) (p : vec3) (radius : R) (seen : list vec3)
    (st : R * Z * bool * vec3) : Prop :=
  let '(b, id, start, pos) := st in
  (forall q, In q seen -> b <= distSqXZ p q) /\ b <= radius * radius /\
  (id = (-1)%Z -> b = radius * radius) /\
  (id <> (-1)%Z -> exists r, In r rs /\ (2 <= length (pts r))%nat /\ rid r = id /\
     pos = (if start then hd vzero (pts r) else last (pts r) vzero) /\
     distSqXZ p pos = b /\ b < radius * radius).

(** The endpoints [SnapToAnyEndpoint] looks at. *)
Definition roadEnds (r : Road) : list vec3 :=
  if (length (pts r) <? 2)%nat then [] else [hd vzero (pts r); last (pts r) vzero].

(** The 4 m bucket [RebuildLotCells] deduplicates lot centres by. *)
Definition lotKey (c : LotCell) : Z * Z := (floorZ (vx (lcenter c) / 4), floorZ (vz (lcenter c) / 4)).

(** What the lot builder guarantees of each lot it emits. *)
Definition goodLot (rs : list Road) (zs : list ZoneStrip) (c : LotCell) : Prop :=
  exists r, In r rs /\ rid r = lroad c /\ (2 <= length (pts r))%nat /\
    (lside c = (-1)%Z \/ lside c = 1%Z) /\ 0 <= ld0 c /\ ld1 c = ld0 c + 16 /\ ld1 c <= totalLen r /\
    lzoned c = match IsLotZoned zs c with Some _ => true | None => false end /\
    (forall t, IsLotZoned zs c = Some t -> lzoneType c = t).

(** The invariant of the lot builder's accumulator. *)
Definition accInv (rs : list Road) (zs : list ZoneStrip) (acc : LotAcc) : Prop :=
  (forall c, In c (lotList acc) -> goodLot rs zs c) /\
  lotOccupied acc = rev (map lotKey (lotList acc)) /\ NoDup (lotOccupied acc).

(** The 6 m occupancy cell of a placed building. *)
Definition key6 (e : Z * Z * Z * BuildingInstance) : Z * Z :=
  let '(_, _, _, inst) := e in (floorZ (vx (localPos inst) / 6), floorZ (vz (localPos inst) / 6)).

(** What the placer guarantees of each building it emits. *)
Definition goodBuilding (assets : AssetCatalog) (g : ZoneGrid) (rs : list Road) (lots : list LotCell)
    (e : Z * Z * Z * BuildingInstance) : Prop :=
  let '(cx, cz, a, inst) := e in
  exists c, In c lots /\ lzoned c = true /\
    Z.land (GetZoneFlagsAt g (lcenter c)) ZONE_FLAG_BLOCKED = 0%Z /\
    vx (localPos inst) = vx (lcenter c) /\ vz (localPos inst) = vz (lcenter c) /\
    a = asset inst /\ asset inst = resolveCategoryAsset assets (ZoneTypeCategory (lzoneType c)) /\
    ROAD_HALF_M <= sqrt (minCenterlineClearSq rs (localPos inst)) /\
    (cx, cz) = ChunkFromPosXZ (localPos inst).

(** The invariant of the placer's state along the loop over the lots. *)
Definition houseInv (assets : AssetCatalog) (g : ZoneGrid) (rs : list Road) (lots : list LotCell)
    (animate : bool) (st : HouseOut) : Prop :=
  (forall e, In e (buildingChunks st) -> goodBuilding assets g rs lots e) /\
  occupied st = rev (map key6 (buildingChunks st)) /\ NoDup (occupied st) /\
  length (houseStatic st) = (if animate then 0 else length (buildingChunks st))%nat /\
  length (houseAnim st) = (if animate then length (buildingChunks st) else 0)%nat /\
  length (houseStaticByChunk st) = length (buildingChunks st).

(* ================================================================== *)
(** * Lemmas and claims *)

(* ------------------------------------------------------------------ *)
(** ** Road lookup and list updates *)

Lemma FindRoadIndexById_none (rs : list Road) (id : Z) :
  Forall (fun r => rid r <> id) rs -> FindRoadIndexById rs id = None.
Proof.
  induction 1 as [|r rs Hr _ IH]; simpl; [reflexivity|].
  rewrite IH. destruct (Z.eqb_spec (rid r) id); [contradiction|reflexivity].
Qed.

Lemma FindRoadIndexById_some (rs : list Road) (id : Z) (idx : nat) :
  FindRoadIndexById rs id = Some idx ->
  (idx < length rs)%nat /\ rid (nth idx rs dummyRoad) = id.
Proof.
  revert idx; induction rs as [|r rs IH]; intros idx H; simpl in H; [discriminate|].
  destruct (Z.eqb_spec (rid r) id).
  - inversion H; subst; simpl; split; [lia|reflexivity].
  - destruct (FindRoadIndexById rs id) as [j|] eqn:E; simpl in H; [|discriminate].
    inversion H; subst. destruct (IH j eq_refl). simpl; split; [lia|assumption].
Qed.

Lemma FindRoadIndexById_app_none (rs : list Road) (r : Road) :
  FindRoadIndexById rs (rid r) = None ->
  FindRoadIndexById (rs ++ [r]) (rid r) = Some (length rs).
Proof.
  induction rs as [|r' rs IH]; simpl; intros H.
  - rewrite Z.eqb_refl. reflexivity.
  - destruct (Z.eqb (rid r') (rid r)); [discriminate|].
    destruct (FindRoadIndexById rs (rid r)); [discriminate|]. rewrite IH; reflexivity.
Qed.

Lemma list_erase_app {A} (l : list A) (x : A) : list_erase (l ++ [x]) (length l) = l.
Proof.
  unfold list_erase. rewrite firstn_app, firstn_all, Nat.sub_diag, firstn_O, app_nil_r.
  rewrite skipn_all2; [apply app_nil_r|]. rewrite length_app; simpl; lia.
Qed.

Lemma list_set_length {A} (l : list A) i x : (i < length l)%nat -> length (list_set l i x) = length l.
Proof.
  intros H. unfold list_set. rewrite length_app. cbn [length].
  rewrite firstn_length_le, length_skipn by lia. lia.
Qed.

Lemma nth_list_set_same {A} (l : list A) i x d : (i < length l)%nat -> nth i (list_set l i x) d = x.
Proof.
  intros H. unfold list_set. rewrite app_nth2; rewrite firstn_length_le by lia; [|lia].
  rewrite Nat.sub_diag. reflexivity.
Qed.

Lemma list_set_set {A} (l : list A) i x y : (i < length l)%nat ->
  list_set (list_set l i x) i y = list_set l i y.
Proof.
  intros H.
  assert (Hf : firstn i (list_set l i x) = firstn i l).
  { unfold list_set. rewrite firstn_app, firstn_firstn, firstn_length_le by lia.
    rewrite Nat.min_id, Nat.sub_diag, firstn_O, app_nil_r. reflexivity. }
  assert (Hs : skipn (S i) (list_set l i x) = skipn (S i) l).
  { unfold list_set. rewrite skipn_app, firstn_length_le by lia.
    rewrite skipn_all2 by (rewrite firstn_length_le; lia).
    replace (S i - i)%nat with 1%nat by lia. reflexivity. }
  transitivity (firstn i (list_set l i x) ++ y :: skipn (S i) (list_set l i x));
    [reflexivity|].
  rewrite Hf, Hs. reflexivity.
Qed.

Lemma skipn_nth_cons {A} (l : list A) i d : (i < length l)%nat ->
  skipn i l = nth i l d :: skipn (S i) l.
Proof.
  revert i; induction l as [|x l IH]; intros [|i] H; simpl in *; try lia; auto.
  apply IH; lia.
Qed.

Lemma list_set_nth {A} (l : list A) i d : (i < length l)%nat -> list_set l i (nth i l d) = l.
Proof.
  intros H. unfold list_set. rewrite <- (skipn_nth_cons l i d H). apply firstn_skipn.
Qed.

Lemma map_list_set {A B} (f : A -> B) (l : list A) i x :
  map f (list_set l i x) = list_set (map f l) i (f x).
Proof. unfold list_set. rewrite map_app, firstn_map, skipn_map. reflexivity. Qed.

Lemma list_insert_erase {A} (l : list A) i d : (i < length l)%nat ->
  list_insert (list_erase l i) i (nth i l d) = l.
Proof.
  intros H. unfold list_insert, list_erase.
  rewrite firstn_app, firstn_firstn, firstn_length_le by lia.
  rewrite Nat.min_id, Nat.sub_diag, firstn_O, app_nil_r.
  rewrite skipn_app. rewrite firstn_length_le by lia. rewrite Nat.sub_diag, skipn_0.
  rewrite skipn_all2 by (rewrite firstn_length_le; lia). rewrite app_nil_l.
  rewrite <- (skipn_nth_cons l i d H). apply firstn_skipn.
Qed.

Lemma list_erase_length {A} (l : list A) i : (i < length l)%nat ->
  length (list_erase l i) = (length l - 1)%nat.
Proof.
  intros H. unfold list_erase. rewrite length_app, firstn_length_le, length_skipn by lia. lia.
Qed.

Lemma fold_cons_rev {A} (l acc : list A) :
  fold_left (fun ps p => p :: ps) l acc = rev l ++ acc.
Proof.
  revert acc; induction l as [|x l IH]; intros acc; simpl; [reflexivity|].
  rewrite IH, <- app_assoc. reflexivity.
Qed.

(* ------------------------------------------------------------------ *)
(** ** Interval and strip facts *)

Ltac minmax :=
  unfold Rmax, Rmin in *;
  repeat match goal with
         | |- context [Rle_dec ?a ?b] => destruct (Rle_dec a b)
         | H : context [Rle_dec ?a ?b] |- _ => destruct (Rle_dec a b)
         end.

Lemma ZonesOverlap_refl (a0 a1 : R) : ZonesOverlap a0 a1 a0 a1 = true.
Proof.
  unfold ZonesOverlap, Rleb. destruct (Rle_dec _ _) as [|n]; [reflexivity|].
  exfalso; apply n; minmax; lra.
Qed.

Lemma normalizeZone_road_side (w : World) (tool : ZoneTool) (z : ZoneStrip) :
  zroad (normalizeZone w tool z) = zroad z /\ zsideMask (normalizeZone w tool z) = zsideMask z.
Proof.
  unfold normalizeZone. destruct (FindRoadIndexById _ _); [|auto].
  repeat match goal with |- context [if ?b then _ else _] => destruct b end; simpl; auto.
Qed.

(* ------------------------------------------------------------------ *)
(** ** Claims on the edit commands *)

(** C9: an ExtendRoad, MoveRoadPoint or DeleteRoadPoint command whose
    target road id matches no road is a silent no-op: applying it and
    undoing it both leave the world (roads and zones) unchanged. *)
Theorem missing_road_edit_is_noop (w : World) (c : Command) (id : Z) :
  targetRoad c = Some id ->
  Forall (fun r => rid r <> id) (roads w) ->
  fst (doIt w c) = w /\ fst (undoIt w c) = w.
Proof.
  intros Ht Hm. pose proof (FindRoadIndexById_none _ _ Hm) as Hf.
  destruct c; simpl in Ht; try discriminate; injection Ht as <-; simpl; rewrite Hf;
    try destruct did; split; reflexivity.
Qed.

Lemma missing_road_edit_is_noop_witness :
  fst (doIt (set_roads emptyWorld [roadA]) (CmdExtendRoad 7 [vzero] false))
    = set_roads emptyWorld [roadA]
  /\ fst (undoIt (set_roads emptyWorld [roadA]) (CmdExtendRoad 7 [vzero] false))
    = set_roads emptyWorld [roadA].
Proof.
  apply (missing_road_edit_is_noop _ _ 7%Z).
  - reflexivity.
  - constructor; [simpl; lia | constructor].
Defined.

(** C1 (fails): after applying AddRoad to the empty world, undo removes
    the road but redo does not put it back: [CmdAddRoad::doIt] only
    appends while [applied] is false, and [undoIt] never resets it. *)
Theorem add_road_redo_loses_road :
  let '(w1, st1) := exec emptyWorld emptyStack (CmdAddRoad roadA false) in
  let '(w2, st2) := doUndo w1 st1 in
  let '(w3, _) := doRedo w2 st2 in
  roads w1 = [roadA] /\ roads w2 = [] /\ roads w3 = [].
Proof. repeat split. Qed.

(** C6 (fails): along [zoneTrace] (draw a road, zone it through the
    checked commit, unzone it, undo, redo, undo) the strip ends up twice
    in the zone list: the redo of the unzone does nothing and the second
    undo appends the removed strips again. *)
Theorem zone_trace_duplicates_strip :
  exists z, zones (fst (run (emptyWorld, emptyStack) zoneTrace)) = [z; z]
         /\ zonesConflict z z = true
         /\ ~ ZoneInvariant (zones (fst (run (emptyWorld, emptyStack) zoneTrace))).
Proof.
  pose proof (normalizeZone_road_side (MkWorld 1 2 [roadA] []) zoneTraceTool
                (MkZone 1 1 0 8 3 Residential ZONE_DEPTH_M)) as [Hr Hs].
  set (z := normalizeZone (MkWorld 1 2 [roadA] []) zoneTraceTool
              (MkZone 1 1 0 8 3 Residential ZONE_DEPTH_M)) in *.
  assert (E0 : run (emptyWorld, emptyStack) zoneTrace
               = run (MkWorld 1 2 [roadA] [z], MkStack [CmdAddZone z true; CmdAddRoad roadA true] [])
                     [ActUnzone 1; ActUndo; ActRedo; ActUndo]) by reflexivity.
  simpl in Hr, Hs. clearbody z.
  destruct z as [zi zr zd0' zd1' zm zt zdp]; simpl in Hr, Hs; subst zr zm.
  set (z := MkZone zi 1 zd0' zd1' 3 zt zdp) in *.
  assert (E : zones (fst (run (emptyWorld, emptyStack) zoneTrace)) = [z; z]).
  { rewrite E0. reflexivity. }
  assert (C : zonesConflict z z = true).
  { unfold zonesConflict. simpl. apply ZonesOverlap_refl. }
  exists z. rewrite E. split; [reflexivity|]. split; [exact C|].
  intros Hinv. specialize (Hinv 0%nat 1%nat ltac:(lia) ltac:(simpl; lia) ltac:(simpl; lia)).
  simpl in Hinv. rewrite C in Hinv. discriminate.
Qed.

(* ------------------------------------------------------------------ *)
(** ** Undo of a single command *)

Lemma Find_list_set (rs : list Road) (id : Z) (idx : nat) (x : Road) :
  FindRoadIndexById rs id = Some idx -> rid x = id ->
  FindRoadIndexById (list_set rs idx x) id = Some idx.
Proof.
  revert idx; induction rs as [|r rs IH]; intros idx H Hx; simpl in H; [discriminate|].
  destruct (Z.eqb_spec (rid r) id) as [e|ne].
  - inversion H; subst idx. change (list_set (r :: rs) 0 x) with (x :: rs).
    cbn [FindRoadIndexById]. rewrite Hx, Z.eqb_refl. reflexivity.
  - destruct (FindRoadIndexById rs id) as [j|] eqn:E; simpl in H; [|discriminate].
    inversion H; subst idx. specialize (IH j eq_refl Hx).
    change (list_set (r :: rs) (S j) x) with (r :: list_set rs j x).
    cbn [FindRoadIndexById].
    destruct (Z.eqb_spec (rid r) id); [contradiction|]. rewrite IH. reflexivity.
Qed.

Lemma updateRoadPts_facts (w : World) (id : Z) (idx : nat) (ps : list vec3) :
  FindRoadIndexById (roads w) id = Some idx ->
  FindRoadIndexById (roads (updateRoadPts w idx ps)) id = Some idx /\
  nth idx (roads (updateRoadPts w idx ps)) dummyRoad = MkRoad id ps (rebuildCum ps) /\
  zones (updateRoadPts w idx ps) = zones w /\
  (forall ps', roads (updateRoadPts (updateRoadPts w idx ps) idx ps')
               = roads (updateRoadPts w idx ps')).
Proof.
  intros H. destruct (FindRoadIndexById_some _ _ _ H) as [Hlt Hid].
  unfold updateRoadPts; simpl. rewrite Hid.
  split; [apply Find_list_set; auto|].
  split; [apply nth_list_set_same; auto|].
  split; [reflexivity|].
  intros ps'. rewrite nth_list_set_same by auto. simpl. apply list_set_set. auto.
Qed.

Lemma updateRoadPts_shape (w : World) (id : Z) (idx : nat) :
  FindRoadIndexById (roads w) id = Some idx ->
  map roadShape (roads (updateRoadPts w idx (pts (nth idx (roads w) dummyRoad))))
  = map roadShape (roads w).
Proof.
  intros H. destruct (FindRoadIndexById_some _ _ _ H) as [Hlt _].
  unfold updateRoadPts; simpl. rewrite map_list_set.
  replace (roadShape _) with (nth idx (map roadShape (roads w)) (roadShape dummyRoad)).
  - apply list_set_nth. rewrite length_map; auto.
  - rewrite map_nth. reflexivity.
Qed.

Lemma eraseZoneById_app_fresh (zs : list ZoneStrip) (z : ZoneStrip) :
  Forall (fun z' => zid z' <> zid z) zs -> eraseZoneById (zs ++ [z]) (zid z) = zs.
Proof.
  induction 1 as [|z' zs Hz _ IH]; simpl.
  - rewrite Z.eqb_refl. reflexivity.
  - destruct (Z.eqb_spec (zid z') (zid z)); [contradiction|]. rewrite IH. reflexivity.
Qed.

Lemma filter_split_perm {A} (f : A -> bool) (l : list A) :
  Permutation (filter (fun x => negb (f x)) l ++ filter f l) l.
Proof.
  induction l as [|x l IH]; simpl; [constructor|].
  destruct (f x); simpl.
  - apply Permutation_sym, Permutation_cons_app, Permutation_sym, IH.
  - constructor. exact IH.
Qed.

Lemma undoAfterDo_roads_zones (w : World) (c : Command) :
  cmdFitsState w c ->
  map roadShape (roads (undoAfterDo w c)) = map roadShape (roads w) /\
  (isClearZones c = false -> zones (undoAfterDo w c) = zones w).
Proof.
  unfold undoAfterDo.
  destruct c as [road applied | roadId added atStart | roadId pointIndex oldPos newPos
                 | roadId pointIndex removed did | zone applied | roadId removed applied];
    simpl; intros H.
  - (* AddRoad *)
    destruct H as [-> HF]. simpl.
    rewrite (FindRoadIndexById_app_none _ _ HF). simpl.
    rewrite list_erase_app. split; reflexivity.
  - (* ExtendRoad *)
    destruct (FindRoadIndexById (roads w) roadId) as [idx|] eqn:F.
    2:{ simpl. rewrite F. split; reflexivity. }
    specialize (H idx eq_refl).
    destruct added as [|p ad].
    + simpl. rewrite F.
      destruct (length (pts (nth idx (roads w) dummyRoad)) <=? 0)%nat eqn:E.
      { apply Nat.leb_le in E. destruct (pts (nth idx (roads w) dummyRoad)); [contradiction|simpl in E; lia]. }
      simpl. rewrite Nat.sub_0_r, firstn_all.
      split; [|reflexivity].
      destruct atStart; apply (updateRoadPts_shape w roadId idx F).
    + set (r := nth idx (roads w) dummyRoad) in *.
      set (ps := if atStart then fold_left (fun ps p => p :: ps) (rev (p :: ad)) (pts r)
                 else pts r ++ p :: ad).
      destruct (updateRoadPts_facts w roadId idx ps F) as [F1 [N1 [Z1 R1]]].
      unfold undoIt. rewrite F1, N1. cbn [pts].
      assert (Hps : (if atStart then skipn (length (p :: ad)) ps
                     else firstn (length ps - length (p :: ad)) ps) = pts r).
      { subst ps. destruct atStart.
        - rewrite fold_cons_rev, rev_involutive.
          rewrite skipn_app, skipn_all, Nat.sub_diag, skipn_0. reflexivity.
        - rewrite length_app, Nat.add_sub, firstn_app, firstn_all, Nat.sub_diag, firstn_O.
          apply app_nil_r. }
      assert (Hlen : (length ps <=? length (p :: ad))%nat = false).
      { apply Nat.leb_gt. subst ps. destruct (pts r) as [|q qs]; [contradiction|].
        destruct atStart.
        - rewrite fold_cons_rev, rev_involutive, length_app. simpl. lia.
        - rewrite length_app. simpl. lia. }
      rewrite Hlen. cbn [fst]. split; [|intros _; exact Z1].
      rewrite R1, Hps. apply (updateRoadPts_shape w roadId idx F).
  - (* MoveRoadPoint *)
    destruct (FindRoadIndexById (roads w) roadId) as [idx|] eqn:F.
    2:{ simpl. rewrite F. split; reflexivity. }
    specialize (H idx eq_refl).
    set (r := nth idx (roads w) dummyRoad) in *.
    destruct ((pointIndex <? 0)%Z || (Z.of_nat (length (pts r)) <=? pointIndex)%Z)%bool eqn:B.
    { simpl. rewrite F. fold r. rewrite B. split; reflexivity. }
    apply orb_false_iff in B as [B1 B2].
    apply Z.ltb_ge in B1. apply Z.leb_gt in B2.
    destruct (updateRoadPts_facts w roadId idx
                (list_set (pts r) (Z.to_nat pointIndex) (ground newPos)) F) as [F1 [N1 [Z1 R1]]].
    unfold undoIt. rewrite F1, N1. cbn [pts].
    assert (Hi : (Z.to_nat pointIndex < length (pts r))%nat) by lia.
    rewrite list_set_length by exact Hi.
    replace ((pointIndex <? 0)%Z || (Z.of_nat (length (pts r)) <=? pointIndex)%Z)%bool with false
      by (symmetry; apply orb_false_iff; split; [apply Z.ltb_ge|apply Z.leb_gt]; lia).
    cbn [fst]. split; [|intros _; exact Z1].
    rewrite R1, list_set_set by exact Hi.
    rewrite <- (H (conj B1 B2)), list_set_nth by exact Hi.
    apply (updateRoadPts_shape w roadId idx F).
  - (* DeleteRoadPoint *)
    subst did.
    destruct (FindRoadIndexById (roads w) roadId) as [idx|] eqn:F.
    2:{ simpl. split; reflexivity. }
    set (r := nth idx (roads w) dummyRoad).
    destruct ((pointIndex <? 0)%Z || (Z.of_nat (length (pts r)) <=? pointIndex)%Z)%bool eqn:B.
    { simpl. split; reflexivity. }
    destruct (Z.of_nat (length (pts r)) <=? 2)%Z eqn:B3.
    { simpl. split; reflexivity. }
    apply orb_false_iff in B as [B1 B2].
    apply Z.ltb_ge in B1. apply Z.leb_gt in B2. apply Z.leb_gt in B3.
    assert (Hi : (Z.to_nat pointIndex < length (pts r))%nat) by lia.
    destruct (updateRoadPts_facts w roadId idx
                (list_erase (pts r) (Z.to_nat pointIndex)) F) as [F1 [N1 [Z1 R1]]].
    unfold undoIt, negb. rewrite F1, N1. cbn [pts fst].
    rewrite list_erase_length by exact Hi.
    replace (ClampZ pointIndex 0 (Z.of_nat (length (pts r) - 1))) with pointIndex.
    2:{ unfold ClampZ. destruct (Z.ltb_spec pointIndex 0); [lia|].
        destruct (Z.ltb_spec (Z.of_nat (length (pts r) - 1)) pointIndex); [lia|reflexivity]. }
    split; [|intros _; exact Z1].
    rewrite R1, list_insert_erase by exact Hi.
    apply (updateRoadPts_shape w roadId idx F).
  - (* AddZone *)
    destruct H as [-> HF]. simpl.
    rewrite (eraseZoneById_app_fresh _ _ HF). split; reflexivity.
  - (* ClearZonesForRoad *)
    destruct H as [-> _]. simpl. split; [reflexivity|discriminate].
Qed.

(** C2 (as stated, refuted): clearing the strips of road 1 from the zone
    list [[A; B]] (A on road 1, B on road 2) and undoing the clear gives
    [[B; A]]: undo appends the removed strips at the end, so the zone list
    is not restored in its original order. *)
Lemma clear_zones_undo_reorders :
  undoAfterDo (MkWorld 1 3 [] [MkZone 1 1 0 8 3 Residential ZONE_DEPTH_M;
                               MkZone 2 2 0 8 3 Residential ZONE_DEPTH_M])
    (CmdClearZonesForRoad 1 [MkZone 1 1 0 8 3 Residential ZONE_DEPTH_M] false)
  = MkWorld 1 3 [] [MkZone 2 2 0 8 3 Residential ZONE_DEPTH_M;
                    MkZone 1 1 0 8 3 Residential ZONE_DEPTH_M]
  /\ zones (undoAfterDo (MkWorld 1 3 [] [MkZone 1 1 0 8 3 Residential ZONE_DEPTH_M;
                                         MkZone 2 2 0 8 3 Residential ZONE_DEPTH_M])
              (CmdClearZonesForRoad 1 [MkZone 1 1 0 8 3 Residential ZONE_DEPTH_M] false))
     <> [MkZone 1 1 0 8 3 Residential ZONE_DEPTH_M; MkZone 2 2 0 8 3 Residential ZONE_DEPTH_M].
Proof.
  split; [reflexivity|]. simpl. intros E. inversion E.
Qed.

(** C2 (amended): let a command be built against the current state (a
    fresh road id or zone id, the road's current point as [oldPos], a
    non-empty road to extend, the road's strips as [removed]). Running it
    and undoing it restores every road's id and points, and restores the
    zone list exactly for every command but ClearZonesForRoad. For
    ClearZonesForRoad the undo puts the removed strips after the kept
    ones, so the restored zone list is the original one up to order. *)
Theorem undo_restores_pre_state (w : World) (c : Command) :
  cmdFitsState w c ->
  map roadShape (roads (undoAfterDo w c)) = map roadShape (roads w) /\
  (isClearZones c = false -> zones (undoAfterDo w c) = zones w) /\
  (forall roadId removed applied, c = CmdClearZonesForRoad roadId removed applied ->
     zones (undoAfterDo w c) =
       filter (fun z => negb (Z.eqb (zroad z) roadId)) (zones w) ++
       filter (fun z => Z.eqb (zroad z) roadId) (zones w)) /\
  Permutation (zones (undoAfterDo w c)) (zones w).
Proof.
  intros H. destruct (undoAfterDo_roads_zones w c H) as [HR HZ].
  destruct (isClearZones c) eqn:E.
  - destruct c; try discriminate E.
    destruct H as [-> ->].
    assert (HC : zones (undoAfterDo w (CmdClearZonesForRoad roadId
                    (filter (fun z => Z.eqb (zroad z) roadId) (zones w)) false)) =
                 filter (fun z => negb (Z.eqb (zroad z) roadId)) (zones w) ++
                 filter (fun z => Z.eqb (zroad z) roadId) (zones w)) by reflexivity.
    split; [exact HR|]. split; [discriminate|]. split.
    + intros id' rm ap Heq. inversion Heq; subst. exact HC.
    + rewrite HC. apply filter_split_perm.
  - split; [exact HR|]. split; [exact HZ|]. split.
    + intros id' rm ap ->. discriminate E.
    + rewrite (HZ eq_refl). apply Permutation_refl.
Qed.

Lemma undo_restores_pre_state_witness :
  cmdFitsState (MkWorld 1 3 [] [MkZone 1 1 0 8 3 Residential ZONE_DEPTH_M;
                                MkZone 2 2 0 8 3 Residential ZONE_DEPTH_M])
    (CmdClearZonesForRoad 1 [MkZone 1 1 0 8 3 Residential ZONE_DEPTH_M] false) /\
  Permutation
    (zones (undoAfterDo (MkWorld 1 3 [] [MkZone 1 1 0 8 3 Residential ZONE_DEPTH_M;
                                         MkZone 2 2 0 8 3 Residential ZONE_DEPTH_M])
              (CmdClearZonesForRoad 1 [MkZone 1 1 0 8 3 Residential ZONE_DEPTH_M] false)))
    [MkZone 1 1 0 8 3 Residential ZONE_DEPTH_M; MkZone 2 2 0 8 3 Residential ZONE_DEPTH_M].
Proof.
  assert (H : cmdFitsState (MkWorld 1 3 [] [MkZone 1 1 0 8 3 Residential ZONE_DEPTH_M;
                                            MkZone 2 2 0 8 3 Residential ZONE_DEPTH_M])
                (CmdClearZonesForRoad 1 [MkZone 1 1 0 8 3 Residential ZONE_DEPTH_M] false))
    by (split; reflexivity).
  split; [exact H|].
  exact (proj2 (proj2 (proj2 (undo_restores_pre_state _ _ H)))).
Defined.

(* ------------------------------------------------------------------ *)
(** ** Numeric facts on the sample roads *)

Lemma Int_part_IZR (n : Z) : Int_part (IZR n) = n.
Proof.
  unfold Int_part. rewrite <- (tech_up (IZR n) (n + 1)).
  - ring.
  - rewrite plus_IZR. lra.
  - rewrite plus_IZR. lra.
Qed.

Lemma floorZ_IZR (n : Z) : floorZ (IZR n) = n.
Proof. apply Int_part_IZR. Qed.

Lemma ceilZ_IZR (n : Z) : ceilZ (IZR n) = n.
Proof. unfold ceilZ. rewrite <- opp_IZR, Int_part_IZR. lia. Qed.

Lemma LenXZ_x_axis (x0 x1 z : R) : x0 <= x1 -> LenXZ (V3 x0 0 z) (V3 x1 0 z) = x1 - x0.
Proof.
  intros H. unfold LenXZ; simpl.
  replace ((x1 - x0) * (x1 - x0) + (z - z) * (z - z)) with ((x1 - x0) * (x1 - x0)) by ring.
  apply sqrt_square. lra.
Qed.

Lemma cumLen_roadA : cumLen roadA = [0; 16].
Proof.
  unfold roadA, rebuildCum; simpl. rewrite LenXZ_x_axis by lra.
  f_equal. f_equal. ring.
Qed.

Lemma totalLen_roadA : totalLen roadA = 16.
Proof. unfold totalLen. rewrite cumLen_roadA. reflexivity. Qed.

Lemma normalizeZone_roadA_0_8 (w : World) (tool : ZoneTool) (z : ZoneStrip) :
  roads w = [roadA] -> zroad z = 1%Z -> startD tool = 0 -> endD tool = 8 ->
  zd0 (normalizeZone w tool z) = 0 /\ zd1 (normalizeZone w tool z) = 8.
Proof.
  intros Hw Hz Hs He. unfold normalizeZone. rewrite Hw, Hz, Hs, He.
  cbn [FindRoadIndexById nth]. change (Z.eqb (rid roadA) 1) with true. cbv iota.
  rewrite totalLen_roadA. unfold ZONE_CELL_M.
  replace (16 / 8) with (IZR 2) by (simpl; lra).
  replace (Rmin 0 8 / 8) with (IZR 0) by (unfold Rmin; destruct (Rle_dec 0 8); simpl; lra).
  replace (Rmax 0 8 / 8) with (IZR 1) by (unfold Rmax; destruct (Rle_dec 0 8); simpl; lra).
  rewrite floorZ_IZR, floorZ_IZR, ceilZ_IZR. simpl. replace (Z.max 0 (Z.min 1 0)) with 0%Z by reflexivity. split; lra.
Qed.

(* ------------------------------------------------------------------ *)
(** ** Claims on the zone commit *)

Lemma commitZone_unfold (w : World) (st : CommandStack) (tool : ZoneTool) :
  commitZone w st tool =
  let w1 := MkWorld (nextRoadId w) (nextZoneId w + 1) (roads w) (zones w) in
  let z := requestedZone w tool in
  if ZoneOverlapsExisting w1 (zroad z) (zd0 z) (zd1 z) then (w1, st)
  else exec w1 st (CmdAddZone z false).
Proof. reflexivity. Qed.

Lemma commitZone_zones_unchanged_iff (w : World) (st : CommandStack) (tool : ZoneTool) :
  zones (fst (commitZone w st tool)) = zones w <->
  exists z', In z' (zones w) /\ zroad z' = toolRoadId tool /\
    ZonesOverlap (zd0 (requestedZone w tool)) (zd1 (requestedZone w tool)) (zd0 z') (zd1 z') = true.
Proof.
  assert (Hr : zroad (requestedZone w tool) = toolRoadId tool)
    by (unfold requestedZone; apply normalizeZone_road_side).
  rewrite commitZone_unfold. cbv zeta. unfold ZoneOverlapsExisting. cbn [zones].
  destruct (existsb _ (zones w)) eqn:X.
  - split; [intros _ | reflexivity].
    apply existsb_exists in X as [z' [Hin Hz]]. apply andb_prop in Hz as [Hz Ho].
    apply Z.eqb_eq in Hz. exists z'. rewrite <- Hr. auto.
  - unfold exec; cbn. split.
    + intros H. apply (f_equal (@length _)) in H. rewrite length_app in H. simpl in H. lia.
    + intros [z' [Hin [Hz Ho]]]. exfalso.
      assert (T : existsb (fun z => (Z.eqb (zroad z) (zroad (requestedZone w tool)) &&
                    ZonesOverlap (zd0 (requestedZone w tool)) (zd1 (requestedZone w tool))
                                 (zd0 z) (zd1 z))%bool) (zones w) = true).
      { apply existsb_exists. exists z'. split; [exact Hin|].
        rewrite Hz, Hr, Z.eqb_refl, Ho. reflexivity. }
      rewrite T in X. discriminate.
Qed.

(** C4 (as stated, refuted): on a 16 m road, an existing strip on side 1
    only covering [0,16] makes the commit decline a side-2 request for
    [0,8]: the two side masks are disjoint, yet the request is rejected,
    because [ZoneOverlapsExisting] never looks at the side mask. *)
Lemma commit_rejects_opposite_side :
  Z.land (toolSideMask (MkTool 1 0 8 2 Residential)) 1 = 0%Z /\
  zones (fst (commitZone (MkWorld 2 2 [roadA] [MkZone 1 1 0 16 1 Residential ZONE_DEPTH_M])
                emptyStack (MkTool 1 0 8 2 Residential)))
  = [MkZone 1 1 0 16 1 Residential ZONE_DEPTH_M].
Proof.
  split; [reflexivity|].
  rewrite commitZone_unfold. cbv zeta.
  set (w := MkWorld 2 2 [roadA] [MkZone 1 1 0 16 1 Residential ZONE_DEPTH_M]).
  set (tool := MkTool 1 0 8 2 Residential).
  assert (H : zd0 (requestedZone w tool) = 0 /\ zd1 (requestedZone w tool) = 8)
    by (apply normalizeZone_roadA_0_8; reflexivity).
  assert (Hr : zroad (requestedZone w tool) = 1%Z)
    by (unfold requestedZone; rewrite (proj1 (normalizeZone_road_side _ _ _)); reflexivity).
  destruct H as [H0 H1]. rewrite H0, H1, Hr. subst w tool.
  unfold ZoneOverlapsExisting. cbn [zones existsb zroad zd0 zd1].
  replace (ZonesOverlap 0 8 0 16) with true.
  - reflexivity.
  - symmetry. unfold ZonesOverlap, Rleb. destruct (Rle_dec _ _) as [|n]; [reflexivity|].
    exfalso; apply n; minmax; lra.
Qed.

(** C4 (amended): the zone commit leaves the zone list unchanged exactly
    when some existing strip on the same road overlaps the snapped
    interval of the request (closed intervals), whatever the side masks of
    the two strips; otherwise the snapped strip is appended. *)
Theorem commitZone_rejects_iff (w : World) (st : CommandStack) (tool : ZoneTool) :
  (zones (fst (commitZone w st tool)) = zones w <->
   exists z', In z' (zones w) /\ zroad z' = toolRoadId tool /\
     ZonesOverlap (zd0 (requestedZone w tool)) (zd1 (requestedZone w tool)) (zd0 z') (zd1 z') = true) /\
  ((~ exists z', In z' (zones w) /\ zroad z' = toolRoadId tool /\
       ZonesOverlap (zd0 (requestedZone w tool)) (zd1 (requestedZone w tool)) (zd0 z') (zd1 z') = true) ->
   zones (fst (commitZone w st tool)) = zones w ++ [requestedZone w tool]).
Proof.
  split; [apply commitZone_zones_unchanged_iff|].
  intros Hno. rewrite commitZone_unfold. cbv zeta.
  destruct (ZoneOverlapsExisting _ _ _ _) eqn:X.
  - exfalso. apply Hno. unfold ZoneOverlapsExisting in X. cbn [zones] in X.
    apply existsb_exists in X as [z' [Hin Hz]]. apply andb_prop in Hz as [Hz Ho].
    apply Z.eqb_eq in Hz. exists z'. split; [exact Hin|]. split; [|exact Ho].
    rewrite Hz. unfold requestedZone. apply normalizeZone_road_side.
  - reflexivity.
Qed.

Lemma ZonesOverlap_iff (a0 a1 b0 b1 : R) :
  a0 <= a1 -> b0 <= b1 ->
  (ZonesOverlap a0 a1 b0 b1 = true <-> b0 <= a1 /\ a0 <= b1).
Proof.
  intros Ha Hb. unfold ZonesOverlap, Rleb.
  destruct (Rle_dec _ _) as [h|h]; split; intros H; try discriminate; try reflexivity.
  - revert h; minmax; lra.
  - exfalso; apply h; minmax; lra.
Qed.

Lemma IsLotZoned_found (zs : list ZoneStrip) (lot : LotCell) (z : ZoneStrip) :
  In z zs -> zroad z = lroad lot ->
  Z.land (zsideMask z) (if (lside lot <? 0)%Z then 1 else 2) <> 0%Z ->
  ZonesOverlap (ld0 lot) (ld1 lot) (zd0 z) (zd1 z) = true ->
  IsLotZoned zs lot <> None.
Proof.
  intros Hin Hr Hs Ho. induction zs as [|z0 zs IH]; [destruct Hin|].
  simpl. destruct Hin as [-> | Hin].
  - rewrite Hr, Z.eqb_refl. simpl.
    destruct (Z.eqb_spec (Z.land (zsideMask z) (if (lside lot <? 0)%Z then 1 else 2)) 0);
      [contradiction|].
    rewrite Ho. discriminate.
  - destruct (negb _); [apply IH; exact Hin|].
    destruct (Z.eqb _ 0); [apply IH; exact Hin|].
    destruct (negb _); [apply IH; exact Hin|discriminate].
Qed.

(** C10: the overlap test of zone intervals is closed. Two ordered
    intervals that share only an end point overlap; so the zone commit
    declines a request whose snapped interval ends where a strip of the
    same road starts (or starts where it ends), and a lot window that only
    touches a strip of its road and side is zoned. *)
Theorem zone_intervals_closed :
  (forall a0 a1 b0 b1, a0 <= a1 -> b0 <= b1 -> (a1 = b0 \/ b1 = a0) ->
     ZonesOverlap a0 a1 b0 b1 = true) /\
  (forall w st tool z',
     In z' (zones w) -> zroad z' = toolRoadId tool ->
     zd0 (requestedZone w tool) <= zd1 (requestedZone w tool) -> zd0 z' <= zd1 z' ->
     (zd1 (requestedZone w tool) = zd0 z' \/ zd1 z' = zd0 (requestedZone w tool)) ->
     zones (fst (commitZone w st tool)) = zones w) /\
  (forall zs lot z,
     In z zs -> zroad z = lroad lot ->
     Z.land (zsideMask z) (if (lside lot <? 0)%Z then 1 else 2) <> 0%Z ->
     ld0 lot <= ld1 lot -> zd0 z <= zd1 z -> (ld1 lot = zd0 z \/ zd1 z = ld0 lot) ->
     IsLotZoned zs lot <> None).
Proof.
  assert (T : forall a0 a1 b0 b1, a0 <= a1 -> b0 <= b1 -> (a1 = b0 \/ b1 = a0) ->
                ZonesOverlap a0 a1 b0 b1 = true).
  { intros a0 a1 b0 b1 Ha Hb Ht. apply ZonesOverlap_iff; [exact Ha|exact Hb|].
    destruct Ht; lra. }
  split; [exact T|]. split.
  - intros w st tool z' Hin Hr Hq Hz Ht.
    apply commitZone_zones_unchanged_iff. exists z'. split; [exact Hin|]. split; [exact Hr|].
    apply T; assumption.
  - intros zs lot z Hin Hr Hs Hl Hz Ht.
    apply (IsLotZoned_found zs lot z Hin Hr Hs). apply T; assumption.
Qed.

Lemma zone_intervals_closed_witness :
  ZonesOverlap 0 8 8 16 = true /\
  zones (fst (commitZone (MkWorld 2 2 [roadA] [MkZone 1 1 8 16 3 Residential ZONE_DEPTH_M])
                emptyStack (MkTool 1 0 8 3 Residential)))
  = [MkZone 1 1 8 16 3 Residential ZONE_DEPTH_M] /\
  IsLotZoned [MkZone 1 1 8 16 3 Residential ZONE_DEPTH_M]
    (MkLot 1 1 0 8 vzero vzero vzero false Residential) <> None.
Proof.
  destruct zone_intervals_closed as [P1 [P2 P3]].
  assert (H : zd0 (requestedZone (MkWorld 2 2 [roadA] [MkZone 1 1 8 16 3 Residential ZONE_DEPTH_M])
                                 (MkTool 1 0 8 3 Residential)) = 0 /\
              zd1 (requestedZone (MkWorld 2 2 [roadA] [MkZone 1 1 8 16 3 Residential ZONE_DEPTH_M])
                                 (MkTool 1 0 8 3 Residential)) = 8)
    by (apply normalizeZone_roadA_0_8; reflexivity).
  destruct H as [H0 H1].
  split; [apply P1; lra|]. split.
  - apply P2 with (z' := MkZone 1 1 8 16 3 Residential ZONE_DEPTH_M).
    + left; reflexivity.
    + reflexivity.
    + rewrite H0, H1; lra.
    + simpl; lra.
    + left. rewrite H1. reflexivity.
  - apply P3 with (z := MkZone 1 1 8 16 3 Residential ZONE_DEPTH_M).
    + left; reflexivity.
    + reflexivity.
    + simpl. discriminate.
    + simpl; lra.
    + simpl; lra.
    + left; reflexivity.
Defined.

(* ------------------------------------------------------------------ *)
(** ** Arc length: [rebuildCum], [segScan] and [pointAt] *)

Lemma LenXZ_nonneg (a b : vec3) : 0 <= LenXZ a b.
Proof. apply sqrt_pos. Qed.

Lemma cumFrom_length (acc : R) (ps : list vec3) :
  length (cumFrom acc ps) = (length ps - 1)%nat.
Proof.
  revert acc; induction ps as [|p ps IH]; intros acc; [reflexivity|].
  destruct ps as [|q ps]; [reflexivity|].
  change (cumFrom acc (p :: q :: ps))
    with ((acc + LenXZ p q) :: cumFrom (acc + LenXZ p q) (q :: ps)).
  cbn [length]. rewrite IH. simpl. lia.
Qed.

Lemma rebuildCum_length (ps : list vec3) : length (rebuildCum ps) = length ps.
Proof.
  destruct ps as [|p ps]; [reflexivity|].
  unfold rebuildCum. cbn [length]. rewrite cumFrom_length. simpl. lia.
Qed.

Lemma rebuildCum_0 (ps : list vec3) : nth 0 (rebuildCum ps) 0 = 0.
Proof. destruct ps; reflexivity. Qed.

Lemma cumFrom_step (acc : R) (ps : list vec3) (k : nat) :
  (S k < length ps)%nat ->
  nth (S k) (acc :: cumFrom acc ps) 0
  = nth k (acc :: cumFrom acc ps) 0 + LenXZ (nth k ps vzero) (nth (S k) ps vzero).
Proof.
  revert acc k; induction ps as [|p ps IH]; intros acc k H; [simpl in H; lia|].
  destruct ps as [|q ps]; [simpl in H; lia|].
  destruct k as [|k]; [reflexivity|].
  change (cumFrom acc (p :: q :: ps))
    with ((acc + LenXZ p q) :: cumFrom (acc + LenXZ p q) (q :: ps)).
  change (nth (S (S k)) (acc :: (acc + LenXZ p q) :: cumFrom (acc + LenXZ p q) (q :: ps)) 0)
    with (nth (S k) ((acc + LenXZ p q) :: cumFrom (acc + LenXZ p q) (q :: ps)) 0).
  change (nth (S k) (acc :: (acc + LenXZ p q) :: cumFrom (acc + LenXZ p q) (q :: ps)) 0)
    with (nth k ((acc + LenXZ p q) :: cumFrom (acc + LenXZ p q) (q :: ps)) 0).
  change (nth (S k) (p :: q :: ps) vzero) with (nth k (q :: ps) vzero).
  change (nth (S (S k)) (p :: q :: ps) vzero) with (nth (S k) (q :: ps) vzero).
  apply IH. simpl in *; lia.
Qed.

Lemma rebuildCum_step (ps : list vec3) (k : nat) :
  (S k < length ps)%nat ->
  nth (S k) (rebuildCum ps) 0
  = nth k (rebuildCum ps) 0 + LenXZ (nth k ps vzero) (nth (S k) ps vzero).
Proof.
  intros H. destruct ps as [|p ps]; [simpl in H; lia|]. apply cumFrom_step. exact H.
Qed.

Lemma rebuildCum_mono (ps : list vec3) (k m : nat) :
  (k <= m)%nat -> (m < length ps)%nat ->
  nth k (rebuildCum ps) 0 <= nth m (rebuildCum ps) 0.
Proof.
  intros Hkm. induction Hkm as [|m Hkm IH]; intros Hm; [lra|].
  rewrite rebuildCum_step by exact Hm.
  pose proof (LenXZ_nonneg (nth m ps vzero) (nth (S m) ps vzero)).
  specialize (IH ltac:(lia)). lra.
Qed.

Lemma rebuildCum_nonneg (ps : list vec3) (k : nat) :
  (k < length ps)%nat -> 0 <= nth k (rebuildCum ps) 0.
Proof.
  intros H. pose proof (rebuildCum_mono ps 0 k ltac:(lia) H) as M.
  rewrite rebuildCum_0 in M. exact M.
Qed.

Lemma last_as_nth {A} (l : list A) (d : A) : last l d = nth (length l - 1) l d.
Proof.
  induction l as [|x l IH]; [reflexivity|].
  destruct l as [|y l]; [reflexivity|].
  change (last (x :: y :: l) d) with (last (y :: l) d). rewrite IH.
  cbn [length]. replace (S (S (length l)) - 1)%nat with (S (S (length l) - 1)) by lia.
  reflexivity.
Qed.

Lemma LenXZ_zero (a b : vec3) : LenXZ a b = 0 -> vx a = vx b /\ vz a = vz b.
Proof.
  unfold LenXZ. cbv zeta. intros H.
  set (x := vx b - vx a) in H. set (z := vz b - vz a) in H.
  assert (Hx : 0 <= x * x) by nra. assert (Hz : 0 <= z * z) by nra.
  apply sqrt_eq_0 in H; [|lra].
  assert (x * x = 0) by lra. assert (z * z = 0) by lra.
  assert (x = 0) by nra. assert (z = 0) by nra.
  subst x z. split; lra.
Qed.

Lemma rebuildCum_flat (ps : list vec3) (k m : nat) :
  (k <= m)%nat -> (m < length ps)%nat ->
  nth k (rebuildCum ps) 0 = nth m (rebuildCum ps) 0 ->
  vx (nth k ps vzero) = vx (nth m ps vzero) /\ vz (nth k ps vzero) = vz (nth m ps vzero).
Proof.
  intros Hkm. induction Hkm as [|m Hkm IH]; intros Hm He; [split; reflexivity|].
  rewrite rebuildCum_step in He by exact Hm.
  pose proof (LenXZ_nonneg (nth m ps vzero) (nth (S m) ps vzero)) as HL.
  pose proof (rebuildCum_mono ps k m Hkm ltac:(lia)) as Hmono.
  assert (HL0 : LenXZ (nth m ps vzero) (nth (S m) ps vzero) = 0) by lra.
  destruct (IH ltac:(lia) ltac:(lra)) as [Ex Ez].
  destruct (LenXZ_zero _ _ HL0) as [Ex' Ez']. split; congruence.
Qed.

Lemma segScan_spec (cum : list R) (d : R) (fuel i : nat) :
  (i < length cum)%nat -> (length cum <= i + fuel)%nat ->
  (i = 0%nat \/ nth i cum 0 < d) ->
  (segScan cum d fuel i < length cum)%nat /\
  (segScan cum d fuel i = 0%nat \/ nth (segScan cum d fuel i) cum 0 < d) /\
  ((S (segScan cum d fuel i) < length cum)%nat -> d <= nth (S (segScan cum d fuel i)) cum 0).
Proof.
  revert i; induction fuel as [|f IH]; intros i Hi Hf Hd; [lia|].
  cbn [segScan].
  destruct (S i <? length cum)%nat eqn:E.
  - apply Nat.ltb_lt in E.
    destruct (Rlt_dec (nth (S i) cum 0) d) as [h|h].
    + apply IH; [lia|lia|right; exact h].
    + split; [exact Hi|]. split; [exact Hd|]. intros _. lra.
  - apply Nat.ltb_ge in E. split; [exact Hi|]. split; [exact Hd|]. lia.
Qed.

Lemma Clamp_id (v a b : R) : a <= v <= b -> Clamp v a b = v.
Proof.
  intros H. unfold Clamp.
  destruct (Rlt_dec v a); [lra|]. destruct (Rlt_dec b v); [lra|reflexivity].
Qed.

Section RoadWithCum.
Variable r : Road.
Hypothesis Hlen : (2 <= length (pts r))%nat.
Hypothesis Hcum : cumLen r = rebuildCum (pts r).

Lemma totalLen_nth : totalLen r = nth (length (pts r) - 1) (cumLen r) 0.
Proof. unfold totalLen. rewrite last_as_nth, Hcum, rebuildCum_length. reflexivity. Qed.

Lemma totalLen_nonneg : 0 <= totalLen r.
Proof. rewrite totalLen_nth, Hcum. apply rebuildCum_nonneg. lia. Qed.

Lemma cum_le_total (k : nat) : (k < length (pts r))%nat -> nth k (cumLen r) 0 <= totalLen r.
Proof. intros H. rewrite totalLen_nth, Hcum. apply rebuildCum_mono; lia. Qed.

Lemma pointAt_pos (d0 : R) :
  let d := Clamp d0 0 (totalLen r) in
  let i := segScan (cumLen r) d (length (cumLen r)) 0 in
  let a := nth i (pts r) vzero in
  let b := nth (S i) (pts r) vzero in
  let t := (d - nth i (cumLen r) 0) / Rmax eps6 (LenXZ a b) in
  fst (pointAt r d0) = V3 (vx a + (vx b - vx a) * t) 0 (vz a + (vz b - vz a) * t).
Proof.
  unfold pointAt.
  replace (((length (pts r) <? 2)%nat || negb (length (cumLen r) =? length (pts r))%nat)%bool)
    with false.
  - reflexivity.
  - symmetry. apply orb_false_iff. split.
    + apply Nat.ltb_ge. exact Hlen.
    + rewrite Hcum, rebuildCum_length, Nat.eqb_refl. reflexivity.
Qed.

(** The scan stops on a segment whose arc-length range holds [d]. *)
Lemma segScan_bracket (d : R) :
  0 <= d <= totalLen r ->
  let j := segScan (cumLen r) d (length (cumLen r)) 0 in
  (S j < length (pts r))%nat /\
  (j = 0%nat \/ nth j (cumLen r) 0 < d) /\
  nth j (cumLen r) 0 <= d <= nth (S j) (cumLen r) 0.
Proof.
  intros Hd j.
  assert (Hn : length (cumLen r) = length (pts r)) by (rewrite Hcum; apply rebuildCum_length).
  destruct (segScan_spec (cumLen r) d (length (cumLen r)) 0) as [H1 [H2 H3]];
    [lia|lia|left; reflexivity|].
  fold j in H1, H2, H3.
  assert (HS : (S j < length (pts r))%nat).
  { destruct (Nat.lt_ge_cases (S j) (length (pts r))) as [h|h]; [exact h|exfalso].
    assert (Ej : j = (length (pts r) - 1)%nat) by lia.
    destruct H2 as [H2|H2]; [lia|].
    rewrite totalLen_nth, <- Ej in Hd. lra. }
  split; [exact HS|]. split; [exact H2|]. split.
  - destruct H2 as [H2|H2]; [|lra]. rewrite H2, Hcum, rebuildCum_0. lra.
  - apply H3. lia.
Qed.
End RoadWithCum.

Lemma vec3_eq (a b : vec3) : vx a = vx b -> vy a = vy b -> vz a = vz b -> a = b.
Proof. destruct a, b; simpl; intros; subst; reflexivity. Qed.

Lemma vy_nth (ps : list vec3) (k : nat) :
  Forall (fun p => vy p = 0) ps -> vy (nth k ps vzero) = 0.
Proof.
  intros H. revert k; induction H as [|p ps Hp _ IH]; intros [|k]; simpl; auto.
Qed.

Lemma LenXZ_lerp_end (a b e : vec3) (t y : R) :
  vx e = vx b -> vz e = vz b ->
  LenXZ (V3 (vx a + (vx b - vx a) * t) y (vz a + (vz b - vz a) * t)) e
  = Rabs (1 - t) * LenXZ a b.
Proof.
  intros Hx Hz. unfold LenXZ. cbv zeta. cbn [vx vz]. rewrite Hx, Hz.
  replace ((vx b - (vx a + (vx b - vx a) * t)) * (vx b - (vx a + (vx b - vx a) * t)) +
           (vz b - (vz a + (vz b - vz a) * t)) * (vz b - (vz a + (vz b - vz a) * t)))
    with (Rsqr (1 - t) * ((vx b - vx a) * (vx b - vx a) + (vz b - vz a) * (vz b - vz a)))
    by (unfold Rsqr; ring).
  rewrite sqrt_mult_alt by apply Rle_0_sqr.
  rewrite sqrt_Rsqr_abs. reflexivity.
Qed.

(** C8: for a road of at least two ground points ([y = 0]) whose
    cumulative lengths are those [rebuildCum] computes, [pointAt 0] is
    the first point, and [pointAt totalLen] lies on the ground less than
    [1e-6] (the [segLen] floor of [pointAt]) from the last point in the
    XZ plane; it is exactly the last point when the last segment is at
    least [1e-6] long. *)
Theorem pointAt_endpoints (r : Road) :
  (2 <= length (pts r))%nat ->
  cumLen r = rebuildCum (pts r) ->
  Forall (fun p => vy p = 0) (pts r) ->
  fst (pointAt r 0) = nth 0 (pts r) vzero /\
  vy (fst (pointAt r (totalLen r))) = 0 /\
  LenXZ (fst (pointAt r (totalLen r))) (last (pts r) vzero) < eps6 /\
  (eps6 <= LenXZ (nth (length (pts r) - 2) (pts r) vzero)
                 (nth (length (pts r) - 1) (pts r) vzero) ->
   fst (pointAt r (totalLen r)) = last (pts r) vzero).
Proof.
  intros H2 Hc Hy.
  pose proof (totalLen_nonneg r H2 Hc) as HT0.
  assert (Heps : 0 < eps6) by (unfold eps6; lra).
  split.
  { rewrite (pointAt_pos r H2 Hc 0). cbv zeta.
    rewrite (Clamp_id 0 0 (totalLen r)) by lra.
    destruct (segScan_bracket r H2 Hc 0 ltac:(lra)) as [HS [Hj Hb]].
    set (j := segScan (cumLen r) 0 (length (cumLen r)) 0) in *.
    assert (Hj0 : j = 0%nat).
    { destruct Hj as [Hj|Hj]; [exact Hj|].
      rewrite Hc in Hj. pose proof (rebuildCum_nonneg (pts r) j ltac:(lia)). lra. }
    rewrite Hj0, Hc, rebuildCum_0.
    apply vec3_eq; cbn [vx vy vz].
    - unfold Rdiv. ring.
    - symmetry. apply vy_nth. exact Hy.
    - unfold Rdiv. ring. }
  rewrite (pointAt_pos r H2 Hc (totalLen r)). cbv zeta.
  rewrite (Clamp_id (totalLen r) 0 (totalLen r)) by lra.
  destruct (segScan_bracket r H2 Hc (totalLen r) ltac:(lra)) as [HS [Hj [Hb1 Hb2]]].
  set (j := segScan (cumLen r) (totalLen r) (length (cumLen r)) 0) in *.
  set (n := length (pts r)) in *.
  pose proof (cum_le_total r H2 Hc (S j) HS) as HSj.
  assert (HcS : nth (S j) (cumLen r) 0 = totalLen r) by lra.
  assert (HTn : totalLen r = nth (n - 1) (cumLen r) 0) by apply (totalLen_nth r Hc).
  assert (Hflat : vx (nth (S j) (pts r) vzero) = vx (nth (n - 1) (pts r) vzero) /\
                  vz (nth (S j) (pts r) vzero) = vz (nth (n - 1) (pts r) vzero)).
  { apply rebuildCum_flat; [lia|lia|]. rewrite <- Hc. congruence. }
  destruct Hflat as [Fx Fz].
  assert (Hstep : nth (S j) (cumLen r) 0
                  = nth j (cumLen r) 0 + LenXZ (nth j (pts r) vzero) (nth (S j) (pts r) vzero))
    by (rewrite Hc; apply rebuildCum_step; exact HS).
  set (L := LenXZ (nth j (pts r) vzero) (nth (S j) (pts r) vzero)) in *.
  pose proof (LenXZ_nonneg (nth j (pts r) vzero) (nth (S j) (pts r) vzero)) as HL0.
  fold L in HL0.
  replace (totalLen r - nth j (cumLen r) 0) with L by lra.
  rewrite last_as_nth. fold n.
  split; [reflexivity|]. split.
  - rewrite LenXZ_lerp_end by (symmetry; assumption). fold L.
    destruct (Rle_dec eps6 L) as [h|h].
    + rewrite Rmax_right by exact h. replace (L / L) with 1 by (field; lra).
      replace (1 - 1) with 0 by ring. rewrite Rabs_R0. lra.
    + rewrite Rmax_left by lra.
      assert (Ht : 0 <= L / eps6 < 1).
      { split; [unfold Rdiv; apply Rmult_le_pos; [lra|apply Rlt_le, Rinv_0_lt_compat; lra]|].
        apply (Rmult_lt_reg_r eps6); [lra|]. unfold Rdiv.
        rewrite Rmult_assoc, Rinv_l, Rmult_1_r by lra. lra. }
      rewrite Rabs_pos_eq by lra.
      assert ((1 - L / eps6) * L <= L) by nra. lra.
  - intros Hlast.
    assert (HjE : S j = (n - 1)%nat).
    { destruct (Nat.eq_dec (S j) (n - 1)) as [e|ne]; [exact e|exfalso].
      pose proof (rebuildCum_mono (pts r) (S j) (n - 2) ltac:(lia) ltac:(lia)) as M.
      pose proof (rebuildCum_step (pts r) (n - 2) ltac:(lia)) as St.
      replace (S (n - 2)) with (n - 1)%nat in St by lia.
      rewrite <- Hc in M, St. lra. }
    assert (HL : L = LenXZ (nth (n - 2) (pts r) vzero) (nth (n - 1) (pts r) vzero)).
    { unfold L. rewrite HjE. replace j with (n - 2)%nat by lia. reflexivity. }
    rewrite <- HL in Hlast.
    rewrite Rmax_right by exact Hlast. replace (L / L) with 1 by (field; lra).
    apply vec3_eq; cbn [vx vy vz].
    + rewrite <- Fx. ring.
    + symmetry. apply vy_nth. exact Hy.
    + rewrite <- Fz. ring.
Qed.

Lemma pointAt_endpoints_witness :
  ((2 <= length (pts roadA))%nat /\ cumLen roadA = rebuildCum (pts roadA) /\
   Forall (fun p => vy p = 0) (pts roadA)) /\
  fst (pointAt roadA 0) = V3 0 0 0.
Proof.
  assert (H2 : (2 <= length (pts roadA))%nat) by (simpl; lia).
  assert (Hc : cumLen roadA = rebuildCum (pts roadA)) by reflexivity.
  assert (Hy : Forall (fun p => vy p = 0) (pts roadA)) by (repeat constructor).
  split; [split; [exact H2|split; [exact Hc|exact Hy]]|].
  exact (proj1 (pointAt_endpoints roadA H2 Hc Hy)).
Defined.

(* ------------------------------------------------------------------ *)
(** ** The closest-point query *)

Lemma Clamp_range (v a b : R) : a <= b -> a <= Clamp v a b <= b.
Proof.
  intros H. unfold Clamp.
  destruct (Rlt_dec v a); [lra|]. destruct (Rlt_dec b v); lra.
Qed.

Lemma ClosestParam_facts (p a b : vec3) :
  0 <= fst (ClosestParamOnSegmentXZ p a b) <= 1 /\
  vx (snd (ClosestParamOnSegmentXZ p a b))
    = vx a + (vx b - vx a) * fst (ClosestParamOnSegmentXZ p a b) /\
  vz (snd (ClosestParamOnSegmentXZ p a b))
    = vz a + (vz b - vz a) * fst (ClosestParamOnSegmentXZ p a b).
Proof.
  unfold ClosestParamOnSegmentXZ. cbv zeta. cbn [fst snd vx vz vadd vscale vsub].
  split; [apply Clamp_range; lra|]. split; reflexivity.
Qed.

Lemma ClosestParam_on_segment (p a b : vec3) (s : R) :
  eps8 < (vx b - vx a) * (vx b - vx a) + (vz b - vz a) * (vz b - vz a) ->
  0 <= s <= 1 ->
  vx p = vx a + (vx b - vx a) * s -> vz p = vz a + (vz b - vz a) * s ->
  fst (ClosestParamOnSegmentXZ p a b) = s.
Proof.
  intros Hab Hs Hx Hz. unfold ClosestParamOnSegmentXZ. cbv zeta. cbn [fst].
  destruct (Rlt_dec eps8 _) as [_|n]; [|contradiction].
  rewrite Hx, Hz.
  assert (Hpos : 0 < eps8) by (unfold eps8; lra).
  replace (((vx a + (vx b - vx a) * s - vx a) * (vx b - vx a) +
            (vz a + (vz b - vz a) * s - vz a) * (vz b - vz a)) /
           ((vx b - vx a) * (vx b - vx a) + (vz b - vz a) * (vz b - vz a))) with s
    by (field; lra).
  apply Clamp_id. exact Hs.
Qed.

Lemma segDistSq_nonneg (r : Road) (p : vec3) (i : nat) : 0 <= segDistSq r p i.
Proof. unfold segDistSq. cbv zeta. apply Rplus_le_le_0_compat; apply Rle_0_sqr. Qed.

Lemma segDistSq_zero (r : Road) (p : vec3) (i : nat) :
  segDistSq r p i = 0 ->
  let a := nth i (pts r) vzero in
  let b := nth (S i) (pts r) vzero in
  let t := fst (ClosestParamOnSegmentXZ p a b) in
  0 <= t <= 1 /\ vx p = vx a + (vx b - vx a) * t /\ vz p = vz a + (vz b - vz a) * t.
Proof.
  unfold segDistSq. cbv zeta. intros H.
  destruct (ClosestParam_facts p (nth i (pts r) vzero) (nth (S i) (pts r) vzero)) as [Ht [Ex Ez]].
  set (c := snd _) in *.
  pose proof (Rle_0_sqr (vx p - vx c)) as Sx. pose proof (Rle_0_sqr (vz p - vz c)) as Sz.
  unfold Rsqr in Sx, Sz.
  assert (Dx : Rsqr (vx p - vx c) = 0) by (unfold Rsqr; lra).
  assert (Dz : Rsqr (vz p - vz c) = 0) by (unfold Rsqr; lra).
  apply Rsqr_0_uniq in Dx. apply Rsqr_0_uniq in Dz.
  assert (vx p = vx c) by lra. assert (vz p = vz c) by lra.
  split; [exact Ht|]. split; congruence.
Qed.

Lemma closestStep_spec (r : Road) (p : vec3) (bd ba : R) (bt : vec3) (i : nat) :
  (segDistSq r p i < bd /\
   fst (fst (closestStep r p (bd, ba, bt) i)) = segDistSq r p i /\
   snd (fst (closestStep r p (bd, ba, bt) i)) = segAlong r p i) \/
  (~ segDistSq r p i < bd /\ closestStep r p (bd, ba, bt) i = (bd, ba, bt)).
Proof.
  unfold closestStep, segDistSq, segAlong. cbv zeta.
  destruct (ClosestParamOnSegmentXZ p (nth i (pts r) vzero) (nth (S i) (pts r) vzero)) as [t c].
  cbn [fst snd].
  destruct (Rlt_dec _ bd) as [h|h]; [left|right]; auto.
Qed.

Lemma closest_fold_inv (r : Road) (p : vec3) (d : R) (l : list nat) :
  (forall k, In k l -> segDistSq r p k = 0 -> segAlong r p k = d) ->
  forall st,
  (fst (fst st) = 0 /\ snd (fst st) = d \/ 0 < fst (fst st)) ->
  (fst (fst (fold_left (closestStep r p) l st)) = 0 /\
   snd (fst (fold_left (closestStep r p) l st)) = d \/
   0 < fst (fst (fold_left (closestStep r p) l st))) /\
  (forall k, In k l -> fst (fst (fold_left (closestStep r p) l st)) <= segDistSq r p k) /\
  fst (fst (fold_left (closestStep r p) l st)) <= fst (fst st).
Proof.
  induction l as [|k l IH]; intros Hz st Hst.
  - split; [exact Hst|]. split; [intros ? []|simpl; lra].
  - cbn [fold_left].
    assert (Hz' : forall k', In k' l -> segDistSq r p k' = 0 -> segAlong r p k' = d)
      by (intros k' Hk'; apply Hz; right; exact Hk').
    destruct st as [[bd ba] bt].
    pose proof (segDistSq_nonneg r p k) as Hn.
    destruct (closestStep_spec r p bd ba bt k) as [[Hlt [E1 E2]]|[Hge E]].
    + destruct (IH Hz' (closestStep r p (bd, ba, bt) k)) as [A [B C]].
      { destruct (Req_dec (segDistSq r p k) 0) as [e|ne].
        - left. rewrite E1, E2. split; [exact e|]. apply Hz; [left; reflexivity|exact e].
        - right. rewrite E1. lra. }
      split; [exact A|]. split.
      * intros k0 [<-|Hk0]; [rewrite <- E1; exact C|apply B; exact Hk0].
      * rewrite E1 in C. change (fst (fst (bd, ba, bt))) with bd. lra.
    + rewrite E. destruct (IH Hz' _ Hst) as [A [B C]].
      split; [exact A|]. split.
      * intros k0 [<-|Hk0]; [simpl in C; lra|apply B; exact Hk0].
      * exact C.
Qed.

Lemma closest_fold_min (r : Road) (p : vec3) (l : list nat) (st : R * R * vec3) :
  (forall k, In k l -> fst (fst (fold_left (closestStep r p) l st)) <= segDistSq r p k) /\
  fst (fst (fold_left (closestStep r p) l st)) <= fst (fst st) /\
  (fst (fold_left (closestStep r p) l st) = fst st \/
   exists k, In k l /\ fst (fst (fold_left (closestStep r p) l st)) = segDistSq r p k /\
     snd (fst (fold_left (closestStep r p) l st)) = segAlong r p k).
Proof.
  revert st. induction l as [|k l IH]; intros st.
  - split; [intros ? []|]. split; [apply Rle_refl|left; reflexivity].
  - cbn [fold_left]. destruct st as [[bd ba] bt].
    destruct (closestStep_spec r p bd ba bt k) as [[Hlt [E1 E2]]|[Hge E]].
    + destruct (IH (closestStep r p (bd, ba, bt) k)) as [A [B C]].
      split; [|split].
      * intros k0 [<-|Hk0]; [rewrite <- E1; exact B|apply A; exact Hk0].
      * rewrite E1 in B. change (fst (fst (bd, ba, bt))) with bd. lra.
      * right. destruct C as [C|[k1 [Hk1 C]]].
        -- exists k. split; [left; reflexivity|]. rewrite C.
           destruct (closestStep r p (bd, ba, bt) k) as [[x y] z]. cbn in *. split; assumption.
        -- exists k1. split; [right; exact Hk1|exact C].
    + rewrite E. destruct (IH (bd, ba, bt)) as [A [B C]].
      split; [|split].
      * intros k0 [<-|Hk0]; [cbn in B; lra|apply A; exact Hk0].
      * exact B.
      * destruct C as [C|[k1 [Hk1 C]]]; [left; exact C|right; exists k1; split; [right; exact Hk1|exact C]].
Qed.

Lemma seg_on_segment (r : Road) (p : vec3) (i : nat) (s : R) :
  let a := nth i (pts r) vzero in
  let b := nth (S i) (pts r) vzero in
  eps8 < (vx b - vx a) * (vx b - vx a) + (vz b - vz a) * (vz b - vz a) ->
  0 <= s <= 1 ->
  vx p = vx a + (vx b - vx a) * s -> vz p = vz a + (vz b - vz a) * s ->
  segDistSq r p i = 0 /\ fst (ClosestParamOnSegmentXZ p a b) = s.
Proof.
  intros a b Hab Hs Hx Hz.
  pose proof (ClosestParam_on_segment p a b s Hab Hs Hx Hz) as Ht.
  split; [|exact Ht].
  destruct (ClosestParam_facts p a b) as [_ [Ex Ez]].
  unfold segDistSq. fold a b. cbv zeta.
  rewrite Ex, Ez, Ht, Hx, Hz. ring.
Qed.

Lemma LenXZ_sq (a b : vec3) :
  LenXZ a b * LenXZ a b = (vx b - vx a) * (vx b - vx a) + (vz b - vz a) * (vz b - vz a).
Proof.
  unfold LenXZ. cbv zeta. apply sqrt_sqrt.
  apply Rplus_le_le_0_compat; apply Rle_0_sqr.
Qed.

Lemma big30_pos : 0 < big30.
Proof. unfold big30. apply (IZR_lt 0). reflexivity. Qed.

Lemma LenXZ_x_axis_rev (x0 x1 z : R) : x1 <= x0 -> LenXZ (V3 x0 0 z) (V3 x1 0 z) = x0 - x1.
Proof.
  intros H. unfold LenXZ; simpl.
  replace ((x1 - x0) * (x1 - x0) + (z - z) * (z - z)) with ((x0 - x1) * (x0 - x1)) by ring.
  apply sqrt_square. lra.
Qed.

Lemma cumLen_roadFold : cumLen roadFold = [0; 10; 20].
Proof.
  unfold roadFold, rebuildCum; simpl.
  rewrite LenXZ_x_axis by lra. rewrite LenXZ_x_axis_rev by lra.
  repeat f_equal; ring.
Qed.

Lemma pointAt_roadFold_15 : fst (pointAt roadFold 15) = V3 5 0 0.
Proof.
  assert (H2 : (2 <= length (pts roadFold))%nat) by (simpl; lia).
  assert (Hc : cumLen roadFold = rebuildCum (pts roadFold)) by reflexivity.
  assert (HT : totalLen roadFold = 20) by (unfold totalLen; rewrite cumLen_roadFold; reflexivity).
  rewrite (pointAt_pos roadFold H2 Hc 15). cbv zeta.
  rewrite HT, Clamp_id by lra.
  pose proof (segScan_bracket roadFold H2 Hc 15 ltac:(rewrite HT; lra)) as B.
  cbv zeta in B.
  remember (segScan (cumLen roadFold) 15 (length (cumLen roadFold)) 0) as j eqn:Ej.
  clear Ej. rewrite cumLen_roadFold in B |- *.
  destruct B as [HS [_ [B1 B2]]].
  destruct j as [|[|j]]; [simpl in B2; lra| |simpl in HS; lia].
  cbn [nth pts roadFold vx vz].
  rewrite LenXZ_x_axis_rev by lra.
  rewrite Rmax_right by (unfold eps6; lra).
  apply vec3_eq; cbn [vx vy vz]; field.
Qed.

(** C7 (as stated, refuted): [roadFold] runs 10 m along x and back, its
    cumulative lengths are [[0; 10; 20]]. [pointAt 15] is [(5,0,0)], which
    the first segment already contains; the closest-point query keeps
    that first segment (later ones only replace it when strictly closer)
    and returns arc length 5, 10 m away from 15, more than a zone cell. *)
Lemma closest_roundtrip_fold_fails :
  cumLen roadFold = rebuildCum (pts roadFold) /\ totalLen roadFold = 20 /\
  fst (pointAt roadFold 15) = V3 5 0 0 /\
  snd (fst (ClosestDistanceAlongRoadSq roadFold (fst (pointAt roadFold 15)))) = 5 /\
  ZONE_CELL_M < Rabs (5 - 15).
Proof.
  split; [reflexivity|].
  split; [unfold totalLen; rewrite cumLen_roadFold; reflexivity|].
  split; [exact pointAt_roadFold_15|].
  split.
  - rewrite pointAt_roadFold_15.
    unfold ClosestDistanceAlongRoadSq. cbn [pts roadFold length Nat.ltb Nat.leb].
    cbn [Nat.sub seq fold_left].
    set (p := V3 5 0 0).
    destruct (seg_on_segment roadFold p 0 (1/2)) as [D0 T0];
      [cbn; unfold eps8; lra|lra|cbn; lra|cbn; lra|].
    destruct (seg_on_segment roadFold p 1 (1/2)) as [D1 _];
      [cbn; unfold eps8; lra|lra|cbn; lra|cbn; lra|].
    pose proof big30_pos as Hb.
    destruct (closestStep_spec roadFold p big30 0 (V3 1 0 0) 0) as [[_ [E1 E2]]|[Hge _]];
      [|rewrite D0 in Hge; lra].
    destruct (closestStep roadFold p (big30, 0, V3 1 0 0) 0) as [[bd ba] bt].
    cbn [fst snd] in E1, E2. subst bd.
    destruct (closestStep_spec roadFold p (segDistSq roadFold p 0) ba bt 1)
      as [[Hlt _]|[_ E]]; [rewrite D0, D1 in Hlt; lra|].
    rewrite E. cbn [fst snd]. rewrite E2.
    unfold segAlong. cbv zeta. rewrite T0. cbn [nth pts roadFold].
    rewrite cumLen_roadFold. cbn [length Nat.ltb Nat.leb nth].
    rewrite LenXZ_x_axis by lra. lra.
  - unfold ZONE_CELL_M. rewrite Rabs_left by lra. lra.
Qed.

Lemma ClosestParam_short (p a b : vec3) :
  ~ eps8 < (vx b - vx a) * (vx b - vx a) + (vz b - vz a) * (vz b - vz a) ->
  fst (ClosestParamOnSegmentXZ p a b) = 0.
Proof.
  intros H. unfold ClosestParamOnSegmentXZ. cbv zeta. cbn [fst].
  destruct (Rlt_dec eps8 _) as [h|_]; [contradiction|].
  apply Clamp_id. lra.
Qed.

Lemma ClosestParam_at_start (p a b : vec3) :
  vx p = vx a -> vz p = vz a -> fst (ClosestParamOnSegmentXZ p a b) = 0.
Proof.
  intros Hx Hz. unfold ClosestParamOnSegmentXZ. cbv zeta. cbn [fst].
  rewrite Hx, Hz.
  replace (vx a - vx a) with 0 by ring. replace (vz a - vz a) with 0 by ring.
  rewrite !Rmult_0_l, Rplus_0_l.
  destruct (Rlt_dec eps8 _); [unfold Rdiv; rewrite Rmult_0_l|]; apply Clamp_id; lra.
Qed.

(** Segment [k]'s distance and arc length are those of the point of the
    segment at the parameter [ClosestParamOnSegmentXZ] returns. *)
Lemma segDistSq_as (r : Road) (p : vec3) (k : nat) :
  let s := fst (ClosestParamOnSegmentXZ p (nth k (pts r) vzero) (nth (S k) (pts r) vzero)) in
  0 <= s <= 1 /\ segDistSq r p k = distSqXZ p (segPoint r k s) /\
  ((k < length (cumLen r))%nat -> segAlong r p k = segArc r k s).
Proof.
  intros s.
  destruct (ClosestParam_facts p (nth k (pts r) vzero) (nth (S k) (pts r) vzero)) as [Hs [Ex Ez]].
  split; [exact Hs|]. split.
  - unfold segDistSq, distSqXZ, segPoint. cbv zeta. rewrite Ex, Ez. reflexivity.
  - intros Hk. unfold segAlong, segArc. cbv zeta.
    replace (k <? length (cumLen r))%nat with true by (symmetry; apply Nat.ltb_lt; exact Hk).
    reflexivity.
Qed.

(** A point of segment [k] is within [1e-4] of what the query computes
    for that segment: exactly on it when the segment is longer than
    [1e-4], at most its length away from its start otherwise. *)
Lemma segDistSq_segPoint_le (r : Road) (k : nat) (t : R) :
  0 <= t <= 1 -> segDistSq r (segPoint r k t) k <= eps8.
Proof.
  intros Ht.
  set (a := nth k (pts r) vzero). set (b := nth (S k) (pts r) vzero).
  destruct (Rlt_dec eps8 ((vx b - vx a) * (vx b - vx a) + (vz b - vz a) * (vz b - vz a)))
    as [h|h].
  - destruct (seg_on_segment r (segPoint r k t) k t h Ht) as [D _];
      [reflexivity|reflexivity|].
    rewrite D. unfold eps8. lra.
  - destruct (ClosestParam_facts (segPoint r k t) a b) as [_ [Ex Ez]].
    rewrite (ClosestParam_short _ a b h) in Ex, Ez.
    unfold segDistSq. cbv zeta. fold a b. rewrite Ex, Ez.
    unfold segPoint. fold a b. cbn [vx vz].
    apply Rnot_lt_le in h.
    assert (H0 : 0 <= (vx b - vx a) * (vx b - vx a) + (vz b - vz a) * (vz b - vz a))
      by (apply Rplus_le_le_0_compat; apply Rle_0_sqr).
    assert (Ht2 : t * t <= 1) by nra.
    match goal with |- ?L <= _ =>
      replace L with (t * t * ((vx b - vx a) * (vx b - vx a) + (vz b - vz a) * (vz b - vz a)))
        by ring end.
    nra.
Qed.

Lemma segDistSq_at_start (r : Road) (p : vec3) (k : nat) :
  vx p = vx (nth k (pts r) vzero) -> vz p = vz (nth k (pts r) vzero) -> segDistSq r p k = 0.
Proof.
  intros Hx Hz.
  destruct (ClosestParam_facts p (nth k (pts r) vzero) (nth (S k) (pts r) vzero)) as [_ [Ex Ez]].
  rewrite (ClosestParam_at_start p _ _ Hx Hz) in Ex, Ez.
  unfold segDistSq. cbv zeta. rewrite Ex, Ez, Hx, Hz. ring.
Qed.

(** [pointAt d] is the point of the segment the scan stops on, at a
    parameter in [[0, 1]] that is 0 when [d] is that segment's start. *)
Lemma pointAt_segPoint (r : Road) (d : R) :
  (2 <= length (pts r))%nat -> cumLen r = rebuildCum (pts r) -> 0 <= d <= totalLen r ->
  exists j t, (S j < length (pts r))%nat /\
    nth j (cumLen r) 0 <= d <= nth (S j) (cumLen r) 0 /\
    0 <= t <= 1 /\ fst (pointAt r d) = segPoint r j t /\
    (d = nth j (cumLen r) 0 -> t = 0).
Proof.
  intros H2 Hc Hd.
  pose proof (pointAt_pos r H2 Hc d) as HP. cbv zeta in HP.
  rewrite (Clamp_id d 0 (totalLen r) Hd) in HP.
  destruct (segScan_bracket r H2 Hc d Hd) as [HS [_ [B1 B2]]].
  set (j := segScan (cumLen r) d (length (cumLen r)) 0) in *.
  assert (Hstep : nth (S j) (cumLen r) 0
                  = nth j (cumLen r) 0 + LenXZ (nth j (pts r) vzero) (nth (S j) (pts r) vzero))
    by (rewrite Hc; apply rebuildCum_step; exact HS).
  set (L := LenXZ (nth j (pts r) vzero) (nth (S j) (pts r) vzero)) in *.
  assert (HM : 0 < Rmax eps6 L)
    by (apply Rlt_le_trans with eps6; [unfold eps6; lra|apply Rmax_l]).
  assert (HLM : L <= Rmax eps6 L) by apply Rmax_r.
  exists j, ((d - nth j (cumLen r) 0) / Rmax eps6 L).
  split; [exact HS|]. split; [lra|]. split; [|split].
  - split.
    + unfold Rdiv. apply Rmult_le_pos; [lra|]. left. apply Rinv_0_lt_compat. exact HM.
    + apply (Rmult_le_reg_r (Rmax eps6 L)); [exact HM|]. unfold Rdiv.
      rewrite Rmult_assoc, Rinv_l, Rmult_1_r by lra. lra.
  - rewrite HP. reflexivity.
  - intros E. rewrite <- E. unfold Rdiv. ring.
Qed.

(** The query scans the segments in order and replaces its best only on
    a strictly smaller distance: once a distance 0 is kept, nothing
    replaces it, and before it the kept distance stays positive. *)
Lemma closest_fold_zero (r : Road) (p : vec3) (l : list nat) (st : R * R * vec3) :
  fst (fst st) = 0 -> fst (fold_left (closestStep r p) l st) = fst st.
Proof.
  revert st. induction l as [|k l IH]; intros st H; [reflexivity|].
  cbn [fold_left]. destruct st as [[bd ba] bt]. cbn [fst] in H.
  pose proof (segDistSq_nonneg r p k) as Hn.
  destruct (closestStep_spec r p bd ba bt k) as [[Hlt _]|[_ E]]; [lra|].
  rewrite E. apply IH. exact H.
Qed.

Lemma closest_fold_pos (r : Road) (p : vec3) (l : list nat) (st : R * R * vec3) :
  (forall i, In i l -> 0 < segDistSq r p i) ->
  0 < fst (fst st) -> 0 < fst (fst (fold_left (closestStep r p) l st)).
Proof.
  revert st. induction l as [|k l IH]; intros st Hl H; [exact H|].
  cbn [fold_left]. destruct st as [[bd ba] bt].
  apply IH; [intros i Hi; apply Hl; right; exact Hi|].
  destruct (closestStep_spec r p bd ba bt k) as [[_ [E1 _]]|[_ E]].
  - rewrite E1. apply Hl. left. reflexivity.
  - rewrite E. exact H.
Qed.

(** C7 (amended): take a road of at least two points whose cumulative
    lengths are those [rebuildCum] computes, and [d] in [[0, totalLen]];
    there is no condition on the segment lengths.
    (1) If every point of the road within [1e-4] of [pointAt d] in XZ
    (squared distance at most [eps8]) lies within [delta] of [d] in arc
    length, the closest-point query on [pointAt d] returns an arc length
    within [delta] of [d].
    (2) If every point of the road that coincides with [pointAt d] in XZ
    lies at arc length [d] (the road does not pass through that point a
    second time), and a segment whose arc-length range [(cum k, cum (k+1)]]
    holds [d] is longer than [1e-4], the query returns exactly [d].
    (3) Whatever the road, if segment [k] is the first segment whose
    distance to [pointAt d] as the query computes it is 0, the query
    returns segment [k]'s arc length, whatever later segments give. *)
Theorem closest_pointAt_roundtrip (r : Road) (d delta : R) :
  (2 <= length (pts r))%nat ->
  cumLen r = rebuildCum (pts r) ->
  0 <= d <= totalLen r ->
  ((forall k s, (S k < length (pts r))%nat -> 0 <= s <= 1 ->
      distSqXZ (fst (pointAt r d)) (segPoint r k s) <= eps8 ->
      Rabs (segArc r k s - d) <= delta) ->
   Rabs (snd (fst (ClosestDistanceAlongRoadSq r (fst (pointAt r d)))) - d) <= delta) /\
  ((forall k s, (S k < length (pts r))%nat -> 0 <= s <= 1 ->
      distSqXZ (fst (pointAt r d)) (segPoint r k s) = 0 -> segArc r k s = d) ->
   (forall k, (S k < length (pts r))%nat ->
      nth k (cumLen r) 0 < d <= nth (S k) (cumLen r) 0 ->
      / 10000 < LenXZ (nth k (pts r) vzero) (nth (S k) (pts r) vzero)) ->
   snd (fst (ClosestDistanceAlongRoadSq r (fst (pointAt r d)))) = d) /\
  (forall k, (S k < length (pts r))%nat ->
   segDistSq r (fst (pointAt r d)) k = 0 ->
   (forall i, (i < k)%nat -> 0 < segDistSq r (fst (pointAt r d)) i) ->
   snd (fst (ClosestDistanceAlongRoadSq r (fst (pointAt r d))))
     = segAlong r (fst (pointAt r d)) k).
Proof.
  intros H2 Hc Hd.
  set (p := fst (pointAt r d)).
  assert (Hn : length (cumLen r) = length (pts r)) by (rewrite Hc; apply rebuildCum_length).
  destruct (pointAt_segPoint r d H2 Hc Hd) as [j [t [HS [[B1 B2] [Ht [HP H0]]]]]].
  fold p in HP.
  assert (Hb : eps8 < big30).
  { apply Rlt_le_trans with 1; [unfold eps8; lra|]. unfold big30. apply IZR_le. lia. }
  unfold ClosestDistanceAlongRoadSq.
  replace (length (pts r) <? 2)%nat with false by (symmetry; apply Nat.ltb_ge; exact H2).
  split; [|split].
  - intros Hnear.
    pose proof (segDistSq_segPoint_le r j t Ht) as Dj. rewrite <- HP in Dj.
    destruct (closest_fold_min r p (seq 0 (length (pts r) - 1)) (big30, 0, V3 1 0 0))
      as [A [_ [C|[k [Hk [E1 E2]]]]]].
    + specialize (A j ltac:(apply in_seq; lia)). rewrite C in A. cbn [fst] in A. lra.
    + apply in_seq in Hk.
      specialize (A j ltac:(apply in_seq; lia)). rewrite E1 in A.
      destruct (segDistSq_as r p k) as [Hs [D Al]].
      rewrite E2, Al by lia. apply Hnear; [lia|exact Hs|].
      rewrite <- D. lra.
  - intros Honly Hlong.
    assert (Dj : segDistSq r p j = 0).
    { destruct (Rlt_dec (nth j (cumLen r) 0) d) as [h|h].
      - specialize (Hlong j HS (conj h B2)).
        apply (seg_on_segment r p j t); [|exact Ht|rewrite HP; reflexivity|rewrite HP; reflexivity].
        rewrite <- LenXZ_sq. unfold eps8.
        assert (/ 100000000 = / 10000 * / 10000) by (field; lra). nra.
      - assert (t = 0) as -> by (apply H0; lra).
        apply segDistSq_at_start; rewrite HP; cbn [segPoint vx vz]; ring. }
    destruct (closest_fold_inv r p d (seq 0 (length (pts r) - 1))) with (st := (big30, 0, V3 1 0 0))
      as [A [B _]].
    + intros k Hk Hz. apply in_seq in Hk.
      destruct (segDistSq_as r p k) as [Hs [D Al]].
      rewrite Al by lia. apply Honly; [lia|exact Hs|]. rewrite <- D. exact Hz.
    + right. exact big30_pos.
    + specialize (B j ltac:(apply in_seq; lia)). rewrite Dj in B.
      destruct A as [[_ A]|A]; [exact A|lra].
  - intros k Hk Hz Hfirst.
    replace (length (pts r) - 1)%nat with (k + S (length (pts r) - 1 - S k))%nat by lia.
    rewrite seq_app, fold_left_app. cbn [Nat.add seq fold_left].
    set (st1 := fold_left (closestStep r p) (seq 0 k) (big30, 0, V3 1 0 0)).
    assert (Hpos : 0 < fst (fst st1)).
    { apply closest_fold_pos; [|exact big30_pos].
      intros i Hi. apply in_seq in Hi. apply Hfirst. lia. }
    destruct st1 as [[bd ba] bt]. cbn [fst] in Hpos.
    destruct (closestStep_spec r p bd ba bt k) as [[_ [E1 E2]]|[Hge _]];
      [|rewrite Hz in Hge; lra].
    rewrite (closest_fold_zero r p _ _ ltac:(rewrite E1; exact Hz)). exact E2.
Qed.

Lemma pointAt_roadA_4 : fst (pointAt roadA 4) = V3 4 0 0.
Proof.
  assert (H2 : (2 <= length (pts roadA))%nat) by (simpl; lia).
  assert (Hc : cumLen roadA = rebuildCum (pts roadA)) by reflexivity.
  rewrite (pointAt_pos roadA H2 Hc 4). cbv zeta.
  rewrite totalLen_roadA, Clamp_id by lra.
  destruct (segScan_bracket roadA H2 Hc 4 ltac:(rewrite totalLen_roadA; lra)) as [HS _].
  revert HS. generalize (segScan (cumLen roadA) 4 (length (cumLen roadA)) 0).
  intros j HS. destruct j as [|j]; [|simpl in HS; lia].
  rewrite cumLen_roadA. cbn [nth pts roadA vx vz].
  rewrite LenXZ_x_axis by lra. rewrite Rmax_right by (unfold eps6; lra).
  apply vec3_eq; cbn [vx vy vz]; field.
Qed.

Lemma segArc_roadA (s : R) : segArc roadA 0 s = 16 * s.
Proof.
  unfold segArc. rewrite cumLen_roadA. cbn [nth pts roadA].
  rewrite LenXZ_x_axis by lra. ring.
Qed.

Lemma closest_pointAt_roundtrip_witness :
  (2 <= length (pts roadA))%nat /\
  Rabs (snd (fst (ClosestDistanceAlongRoadSq roadA (fst (pointAt roadA 4)))) - 4) <= / 10000 /\
  snd (fst (ClosestDistanceAlongRoadSq roadA (fst (pointAt roadA 4)))) = 4.
Proof.
  assert (H2 : (2 <= length (pts roadA))%nat) by (simpl; lia).
  assert (Hc : cumLen roadA = rebuildCum (pts roadA)) by reflexivity.
  assert (Hd : 0 <= 4 <= totalLen roadA) by (rewrite totalLen_roadA; lra).
  destruct (closest_pointAt_roundtrip roadA 4 (/ 10000) H2 Hc Hd) as [P1 [P2 _]].
  split; [exact H2|]. split.
  - apply P1. intros k s Hk Hs Hn. destruct k as [|k]; [|simpl in Hk; lia].
    rewrite segArc_roadA. rewrite pointAt_roadA_4 in Hn.
    unfold distSqXZ, segPoint in Hn. cbn [nth pts roadA vx vz] in Hn.
    unfold eps8 in Hn.
    apply Rabs_le. split; apply Rnot_lt_le; intros Hc'; nra.
  - apply P2.
    + intros k s Hk Hs Hz. destruct k as [|k]; [|simpl in Hk; lia].
      rewrite segArc_roadA. rewrite pointAt_roadA_4 in Hz.
      unfold distSqXZ, segPoint in Hz. cbn [nth pts roadA vx vz] in Hz. nra.
    + intros k Hk _. destruct k as [|k]; [|simpl in Hk; lia].
      cbn [nth pts roadA]. rewrite LenXZ_x_axis by lra. lra.
Defined.

(* ------------------------------------------------------------------ *)
(** ** Claims on the rebuild passes *)

Lemma placeLot_static_time (assets : AssetCatalog) (g : ZoneGrid) (rs : list Road)
    (t1 t2 : R) (st : HouseOut) (c : LotCell) :
  placeLot assets g rs false t1 st c = placeLot assets g rs false t2 st c.
Proof. reflexivity. Qed.

Lemma fold_placeLot_static_time (assets : AssetCatalog) (g : ZoneGrid) (rs : list Road)
    (t1 t2 : R) (lots : list LotCell) (st : HouseOut) :
  fold_left (placeLot assets g rs false t1) lots st
  = fold_left (placeLot assets g rs false t2) lots st.
Proof.
  revert st; induction lots as [|c lots IH]; intros st; [reflexivity|].
  cbn [fold_left]. rewrite (placeLot_static_time assets g rs t1 t2 st c). apply IH.
Qed.

(** C5: with [animate = false] the placement pass is a function of the
    roads, the zone grid and the lots alone: two runs on pipelines that
    agree on those give the same outputs (building instances, static
    transforms and everything else), whatever the clock value and
    whatever the houses left by an earlier run. In particular the whole
    rebuild from a world state, water mask and asset catalog gives the
    same result twice. *)
Theorem placement_deterministic (assets : AssetCatalog) (t1 t2 : R) :
  (forall s1 s2 : Pipeline,
     pRoads s1 = pRoads s2 -> pGrid s1 = pGrid s2 -> pLots s1 = pLots s2 ->
     RebuildHousesFromLots s1 assets false t1 = RebuildHousesFromLots s2 assets false t2) /\
  (forall (w : World) (water : list CellKey) (prev1 prev2 : HouseOut),
     rebuildAll w water prev1 assets false t1 = rebuildAll w water prev2 assets false t2).
Proof.
  split.
  - intros [r1 g1 l1 h1] [r2 g2 l2 h2] Hr Hg Hl. cbn in Hr, Hg, Hl. subst r2 g2 l2.
    unfold RebuildHousesFromLots. cbn [pRoads pGrid pLots].
    rewrite (fold_placeLot_static_time assets g1 r1 t1 t2 l1 emptyHouseOut). reflexivity.
  - intros w water prev1 prev2. unfold rebuildAll, RebuildHousesFromLots. cbn [pRoads pGrid pLots].
    rewrite fold_placeLot_static_time with (t2 := t2). reflexivity.
Qed.

Lemma placement_deterministic_witness :
  RebuildHousesFromLots (MkPipeline [roadA] emptyGrid [] emptyHouseOut)
    (MkCatalog (fun _ => 0%Z) (fun _ => None)) false 0
  = RebuildHousesFromLots (MkPipeline [roadA] emptyGrid [] (MkHouseOut [] [] [] [] [(0, 0)%Z] []))
    (MkCatalog (fun _ => 0%Z) (fun _ => None)) false 1.
Proof.
  apply (proj1 (placement_deterministic (MkCatalog (fun _ => 0%Z) (fun _ => None)) 0 1));
    reflexivity.
Defined.

(* ------------------------------------------------------------------ *)
(** ** The zone grid on two parallel roads *)

Lemma pointAt_xroad (id : Z) (z0 d : R) :
  fst (pointAt (MkRoad id [V3 0 0 z0; V3 16 0 z0] (rebuildCum [V3 0 0 z0; V3 16 0 z0])) d)
    = V3 (Clamp d 0 16) 0 z0 /\
  snd (pointAt (MkRoad id [V3 0 0 z0; V3 16 0 z0] (rebuildCum [V3 0 0 z0; V3 16 0 z0])) d)
    = V3 1 0 0.
Proof.
  unfold pointAt, rebuildCum, totalLen. cbn [pts cumLen cumFrom length Nat.ltb Nat.leb Nat.eqb negb orb].
  rewrite LenXZ_x_axis by lra.
  replace (0 + (16 - 0)) with 16 by ring. cbn [last].
  pose proof (Clamp_range d 0 16 ltac:(lra)) as Hc.
  set (c := Clamp d 0 16) in *.
  cbn [segScan length Nat.ltb Nat.leb nth].
  destruct (Rlt_dec 16 c) as [h|_]; [lra|].
  cbn [nth]. rewrite LenXZ_x_axis by lra.
  rewrite Rmax_right by (unfold eps6; lra).
  cbn [vx vy vz].
  replace (sqrt ((16 - 0) * (16 - 0) + (z0 - z0) * (z0 - z0))) with 16.
  2:{ replace ((16 - 0) * (16 - 0) + (z0 - z0) * (z0 - z0)) with (16 * 16) by ring.
      symmetry. apply sqrt_square. lra. }
  destruct (Rlt_dec eps6 16) as [_|h]; [|unfold eps6 in h; lra].
  split; apply vec3_eq; simpl; try reflexivity; field.
Qed.

Lemma roadFrame_xroad (id : Z) (z0 d : R) :
  roadFrame (MkRoad id [V3 0 0 z0; V3 16 0 z0] (rebuildCum [V3 0 0 z0; V3 16 0 z0])) d
  = Some (V3 (Clamp d 0 16) 0 z0, V3 0 0 (-1)).
Proof.
  destruct (pointAt_xroad id z0 d) as [Hp Ht].
  unfold roadFrame.
  destruct (pointAt _ d) as [p tan]. cbn [fst snd] in Hp, Ht. subst p tan.
  unfold vdot. cbn [vx vy vz].
  destruct (Rlt_dec (1 * 1 + 0 * 0 + 0 * 0) eps6) as [h|_]; [unfold eps6 in h; lra|].
  f_equal. f_equal.
  unfold vnormalize, vcross, vdot, vup, vscale. cbn [vx vy vz].
  replace ((1 * 0 - 0 * 0) * (1 * 0 - 0 * 0) + (0 * 1 - 0 * 0) * (0 * 1 - 0 * 0) +
           (0 * 0 - 1 * 1) * (0 * 0 - 1 * 1)) with 1 by ring.
  rewrite sqrt_1. apply vec3_eq; cbn [vx vy vz]; field.
Qed.

Lemma floorZ_bounds (x : R) : IZR (floorZ x) <= x /\ x - 1 < IZR (floorZ x).
Proof.
  unfold floorZ. destruct (base_Int_part x) as [H1 H2]. split; lra.
Qed.

Lemma floatRange_bounds (lo hi step v : R) :
  0 < step -> In v (floatRange lo hi step) -> lo <= v <= hi.
Proof.
  intros Hs. unfold floatRange.
  destruct (Rlt_dec hi lo) as [_|h]; [intros []|].
  intros Hin. apply in_map_iff in Hin as [k [<- Hk]]. apply in_seq in Hk.
  destruct (floorZ_bounds ((hi - lo) / step)) as [F1 F2].
  assert (Hq : 0 <= (hi - lo) / step).
  { unfold Rdiv. apply Rmult_le_pos; [lra|]. apply Rlt_le, Rinv_0_lt_compat; exact Hs. }
  assert (Hf : (0 <= floorZ ((hi - lo) / step))%Z).
  { assert (-1 < floorZ ((hi - lo) / step))%Z by (apply lt_IZR; simpl; lra). lia. }
  assert (Hk' : INR k <= IZR (floorZ ((hi - lo) / step))).
  { rewrite INR_IZR_INZ. apply IZR_le. lia. }
  pose proof (pos_INR k).
  split; [nra|].
  assert (INR k * step <= (hi - lo) / step * step) by (apply Rmult_le_compat_r; lra).
  replace ((hi - lo) / step * step) with (hi - lo) in * by (field; lra). lra.
Qed.

Lemma floatRange_In (lo hi step : R) (k : nat) :
  ~ hi < lo -> (k <= Z.to_nat (floorZ ((hi - lo) / step)))%nat ->
  In (lo + INR k * step) (floatRange lo hi step).
Proof.
  intros Hl Hk. unfold floatRange.
  destruct (Rlt_dec hi lo) as [h|_]; [contradiction|].
  apply (in_map (fun k => lo + INR k * step)). apply in_seq. lia.
Qed.

Lemma cum_xroad (z0 : R) : rebuildCum [V3 0 0 z0; V3 16 0 z0] = [0; 16].
Proof.
  unfold rebuildCum; simpl. rewrite LenXZ_x_axis by lra. f_equal. f_equal. ring.
Qed.

Lemma surfaceSamples_xroad (id : Z) (z0 : R) (s : vec3) :
  In s (surfaceSamples (MkRoad id [V3 0 0 z0; V3 16 0 z0] (rebuildCum [V3 0 0 z0; V3 16 0 z0]))) ->
  z0 - 8 <= vz s <= z0 + 8.
Proof.
  unfold surfaceSamples. cbn [pts length Nat.ltb Nat.leb].
  intros Hin. apply in_flat_map in Hin as [d [_ Hin]].
  rewrite roadFrame_xroad in Hin.
  apply in_map_iff in Hin as [off [<- Hoff]].
  apply floatRange_bounds in Hoff; [|unfold ZONE_CELL_M; lra].
  unfold ROAD_HALF_M in Hoff. cbn [vadd vscale vz]. lra.
Qed.

Lemma WorldToZoneCell_origin : WorldToZoneCell (V3 0 0 0) = Some (0, 0, 0, 0)%Z.
Proof.
  unfold WorldToZoneCell. cbn [vx vz]. unfold CHUNK_SIZE_M, ZONE_CELL_M.
  replace (0 / 1024) with (IZR 0) by (unfold Rdiv; ring).
  rewrite floorZ_IZR.
  replace ((0 - IZR 0 * 1024) / 8) with (IZR 0) by (unfold Rdiv; simpl; ring).
  rewrite floorZ_IZR. reflexivity.
Qed.

Lemma WorldToZoneCell_not_origin_row (s : vec3) :
  8 <= vz s -> WorldToZoneCell s <> Some (0, 0, 0, 0)%Z.
Proof.
  intros Hz. unfold WorldToZoneCell. cbv zeta.
  destruct (_ || _)%bool; [discriminate|].
  intros E. injection E as _ Ecz _ Ezi.
  rewrite Ecz in Ezi.
  destruct (floorZ_bounds ((vz s - IZR 0 * CHUNK_SIZE_M) / ZONE_CELL_M)) as [_ F].
  rewrite Ezi in F. unfold ZONE_CELL_M in F.
  assert (1 <= (vz s - IZR 0 * CHUNK_SIZE_M) / 8).
  { unfold Rdiv. simpl. apply (Rmult_le_reg_r 8); [lra|].
    rewrite Rmult_assoc, Rinv_l, Rmult_1_r by lra. lra. }
  simpl in F. lra.
Qed.

Lemma keyeqb_true (a b : CellKey) : keyeqb a b = true -> a = b.
Proof.
  destruct a as [[[a1 a2] a3] a4], b as [[[b1 b2] b3] b4]. unfold keyeqb.
  intros H. repeat (apply andb_prop in H as [H ?]).
  repeat match goal with h : Z.eqb _ _ = true |- _ => apply Z.eqb_eq in h end.
  subst. reflexivity.
Qed.

Lemma keyeqb_refl (a : CellKey) : keyeqb a a = true.
Proof.
  destruct a as [[[a1 a2] a3] a4]. unfold keyeqb. rewrite !Z.eqb_refl. reflexivity.
Qed.

Lemma SetZoneCellFlags_bit (g : ZoneGrid) (k0 k : CellKey) (setMask clearMask b : Z) :
  (0 <= b < 8)%Z ->
  Z.testbit (SetZoneCellFlags g k0 setMask clearMask k) b =
  if keyeqb k k0 then (Z.testbit (g k0) b && negb (Z.testbit clearMask b)) || Z.testbit setMask b
  else Z.testbit (g k) b.
Proof.
  intros Hb. unfold SetZoneCellFlags. destruct (keyeqb k k0); [|reflexivity].
  rewrite Z.lor_spec, Z.land_spec, Z.lxor_spec.
  change 255%Z with (Z.ones 8). rewrite Z.ones_spec_low by lia.
  rewrite xorb_true_r. reflexivity.
Qed.

Lemma stamp_bit_keep (samples : list vec3) (g : ZoneGrid) (setMask clearMask : Z)
    (k : CellKey) (b : Z) :
  (0 <= b < 8)%Z -> (Z.testbit clearMask b = false \/ Z.testbit setMask b = true) ->
  Z.testbit (g k) b = true ->
  Z.testbit (stampSamples g samples setMask clearMask k) b = true.
Proof.
  intros Hb Hm. unfold stampSamples. revert g.
  induction samples as [|s samples IH]; intros g H; [exact H|].
  cbn [fold_left]. apply IH.
  destruct (WorldToZoneCell s) as [k0|]; [|exact H].
  rewrite SetZoneCellFlags_bit by exact Hb.
  destruct (keyeqb k k0) eqn:E; [|exact H].
  apply keyeqb_true in E. subst k0. rewrite H.
  destruct Hm as [Hm|Hm]; rewrite Hm; [reflexivity|apply orb_true_r].
Qed.

Lemma stamp_bit_set (samples : list vec3) (g : ZoneGrid) (setMask clearMask : Z)
    (k : CellKey) (b : Z) (s : vec3) :
  (0 <= b < 8)%Z -> Z.testbit setMask b = true ->
  In s samples -> WorldToZoneCell s = Some k ->
  Z.testbit (stampSamples g samples setMask clearMask k) b = true.
Proof.
  intros Hb Hs Hin Hk. revert g.
  induction samples as [|s0 samples IH]; intros g; [destruct Hin|].
  destruct Hin as [->|Hin].
  - change (stampSamples g (s :: samples) setMask clearMask)
      with (stampSamples (match WorldToZoneCell s with
                          | None => g
                          | Some k => SetZoneCellFlags g k setMask clearMask
                          end) samples setMask clearMask).
    rewrite Hk. apply stamp_bit_keep; [exact Hb|right; exact Hs|].
    rewrite SetZoneCellFlags_bit by exact Hb. rewrite keyeqb_refl, Hs. apply orb_true_r.
  - apply IH. exact Hin.
Qed.

Lemma stamp_untouched (samples : list vec3) (g : ZoneGrid) (setMask clearMask : Z) (k : CellKey) :
  (forall s, In s samples -> WorldToZoneCell s <> Some k) ->
  stampSamples g samples setMask clearMask k = g k.
Proof.
  unfold stampSamples. revert g.
  induction samples as [|s samples IH]; intros g H; [reflexivity|].
  cbn [fold_left]. rewrite IH by (intros s' Hs'; apply H; right; exact Hs').
  destruct (WorldToZoneCell s) as [k0|] eqn:E; [|reflexivity].
  unfold SetZoneCellFlags. destruct (keyeqb k k0) eqn:K; [|reflexivity].
  apply keyeqb_true in K. subst k0. exfalso. apply (H s); [left; reflexivity|exact E].
Qed.

(** C3 (fails): two parallel 16 m roads, [roadA] along [z = 0] and
    [roadB] along [z = 20], no water. Cell (0,0,0,0) is under [roadA]'s
    surface, and [RebuildZoneGrid] leaves it flagged both BLOCKED and
    BUILDABLE: [roadB]'s influence rows, stamped after [roadA]'s surface,
    set BUILDABLE on it again, and [roadB]'s own surface does not reach
    it. *)
Theorem grid_road_cell_blocked_and_buildable :
  (exists s, In s (surfaceSamples roadA) /\ WorldToZoneCell s = Some (0, 0, 0, 0)%Z) /\
  Z.land (RebuildZoneGrid [roadA; roadB] [] (0, 0, 0, 0)%Z) ZONE_FLAG_BLOCKED <> 0%Z /\
  Z.land (RebuildZoneGrid [roadA; roadB] [] (0, 0, 0, 0)%Z) ZONE_FLAG_BUILDABLE <> 0%Z.
Proof.
  set (k := (0, 0, 0, 0)%Z : CellKey).
  (* the sample of [roadA]'s surface at d = 0, off = 0 *)
  assert (SA : exists s, In s (surfaceSamples roadA) /\ WorldToZoneCell s = Some k).
  { exists (vadd (V3 (Clamp (0 + INR 0 * (ZONE_CELL_M * /2)) 0 16) 0 0)
                 (vscale (V3 0 0 (-1)) (- ROAD_HALF_M + INR 2 * (ZONE_CELL_M * /2)))).
    split.
    - unfold surfaceSamples, roadA. cbn [pts length Nat.ltb Nat.leb].
      apply in_flat_map. exists (0 + INR 0 * (ZONE_CELL_M * /2)). split.
      + apply floatRange_In; [|lia].
        unfold totalLen. cbn [cumLen]. rewrite cum_xroad. simpl. lra.
      + rewrite roadFrame_xroad.
        apply (in_map (fun off => vadd (V3 (Clamp (0 + INR 0 * (ZONE_CELL_M * /2)) 0 16) 0 0)
                                       (vscale (V3 0 0 (-1)) off))).
        apply floatRange_In.
        * unfold ROAD_HALF_M. lra.
        * unfold ROAD_HALF_M, ZONE_CELL_M.
          replace ((8 - Ropp 8) / (8 * / 2)) with (IZR 4) by (simpl; field).
          rewrite floorZ_IZR. simpl. lia.
    - transitivity (WorldToZoneCell (V3 0 0 0)); [f_equal|exact WorldToZoneCell_origin].
      rewrite Clamp_id by (simpl; unfold ZONE_CELL_M; lra).
      apply vec3_eq; cbn [vadd vscale vx vy vz]; unfold ROAD_HALF_M, ZONE_CELL_M; simpl; field. }
  (* the sample of [roadB]'s influence at d = 0, side +1, row 1 *)
  assert (IB : exists s, In s (influenceSamples roadB) /\ WorldToZoneCell s = Some k).
  { exists (vadd (V3 (Clamp (0 + INR 0 * (ZONE_CELL_M * /2)) 0 16) 0 20)
                 (vscale (V3 0 0 (-1)) (1 * (ROAD_HALF_M + (INR 1 + /2) * ZONE_CELL_M)))).
    split.
    - unfold influenceSamples, roadB. cbn [pts length Nat.ltb Nat.leb].
      apply in_flat_map. exists (0 + INR 0 * (ZONE_CELL_M * /2)). split.
      + apply floatRange_In; [|lia].
        unfold totalLen. cbn [cumLen]. rewrite cum_xroad. simpl. lra.
      + rewrite roadFrame_xroad. apply in_flat_map. exists 1. split; [right; left; reflexivity|].
        apply in_map_iff. exists 1%nat. split; [reflexivity|]. apply in_seq. unfold ZONE_DEPTH_CELLS. lia.
    - transitivity (WorldToZoneCell (V3 0 0 0)); [f_equal|exact WorldToZoneCell_origin].
      rewrite Clamp_id by (simpl; unfold ZONE_CELL_M; lra).
      apply vec3_eq; cbn [vadd vscale vx vy vz]; unfold ROAD_HALF_M, ZONE_CELL_M; simpl; field. }
  assert (NB : forall s, In s (surfaceSamples roadB) -> WorldToZoneCell s <> Some k).
  { intros s Hs. apply WorldToZoneCell_not_origin_row.
    unfold roadB in Hs. apply surfaceSamples_xroad in Hs. lra. }
  destruct SA as [sA [HA KA]]. destruct IB as [sB [HB KB]].
  assert (G : RebuildZoneGrid [roadA; roadB] [] k
              = stampSamples (stampSamples (stampSamples (stampSamples emptyGrid
                  (influenceSamples roadA) ZONE_FLAG_BUILDABLE 0)
                  (surfaceSamples roadA) ZONE_FLAG_BLOCKED SURFACE_CLEAR)
                  (influenceSamples roadB) ZONE_FLAG_BUILDABLE 0)
                  (surfaceSamples roadB) ZONE_FLAG_BLOCKED SURFACE_CLEAR k) by reflexivity.
  rewrite stamp_untouched in G by exact NB.
  assert (B2 : Z.testbit (RebuildZoneGrid [roadA; roadB] [] k) 2 = true).
  { rewrite G. apply stamp_bit_keep; [lia|left; reflexivity|].
    apply (stamp_bit_set _ _ _ _ k 2 sA); [lia|reflexivity|exact HA|exact KA]. }
  assert (B0 : Z.testbit (RebuildZoneGrid [roadA; roadB] [] k) 0 = true).
  { rewrite G. apply (stamp_bit_set _ _ _ _ k 0 sB); [lia|reflexivity|exact HB|exact KB]. }
  split; [exists sA; split; [exact HA|exact KA]|]. split.
  - intros E. apply (f_equal (fun v => Z.testbit v 2)) in E.
    rewrite Z.land_spec, B2 in E. discriminate E.
  - intros E. apply (f_equal (fun v => Z.testbit v 0)) in E.
    rewrite Z.land_spec, B0 in E. discriminate E.
Qed.

(* ================================================================== *)
(** * Further properties of the code *)

Lemma u32_mod (x : Z) : u32 x = (x mod 2 ^ 32)%Z.
Proof. unfold u32. change (2 ^ 32 - 1)%Z with (Z.ones 32). apply Z.land_ones. lia. Qed.

Lemma u64_mod (x : Z) : u64 x = (x mod 2 ^ 64)%Z.
Proof. unfold u64. change (2 ^ 64 - 1)%Z with (Z.ones 64). apply Z.land_ones. lia. Qed.

Lemma lor_shift32 (a b : Z) : (0 <= a)%Z -> (0 <= b < 2 ^ 32)%Z ->
  Z.lor (Z.shiftl a 32) b = (a * 2 ^ 32 + b)%Z.
Proof.
  intros Ha Hb. rewrite Z.shiftl_mul_pow2 by lia.
  rewrite <- Z.lxor_lor, <- Z.add_nocarry_lxor; [reflexivity| |].
  all: apply Z.bits_inj'; intros n Hn; rewrite Z.land_spec, Z.bits_0.
  all: destruct (Z.lt_ge_cases n 32) as [Hl|Hl].
  all: try (rewrite <- Z.shiftl_mul_pow2, Z.shiftl_spec_low by lia; reflexivity).
  all: rewrite <- (Z.mod_small b (2 ^ 32)) by lia;
       rewrite Z.mod_pow2_bits_high by lia; apply andb_false_r.
Qed.

Lemma i32_u32 (x : Z) : (- 2 ^ 31 <= x < 2 ^ 31)%Z -> i32 (u32 x) = x.
Proof.
  intros H. unfold i32. rewrite !u32_mod, Z.mod_mod by lia.
  destruct (Z.ltb_spec (x mod 2 ^ 32) (2 ^ 31)) as [h|h].
  - destruct (Z.le_gt_cases 0 x).
    + rewrite Z.mod_small in * by lia. reflexivity.
    + rewrite <- (Z.mod_add x 1 (2 ^ 32)) in h by lia.
      rewrite Z.mod_small in h by lia. lia.
  - destruct (Z.le_gt_cases 0 x).
    + rewrite Z.mod_small in * by lia. lia.
    + rewrite <- (Z.mod_add x 1 (2 ^ 32)) by lia.
      rewrite Z.mod_small by lia. lia.
Qed.

Lemma u32_i32 (h : Z) : (0 <= h < 2 ^ 32)%Z -> u32 (i32 h) = h.
Proof.
  intros H. unfold i32. rewrite (u32_mod h), (Z.mod_small h) by lia.
  destruct (h <? 2 ^ 31)%Z.
  - rewrite u32_mod, Z.mod_small; lia.
  - rewrite u32_mod. rewrite <- (Z.mod_add (h - 2 ^ 32) 1 (2 ^ 32)) by lia.
    rewrite Z.mod_small; lia.
Qed.

Lemma PackChunk_arith (cx cz : Z) :
  PackChunk cx cz = (u32 cx * 2 ^ 32 + u32 cz)%Z.
Proof.
  unfold PackChunk. rewrite !u32_mod.
  pose proof (Z.mod_pos_bound cx (2 ^ 32) ltac:(lia)).
  pose proof (Z.mod_pos_bound cz (2 ^ 32) ltac:(lia)).
  rewrite lor_shift32 by lia. rewrite u64_mod, Z.mod_small; [reflexivity|nia].
Qed.

(** Chunk keys round-trip: for any chunk coordinates in the int32 range, [UnpackChunk] recovers exactly the [cx] and [cz] that [PackChunk] packed, negative ones included. *)
Theorem UnpackChunk_PackChunk (cx cz : Z) :
  (- 2 ^ 31 <= cx < 2 ^ 31)%Z -> (- 2 ^ 31 <= cz < 2 ^ 31)%Z ->
  UnpackChunk (PackChunk cx cz) = (cx, cz).
Proof.
  intros Hx Hz. rewrite PackChunk_arith. unfold UnpackChunk.
  pose proof (Z.mod_pos_bound cx (2 ^ 32) ltac:(lia)).
  pose proof (Z.mod_pos_bound cz (2 ^ 32) ltac:(lia)).
  assert (E1 : Z.shiftr (u32 cx * 2 ^ 32 + u32 cz) 32 = u32 cx).
  { rewrite Z.shiftr_div_pow2 by lia. rewrite !u32_mod.
    rewrite Z.div_add_l by lia. rewrite (Z.div_small (cz mod 2 ^ 32)) by lia. lia. }
  assert (E2 : Z.land (u32 cx * 2 ^ 32 + u32 cz) 4294967295 = u32 cz).
  { change 4294967295%Z with (Z.ones 32). rewrite Z.land_ones by lia. rewrite !u32_mod.
    rewrite Z.add_comm, Z.mod_add by lia. apply Z.mod_mod. lia. }
  rewrite E1, E2, !i32_u32 by assumption. reflexivity.
Qed.

(** Conversely, every 64-bit key is the packing of the coordinates [UnpackChunk] reads from it. *)
Theorem PackChunk_UnpackChunk (key : Z) :
  (0 <= key < 2 ^ 64)%Z ->
  PackChunk (fst (UnpackChunk key)) (snd (UnpackChunk key)) = key.
Proof.
  intros Hk. unfold UnpackChunk. cbn [fst snd]. rewrite PackChunk_arith.
  rewrite Z.shiftr_div_pow2 by lia.
  change 4294967295%Z with (Z.ones 32). rewrite Z.land_ones by lia.
  assert (Hq : (0 <= key / 2 ^ 32 < 2 ^ 32)%Z).
  { split; [apply Z.div_pos; lia|]. apply Z.div_lt_upper_bound; lia. }
  pose proof (Z.mod_pos_bound key (2 ^ 32) ltac:(lia)).
  rewrite !u32_i32 by lia.
  rewrite (Z.div_mod key (2 ^ 32)) at 3 by lia. lia.
Qed.

Lemma nth_list_set_other {A} (l : list A) i j x d :
  i <> j -> (i < length l)%nat -> nth j (list_set l i x) d = nth j l d.
Proof.
  intros Hij Hi. unfold list_set.
  destruct (Nat.lt_ge_cases j i) as [Hj|Hj].
  - rewrite app_nth1 by (rewrite length_firstn; lia). rewrite nth_firstn. destruct (Nat.ltb_spec j i); [reflexivity|lia].
  - rewrite app_nth2 by (rewrite length_firstn; lia).
    rewrite length_firstn, Nat.min_l by lia.
    destruct (j - i)%nat as [|k] eqn:E; [lia|]. cbn [nth].
    rewrite nth_skipn. f_equal. lia.
Qed.

(** [ZoneChunk::set] keeps the array size and changes exactly one cell: reading back cell (x', z') gives the value just written when (x', z') is the in-range cell that was set, and the previous value otherwise; an out-of-range [set] changes nothing. *)
Theorem ZoneChunk_set_get (cells : list Z) (x z v x' z' : Z) :
  length cells = Z.to_nat (DIM * DIM) ->
  length (ZoneChunk_set cells x z v) = length cells /\
  ZoneChunk_get (ZoneChunk_set cells x z v) x' z'
  = if ((0 <=? x) && (x <? DIM) && (0 <=? z) && (z <? DIM) && (x' =? x) && (z' =? z))%Z
    then v else ZoneChunk_get cells x' z'.
Proof.
  intros Hl. unfold ZoneChunk_set, ZoneChunk_get, DIM in *.
  destruct (Z.ltb_spec x 0), (Z.leb_spec 128 x), (Z.ltb_spec z 0), (Z.leb_spec 128 z);
    cbn [orb]; try (split; [reflexivity|]);
    try (destruct (Z.leb_spec 0 x), (Z.ltb_spec x 128), (Z.leb_spec 0 z), (Z.ltb_spec z 128);
         try lia; cbn [andb]; reflexivity).
  assert (Hidx : (Z.to_nat (z * 128 + x) < length cells)%nat) by (rewrite Hl; lia).
  split; [apply list_set_length; exact Hidx|].
  destruct (Z.leb_spec 0 x), (Z.ltb_spec x 128), (Z.leb_spec 0 z), (Z.ltb_spec z 128); try lia.
  cbn [andb].
  destruct (Z.ltb_spec x' 0), (Z.leb_spec 128 x'), (Z.ltb_spec z' 0), (Z.leb_spec 128 z');
    cbn [orb];
    try (destruct (Z.eqb_spec x' x), (Z.eqb_spec z' z); try lia; reflexivity).
  destruct (Z.eqb_spec x' x), (Z.eqb_spec z' z); cbn [andb].
  - subst. apply nth_list_set_same. exact Hidx.
  - apply nth_list_set_other; [lia|exact Hidx].
  - apply nth_list_set_other; [lia|exact Hidx].
  - apply nth_list_set_other; [lia|exact Hidx].
Qed.

Lemma ZoneTypeFromFlags_bits (v : Z) :
  ZoneTypeFromFlags v
  = ZoneTypeOfZ ((if Z.testbit v 3 then 1 else 0) + (if Z.testbit v 4 then 2 else 0))%Z.
Proof.
  unfold ZoneTypeFromFlags, ZONE_TYPE_MASK, ZONE_TYPE_SHIFT. f_equal.
  apply Z.bits_inj'. intros n Hn. rewrite Z.shiftr_spec, Z.land_spec by lia.
  assert (Hc : n = 0%Z \/ n = 1%Z \/ (2 <= n)%Z) by lia.
  destruct Hc as [->|[->|Hc]].
  - change (0 + 3)%Z with 3%Z. destruct (Z.testbit v 3), (Z.testbit v 4); reflexivity.
  - change (1 + 3)%Z with 4%Z. destruct (Z.testbit v 4), (Z.testbit v 3); reflexivity.
  - rewrite (Z.bits_above_log2 24) by (try lia; cbn; lia). rewrite andb_false_r.
    destruct (Z.testbit v 3), (Z.testbit v 4); cbn;
      symmetry; apply Z.bits_above_log2; cbn; lia.
Qed.

(** Zoning a cell with [ZONE_FLAG_ZONED | ZoneTypeBits t], clearing [ZONE_TYPE_MASK], makes [ZoneTypeFromFlags] return t and sets the zoned bit; unzoning it (clearing both) reads back as Residential with the zoned bit clear. Neither touches the buildable or blocked bit. *)
Theorem ZoneTypeBits_flags_roundtrip (g : ZoneGrid) (k : CellKey) (t : ZoneType) :
  let g1 := SetZoneCellFlags g k (Z.lor ZONE_FLAG_ZONED (ZoneTypeBits t)) ZONE_TYPE_MASK in
  let g2 := SetZoneCellFlags g k 0 (Z.lor ZONE_FLAG_ZONED ZONE_TYPE_MASK) in
  ZoneTypeFromFlags (g1 k) = t /\ Z.testbit (g1 k) 1 = true /\
  ZoneTypeFromFlags (g2 k) = Residential /\ Z.testbit (g2 k) 1 = false /\
  (forall b, b = 0%Z \/ b = 2%Z ->
     Z.testbit (g1 k) b = Z.testbit (g k) b /\ Z.testbit (g2 k) b = Z.testbit (g k) b).
Proof.
  cbv zeta. rewrite !ZoneTypeFromFlags_bits.
  rewrite !SetZoneCellFlags_bit by lia. rewrite !keyeqb_refl.
  split; [|split; [|split; [|split]]].
  - destruct t; cbn; rewrite ?andb_false_r, ?orb_false_r, ?orb_true_r; reflexivity.
  - destruct t; cbn; rewrite ?orb_true_r; reflexivity.
  - cbn. rewrite !andb_false_r. reflexivity.
  - cbn. rewrite !andb_false_r. reflexivity.
  - intros b [->| ->]; rewrite !SetZoneCellFlags_bit, !keyeqb_refl by lia; destruct t; cbn; rewrite ?andb_true_r, ?orb_false_r; split; reflexivity.
Qed.

Lemma llround_near (x : R) : Rabs (IZR (llround x) - x) <= / 2.
Proof.
  unfold llround. destruct (Rle_dec 0 x) as [h|h].
  - destruct (floorZ_bounds (x + / 2)) as [F1 F2]. apply Rabs_le. split; lra.
  - destruct (floorZ_bounds (- x + / 2)) as [F1 F2]. rewrite opp_IZR. apply Rabs_le. split; lra.
Qed.

Lemma roundR_scaled (x g : R) : 0 < g -> Rabs (roundR (x / g) * g - x) <= g / 2.
Proof.
  intros Hg. unfold roundR.
  replace (IZR (llround (x / g)) * g - x) with ((IZR (llround (x / g)) - x / g) * g) by (field; lra).
  rewrite Rabs_mult, (Rabs_pos_eq g) by lra.
  pose proof (llround_near (x / g)). unfold Rdiv at 2. nra.
Qed.

(** For a positive grid size, [SnapToGridXZ] puts the point on the ground plane at integer multiples of the grid in x and z, and moves each coordinate by at most half a grid step. *)
Theorem SnapToGridXZ_spec (p : vec3) (grid : R) :
  0 < grid ->
  let q := SnapToGridXZ p grid in
  vy q = 0 /\
  (exists i j : Z, vx q = IZR i * grid /\ vz q = IZR j * grid) /\
  Rabs (vx q - vx p) <= grid / 2 /\ Rabs (vz q - vz p) <= grid / 2.
Proof.
  intros Hg. cbv zeta. unfold SnapToGridXZ.
  destruct (Rle_dec grid 0) as [h|_]; [lra|]. cbn [vx vy vz].
  split; [reflexivity|]. split.
  - exists (llround (vx p / grid)), (llround (vz p / grid)). split; reflexivity.
  - split; apply roundR_scaled; exact Hg.
Qed.

(** The render origin is on the ground plane at a multiple of [ORIGIN_STEP_M] in x and z, at most one step below the target: 0 <= target - origin < 1024 on both axes. *)
Theorem ComputeRenderOrigin_spec (target : vec3) :
  let o := ComputeRenderOrigin target in
  vy o = 0 /\
  (exists i j : Z, vx o = IZR i * ORIGIN_STEP_M /\ vz o = IZR j * ORIGIN_STEP_M) /\
  0 <= vx target - vx o < ORIGIN_STEP_M /\ 0 <= vz target - vz o < ORIGIN_STEP_M.
Proof.
  cbv zeta. unfold ComputeRenderOrigin, ORIGIN_STEP_M. cbn [vx vy vz].
  split; [reflexivity|]. split; [eexists; eexists; split; reflexivity|].
  destruct (floorZ_bounds (vx target / 1024)) as [X1 X2].
  destruct (floorZ_bounds (vz target / 1024)) as [Z1 Z2].
  assert (Ex : vx target = vx target / 1024 * 1024) by field.
  assert (Ez : vz target = vz target / 1024 * 1024) by field.
  split; split; lra.
Qed.

(** [SnapAngle15FromPrev] returns the raw point when it is closer than 1e-6 to the previous one; otherwise it returns a ground-plane point at the same XZ distance from the previous point, in a direction that is a multiple of 15 degrees. *)
Theorem SnapAngle15FromPrev_spec (prev raw : vec3) :
  let out := SnapAngle15FromPrev prev raw in
  (LenXZ prev raw < eps6 -> out = raw) /\
  (eps6 <= LenXZ prev raw ->
     vy out = 0 /\ LenXZ prev out = LenXZ prev raw /\
     exists k : Z, vx out = vx prev + LenXZ prev raw * cos (IZR k * (PI / 12)) /\
                   vz out = vz prev + LenXZ prev raw * sin (IZR k * (PI / 12))).
Proof.
  cbv zeta. unfold SnapAngle15FromPrev. cbn [vx vz].
  change (sqrt ((vx raw - vx prev) * (vx raw - vx prev) + (vz raw - vz prev) * (vz raw - vz prev)))
    with (LenXZ prev raw).
  split.
  - intros H. destruct (Rlt_dec (LenXZ prev raw) eps6); [reflexivity|lra].
  - intros H. destruct (Rlt_dec (LenXZ prev raw) eps6) as [h|_]; [lra|].
    set (L := LenXZ prev raw). pose proof (LenXZ_nonneg prev raw) as HL. fold L in HL.
    set (s := roundR (atan2 (vz raw - vz prev) (vx raw - vx prev) / (15 * (PI / 180)))
                * (15 * (PI / 180))).
    unfold vadd, vscale. cbn [vx vy vz].
    split; [reflexivity|]. split.
    + unfold LenXZ. cbn [vx vz].
      replace ((vx prev + cos s * L - vx prev) * (vx prev + cos s * L - vx prev) +
               (vz prev + sin s * L - vz prev) * (vz prev + sin s * L - vz prev))
        with (L * L * (Rsqr (sin s) + Rsqr (cos s))) by (unfold Rsqr; ring).
      rewrite sin2_cos2, Rmult_1_r. apply sqrt_square. exact HL.
    + exists (llround (atan2 (vz raw - vz prev) (vx raw - vx prev) / (15 * (PI / 180)))).
      replace (IZR (llround (atan2 (vz raw - vz prev) (vx raw - vx prev) / (15 * (PI / 180))))
               * (PI / 12)) with s by (unfold s, roundR; field).
      split; ring.
Qed.

Lemma skipn_cons_nth {A} (l : list A) (j : nat) (q : A) (l' : list A) (d : A) :
  skipn j l = q :: l' -> (j < length l)%nat /\ nth j l d = q /\ skipn (S j) l = l'.
Proof.
  revert l; induction j as [|j IH]; intros l H.
  - destruct l as [|x l]; [discriminate|]. cbn in H. injection H as -> ->.
    split; [cbn; lia|]. split; reflexivity.
  - destruct l as [|x l]; [discriminate|]. cbn [skipn] in H.
    destruct (IH l H) as [A1 [A2 A3]]. split; [cbn; lia|]. split; [exact A2|exact A3].
Qed.

Lemma pickPoints_inv (rs : list Road) (p : vec3) (radius : R) (r : Road) :
  In r rs -> rid r <> (-1)%Z ->
  forall ps j seen st, skipn j (pts r) = ps ->
  pickInv rs p radius seen st ->
  pickInv rs p radius (seen ++ ps) (pickPoints p (rid r) ps (Z.of_nat j) st).
Proof.
  intros Hr Hid ps. induction ps as [|q ps IH]; intros j seen [[b id] i] Hs Hinv.
  - rewrite app_nil_r. exact Hinv.
  - destruct (skipn_cons_nth (pts r) j q ps vzero Hs) as [Hj [Hq Hs']].
    cbn [pickPoints]. replace (Z.of_nat j + 1)%Z with (Z.of_nat (S j)) by lia.
    replace (seen ++ q :: ps) with ((seen ++ [q]) ++ ps) by (rewrite <- app_assoc; reflexivity).
    apply IH; [exact Hs'|].
    destruct Hinv as [H1 [H2 [H3 H4]]]. cbn [fst].
    destruct (Rlt_dec (distSqXZ p q) b) as [h|h].
    + split; [|split; [lra|split]].
      * intros q' Hq'. apply in_app_or in Hq' as [Hq'|[<-|[]]]; [apply H1 in Hq'; lra|lra].
      * intros E. contradiction.
      * intros _. exists r. split; [exact Hr|]. split; [reflexivity|]. split; [lia|].
        rewrite Nat2Z.id, Hq. split; [reflexivity|]. lra.
    + split; [|split; [exact H2|split; [exact H3|exact H4]]].
      intros q' Hq'. apply in_app_or in Hq' as [Hq'|[<-|[]]]; [apply H1; exact Hq'|lra].
Qed.

Lemma pick_fold_inv (rs : list Road) (p : vec3) (radius : R) :
  Forall (fun r => rid r <> (-1)%Z) rs ->
  forall rs0 seen st, (forall r, In r rs0 -> In r rs) ->
  pickInv rs p radius seen st ->
  pickInv rs p radius (seen ++ concat (map pts rs0))
    (fold_left (fun st r => pickPoints p (rid r) (pts r) 0 st) rs0 st).
Proof.
  intros Hids rs0. induction rs0 as [|r rs0 IH]; intros seen st Hsub Hinv.
  - cbn. rewrite app_nil_r. exact Hinv.
  - cbn [fold_left map concat]. rewrite app_assoc. apply IH.
    + intros r' Hr'. apply Hsub. right. exact Hr'.
    + assert (Hr : In r rs) by (apply Hsub; left; reflexivity).
      rewrite Forall_forall in Hids.
      exact (pickPoints_inv rs p radius r Hr (Hids r Hr) (pts r) 0%nat seen st eq_refl Hinv).
Qed.

(** When no road uses the id -1, [PickRoadPoint] returns a point of a road in the list that lies strictly inside the pick radius and is no farther (in XZ) than any road point; when it returns nothing, every road point is at least the radius away. *)
Theorem PickRoadPoint_spec (rs : list Road) (p : vec3) (radius : R) :
  Forall (fun r => rid r <> (-1)%Z) rs ->
  (forall id i, PickRoadPoint rs p radius = Some (id, i) ->
     exists r, In r rs /\ rid r = id /\ (0 <= i < Z.of_nat (length (pts r)))%Z /\
       distSqXZ p (nth (Z.to_nat i) (pts r) vzero) < radius * radius /\
       (forall r' q, In r' rs -> In q (pts r') ->
          distSqXZ p (nth (Z.to_nat i) (pts r) vzero) <= distSqXZ p q)) /\
  (PickRoadPoint rs p radius = None ->
     forall r q, In r rs -> In q (pts r) -> radius * radius <= distSqXZ p q).
Proof.
  intros Hids.
  assert (I0 : pickInv rs p radius [] (radius * radius, (-1)%Z, (-1)%Z)).
  { split; [intros q []|]. split; [lra|]. split; [intros _; reflexivity|]. intros h; contradiction. }
  pose proof (pick_fold_inv rs p radius Hids rs [] _ (fun r h => h) I0) as I.
  cbn [app] in I. unfold PickRoadPoint.
  destruct (fold_left _ rs _) as [[b id] i]. destruct I as [H1 [H2 [H3 H4]]].
  assert (Hall : forall r' q, In r' rs -> In q (pts r') -> b <= distSqXZ p q).
  { intros r' q Hr' Hq. apply H1. apply in_concat. exists (pts r'). split; [|exact Hq].
    apply in_map. exact Hr'. }
  destruct (Z.eqb_spec id (-1)) as [e|ne].
  - split; [intros ? ? h; discriminate h|]. intros _ r q Hr Hq.
    rewrite <- (H3 e). apply (Hall r q Hr Hq).
  - split; [|intros h; discriminate h]. intros id' i' E. injection E as <- <-.
    destruct (H4 ne) as [r [Hr [Hid [Hi [Hd Hb]]]]].
    exists r. split; [exact Hr|]. split; [exact Hid|]. split; [exact Hi|].
    rewrite Hd. split; [exact Hb|exact Hall].
Qed.



Lemma endpointStep_inv (rs : list Road) (p : vec3) (radius : R) (r : Road) seen st :
  In r rs -> rid r <> (-1)%Z ->
  endpointInv rs p radius seen st ->
  endpointInv rs p radius (seen ++ roadEnds r) (endpointStep p st r).
Proof.
  intros Hr Hid Hinv. unfold endpointStep, roadEnds.
  destruct (Nat.ltb_spec (length (pts r)) 2) as [Hl|Hl].
  { rewrite app_nil_r. exact Hinv. }
  set (a := hd vzero (pts r)). set (e := last (pts r) vzero).
  destruct st as [[[b id] start] pos]. destruct Hinv as [H1 [H2 [H3 H4]]]. cbn [fst].
  destruct (Rlt_dec (distSqXZ p a) b) as [ha|ha]; cbn [fst];
  [destruct (Rlt_dec (distSqXZ p e) (distSqXZ p a)) as [he|he]
  |destruct (Rlt_dec (distSqXZ p e) b) as [he|he]].
  all: split; [intros q Hq; apply in_app_or in Hq as [Hq|[<-|[<-|[]]]];
               [apply H1 in Hq; lra|lra|lra]|].
  all: split; [lra|].
  all: try (split; [intros E; contradiction|]).
  all: try (split; [exact H3|]).
  - intros _. exists r. repeat split; auto; lra.
  - intros _. exists r. repeat split; auto; lra.
  - intros _. exists r. repeat split; auto; lra.
  - exact H4.
Qed.

(** When no road uses the id -1, [SnapToAnyEndpoint] returns the first or last point of a road with at least two points, strictly inside the snap radius and no farther than any endpoint of such a road; when it returns nothing, all those endpoints are at least the radius away. *)
Theorem SnapToAnyEndpoint_spec (rs : list Road) (p : vec3) (radius : R) :
  Forall (fun r => rid r <> (-1)%Z) rs ->
  (forall pos id start, SnapToAnyEndpoint rs p radius = Some (pos, id, start) ->
     exists r, In r rs /\ (2 <= length (pts r))%nat /\ rid r = id /\
       pos = (if start then hd vzero (pts r) else last (pts r) vzero) /\
       distSqXZ p pos < radius * radius /\
       (forall r', In r' rs -> (2 <= length (pts r'))%nat ->
          distSqXZ p pos <= distSqXZ p (hd vzero (pts r')) /\
          distSqXZ p pos <= distSqXZ p (last (pts r') vzero))) /\
  (SnapToAnyEndpoint rs p radius = None ->
     forall r, In r rs -> (2 <= length (pts r))%nat ->
       radius * radius <= distSqXZ p (hd vzero (pts r)) /\
       radius * radius <= distSqXZ p (last (pts r) vzero)).
Proof.
  intros Hids. rewrite Forall_forall in Hids.
  assert (F : forall rs0 seen st, (forall r, In r rs0 -> In r rs) ->
            endpointInv rs p radius seen st ->
            endpointInv rs p radius (seen ++ flat_map roadEnds rs0) (fold_left (endpointStep p) rs0 st)).
  { intros rs0. induction rs0 as [|r rs0 IH]; intros seen st Hsub Hinv.
    - cbn. rewrite app_nil_r. exact Hinv.
    - cbn [fold_left flat_map]. rewrite app_assoc. apply IH.
      + intros r' Hr'. apply Hsub. right. exact Hr'.
      + assert (Hr : In r rs) by (apply Hsub; left; reflexivity).
        apply endpointStep_inv; [exact Hr|apply Hids; exact Hr|exact Hinv]. }
  assert (I0 : endpointInv rs p radius [] (radius * radius, (-1)%Z, false, p)).
  { split; [intros q []|]. split; [lra|]. split; [intros _; reflexivity|]. intros h; contradiction. }
  pose proof (F rs [] _ (fun r h => h) I0) as I. cbn [app] in I.
  unfold SnapToAnyEndpoint.
  destruct (fold_left (endpointStep p) rs _) as [[[b id] start] pos].
  destruct I as [H1 [H2 [H3 H4]]].
  assert (Hall : forall r', In r' rs -> (2 <= length (pts r'))%nat ->
            b <= distSqXZ p (hd vzero (pts r')) /\ b <= distSqXZ p (last (pts r') vzero)).
  { intros r' Hr' Hl. split; apply H1; apply in_flat_map; exists r'; split; try exact Hr';
      unfold roadEnds; destruct (Nat.ltb_spec (length (pts r')) 2); try lia; simpl; auto. }
  destruct (Z.eqb_spec id (-1)) as [e|ne].
  - split; [intros ? ? ? h; discriminate h|]. intros _ r Hr Hl.
    rewrite <- (H3 e). apply Hall; assumption.
  - split; [|intros h; discriminate h]. intros pos' id' start' E. injection E as <- <- <-.
    destruct (H4 ne) as [r [Hr [Hl [Hid [Hpos [Hd Hb]]]]]].
    exists r. repeat (split; [assumption|]). rewrite Hd. split; [exact Hb|exact Hall].
Qed.

(** [FindZoneForRoadAt] returns the first strip in list order whose side mask shares the side bit and whose interval (in either orientation) contains d; it returns nothing exactly when no strip on that side covers d. *)
Theorem FindZoneForRoadAt_spec (zs : list ZoneStrip) (d : R) (sideBit : Z) :
  (forall z, FindZoneForRoadAt zs d sideBit = Some z ->
     exists pre post, zs = pre ++ z :: post /\
       Z.land (zsideMask z) sideBit <> 0%Z /\ Rmin (zd0 z) (zd1 z) <= d <= Rmax (zd0 z) (zd1 z) /\
       (forall z', In z' pre ->
          Z.land (zsideMask z') sideBit = 0%Z \/ ~ (Rmin (zd0 z') (zd1 z') <= d <= Rmax (zd0 z') (zd1 z')))) /\
  (FindZoneForRoadAt zs d sideBit = None ->
     forall z, In z zs -> Z.land (zsideMask z) sideBit <> 0%Z ->
       ~ (Rmin (zd0 z) (zd1 z) <= d <= Rmax (zd0 z) (zd1 z))).
Proof.
  induction zs as [|z0 zs [IHs IHn]].
  - split; [intros z h; discriminate h|intros _ z []].
  - cbn [FindZoneForRoadAt].
    assert (Hcov : (Rleb (Rmin (zd0 z0) (zd1 z0)) d && Rleb d (Rmax (zd0 z0) (zd1 z0)))%bool = true
                   <-> Rmin (zd0 z0) (zd1 z0) <= d <= Rmax (zd0 z0) (zd1 z0)).
    { unfold Rleb. destruct (Rle_dec _ d), (Rle_dec d _); cbn; split; intros; try lra; try discriminate;
        try reflexivity; destruct H; contradiction. }
    destruct (Z.eqb_spec (Z.land (zsideMask z0) sideBit) 0) as [e|ne].
    + split.
      * intros z Hz. destruct (IHs z Hz) as [pre [post [E R1]]].
        exists (z0 :: pre), post. split; [rewrite E; reflexivity|].
        destruct R1 as [R1 [R2 R3]]. split; [exact R1|]. split; [exact R2|].
        intros z' [<-|Hz']; [left; exact e|apply R3; exact Hz'].
      * intros Hn z [<-|Hz] Hb; [contradiction|apply IHn; assumption].
    + destruct (_ && _)%bool eqn:C.
      * split; [|intros h; discriminate h].
        intros z E. injection E as <-. exists [], zs. split; [reflexivity|].
        split; [exact ne|]. split; [apply Hcov; reflexivity|]. intros z' [].
      * assert (NC : ~ (Rmin (zd0 z0) (zd1 z0) <= d <= Rmax (zd0 z0) (zd1 z0))).
        { intros h. apply Hcov in h. discriminate h. }
        split.
        -- intros z Hz. destruct (IHs z Hz) as [pre [post [E [R1 [R2 R3]]]]].
           exists (z0 :: pre), post. split; [rewrite E; reflexivity|].
           split; [exact R1|]. split; [exact R2|].
           intros z' [<-|Hz']; [right; exact NC|apply R3; exact Hz'].
        -- intros Hn z [<-|Hz] Hb; [exact NC|apply IHn; assumption].
Qed.

(** A position is culled iff the forward vector is not degenerate and some other road with at least two points passes closer than [clearDist], with a degenerate tangent there or a tangent at an angle whose cosine with the forward direction is at most 0.85. *)
Theorem ShouldCullForIntersection_iff (rs : list Road) (roadId : Z) (pos forward : vec3) (clearDist : R) :
  ShouldCullForIntersection rs roadId pos forward clearDist = true <->
  (eps6 <= vdot forward forward /\
   exists other, In other rs /\ rid other <> roadId /\ (2 <= length (pts other))%nat /\
     let '(distSq, _, tan) := ClosestDistanceAlongRoadSq other pos in
     distSq < clearDist * clearDist /\
     (vdot tan tan < eps6 \/
      Rabs (vdot (vscale forward (/ sqrt (vdot forward forward)))
                 (vscale tan (/ sqrt (vdot tan tan)))) <= 85 / 100)).
Proof.
  unfold ShouldCullForIntersection.
  destruct (Rlt_dec (vdot forward forward) eps6) as [h|h].
  { split; [intros E; discriminate E|intros [H _]; lra]. }
  set (f := vscale forward (/ sqrt (vdot forward forward))).
  set (c := clearDist * clearDist).
  assert (Hscan : cullScan rs roadId pos f c = true <->
    exists other, In other rs /\ rid other <> roadId /\ (2 <= length (pts other))%nat /\
     let '(distSq, _, tan) := ClosestDistanceAlongRoadSq other pos in
     distSq < c /\
     (vdot tan tan < eps6 \/ Rabs (vdot f (vscale tan (/ sqrt (vdot tan tan)))) <= 85 / 100)).
  { induction rs as [|o rs IH]; cbn [cullScan].
    - split; [intros E; discriminate E|intros [o [[] _]]].
    - assert (Tail : cullScan rs roadId pos f c = true ->
                exists other, In other (o :: rs) /\ rid other <> roadId /\ (2 <= length (pts other))%nat /\
                let '(distSq, _, tan) := ClosestDistanceAlongRoadSq other pos in
                distSq < c /\
                (vdot tan tan < eps6 \/ Rabs (vdot f (vscale tan (/ sqrt (vdot tan tan)))) <= 85 / 100)).
      { intros E. apply IH in E as [o' [Ho' R]]. exists o'. split; [right; exact Ho'|exact R]. }
      assert (Back : (exists other, In other rs /\ rid other <> roadId /\ (2 <= length (pts other))%nat /\
                let '(distSq, _, tan) := ClosestDistanceAlongRoadSq other pos in
                distSq < c /\
                (vdot tan tan < eps6 \/ Rabs (vdot f (vscale tan (/ sqrt (vdot tan tan)))) <= 85 / 100))
                -> cullScan rs roadId pos f c = true) by (apply IH).
      destruct (Z.eqb_spec (rid o) roadId) as [e|ne].
      { split; [exact Tail|]. intros [o' [[<-|Ho'] R]]; [destruct R; contradiction|].
        apply Back. exists o'. split; [exact Ho'|exact R]. }
      destruct (Nat.ltb_spec (length (pts o)) 2) as [hl|hl].
      { split; [exact Tail|]. intros [o' [[<-|Ho'] R]]; [destruct R as [_ [R _]]; lia|].
        apply Back. exists o'. split; [exact Ho'|exact R]. }
      destruct (ClosestDistanceAlongRoadSq o pos) as [[distSq al] tan] eqn:Eo.
      assert (Skip : ~ (distSq < c /\
                (vdot tan tan < eps6 \/ Rabs (vdot f (vscale tan (/ sqrt (vdot tan tan)))) <= 85 / 100)) ->
              cullScan rs roadId pos f c = true <->
              exists other, In other (o :: rs) /\ rid other <> roadId /\ (2 <= length (pts other))%nat /\
                let '(distSq, _, tan) := ClosestDistanceAlongRoadSq other pos in
                distSq < c /\
                (vdot tan tan < eps6 \/ Rabs (vdot f (vscale tan (/ sqrt (vdot tan tan)))) <= 85 / 100)).
      { intros NS. split; [exact Tail|]. intros [o' [[<-|Ho'] R]].
        - destruct R as [_ [_ R]]. rewrite Eo in R. contradiction.
        - apply Back. exists o'. split; [exact Ho'|exact R]. }
      assert (Here : distSq < c /\
                (vdot tan tan < eps6 \/ Rabs (vdot f (vscale tan (/ sqrt (vdot tan tan)))) <= 85 / 100) ->
              true = true <->
              exists other, In other (o :: rs) /\ rid other <> roadId /\ (2 <= length (pts other))%nat /\
                let '(distSq, _, tan) := ClosestDistanceAlongRoadSq other pos in
                distSq < c /\
                (vdot tan tan < eps6 \/ Rabs (vdot f (vscale tan (/ sqrt (vdot tan tan)))) <= 85 / 100)).
      { intros HS. split; [|reflexivity]. intros _. exists o. split; [left; reflexivity|].
        split; [exact ne|]. split; [lia|]. rewrite Eo. exact HS. }
      destruct (Rle_dec c distSq) as [hc|hc].
      { apply Skip. intros [h1 _]. lra. }
      destruct (Rlt_dec (vdot tan tan) eps6) as [ht|ht].
      { apply Here. split; [lra|left; exact ht]. }
      destruct (Rlt_dec (85 / 100) (Rabs (vdot f (vscale tan (/ sqrt (vdot tan tan)))))) as [ha|ha].
      { apply Skip. intros [_ [h1|h1]]; lra. }
      apply Here. split; [lra|right; lra]. }
  rewrite Hscan. split.
  - intros H. split; [lra|exact H].
  - intros [_ H]. exact H.
Qed.

Lemma IsLotZoned_fields (zs : list ZoneStrip) (a b : LotCell) :
  lroad a = lroad b -> lside a = lside b -> ld0 a = ld0 b -> ld1 a = ld1 b ->
  IsLotZoned zs a = IsLotZoned zs b.
Proof.
  intros E1 E2 E3 E4. induction zs as [|z zs IH]; [reflexivity|].
  cbn [IsLotZoned]. rewrite E1, E2, E3, E4, IH. reflexivity.
Qed.

Lemma existsb_key_false (occ : list (Z * Z)) (gx gz : Z) :
  existsb (fun k => Z.eqb (fst k) gx && Z.eqb (snd k) gz) occ = false -> ~ In (gx, gz) occ.
Proof.
  intros E H. assert (T : existsb (fun k => Z.eqb (fst k) gx && Z.eqb (snd k) gz) occ = true).
  { apply existsb_exists. exists (gx, gz). split; [exact H|]. cbn. rewrite !Z.eqb_refl. reflexivity. }
  congruence.
Qed.

Section Lots.
Variable g : ZoneGrid.
Variable rs : list Road.
Variable zs : list ZoneStrip.


Lemma lotSide_inv (r : Road) (d : R) (base tan rgt : vec3) (acc : LotAcc) (side : R) (sideZ : Z) :
  In r rs -> (2 <= length (pts r))%nat -> 0 <= d -> d + 16 <= totalLen r ->
  (sideZ = (-1)%Z \/ sideZ = 1%Z) ->
  accInv rs zs acc -> accInv rs zs (lotSide g zs r d base tan rgt acc side sideZ).
Proof.
  intros Hr Hl Hd0 Hd1 Hs [I1 [I2 I3]]. unfold lotSide. cbv zeta.
  destruct (negb _); [split; [exact I1|split; assumption]|].
  destruct (existsb _ _) eqn:Ex; [split; [exact I1|split; assumption]|].
  apply existsb_key_false in Ex.
  set (center := vadd base (vscale rgt (side * (ROAD_HALF_M + 0 + ZONE_DEPTH_M * / 2)))) in *.
  set (c0 := MkLot (rid r) sideZ d (d + ZONE_CELL_M * 2) center (vnormalize tan) rgt false Residential).
  assert (Hgood : forall c, lroad c = rid r -> lside c = sideZ -> ld0 c = d -> ld1 c = d + ZONE_CELL_M * 2 ->
            lzoned c = match IsLotZoned zs c0 with Some _ => true | None => false end ->
            (forall t, IsLotZoned zs c0 = Some t -> lzoneType c = t) -> goodLot rs zs c).
  { intros c E1 E2 E3 E4 E5 E6.
    assert (Ez : IsLotZoned zs c = IsLotZoned zs c0) by (apply IsLotZoned_fields; assumption).
    exists r. split; [exact Hr|]. split; [symmetry; exact E1|]. split; [exact Hl|].
    rewrite E2, E3, E4, Ez. unfold ZONE_CELL_M. split; [exact Hs|]. split; [exact Hd0|].
    split; [ring|]. split; [lra|]. split; [exact E5|exact E6]. }
  assert (Hc : exists c, match IsLotZoned zs c0 with
                | Some zt => MkLot (rid r) sideZ d (d + ZONE_CELL_M * 2) center (vnormalize tan) rgt true zt
                | None => c0 end = c /\ goodLot rs zs c /\ lcenter c = center).
  { destruct (IsLotZoned zs c0) as [zt|] eqn:Ez.
    - eexists; split; [reflexivity|]. split; [|reflexivity].
      apply Hgood; try reflexivity. intros t E. injection E as <-. reflexivity.
    - eexists; split; [reflexivity|]. split; [|reflexivity].
      apply Hgood; try reflexivity. intros t E. discriminate E. }
  destruct Hc as [c [Ec [Gc Cc]]]. rewrite Ec.
  split; [|split].
  - cbn [lotList]. intros c' Hc'. apply in_app_or in Hc' as [Hc'|[<-|[]]]; [apply I1; exact Hc'|exact Gc].
  - cbn [lotList lotOccupied]. rewrite map_app, rev_app_distr. cbn. rewrite I2.
    f_equal. unfold lotKey. rewrite Cc. reflexivity.
  - cbn [lotOccupied]. constructor; [exact Ex|exact I3].
Qed.

(** Every lot [RebuildLotCells] emits lies on a road of the list with at least two points, on side -1 or +1, over a 16 m interval [d0, d0 + 16] inside [0, totalLength]; it is marked zoned exactly when a strip covers it, with that strip's type. No two lots share a 4 m centre bucket. *)
Theorem RebuildLotCells_spec :
  (forall c, In c (RebuildLotCells g rs zs) ->
     exists r, In r rs /\ rid r = lroad c /\ (2 <= length (pts r))%nat /\
       (lside c = (-1)%Z \/ lside c = 1%Z) /\ 0 <= ld0 c /\ ld1 c = ld0 c + 16 /\ ld1 c <= totalLen r /\
       lzoned c = match IsLotZoned zs c with Some _ => true | None => false end /\
       (forall t, IsLotZoned zs c = Some t -> lzoneType c = t)) /\
  NoDup (map (fun c => (floorZ (vx (lcenter c) / 4), floorZ (vz (lcenter c) / 4)))
             (RebuildLotCells g rs zs)).
Proof.
  assert (Outer : forall rs0 acc, (forall r, In r rs0 -> In r rs) -> accInv rs zs acc ->
    accInv rs zs (fold_left (fun acc r =>
      if (length (pts r) <? 2)%nat then acc
      else
        fold_left (fun acc d =>
          let '(base, tan) := pointAt r (d + ZONE_CELL_M * 2 * /2) in
          if Rlt_dec (vdot tan tan) eps6 then acc
          else
            let rgt := vnormalize (vcross vup tan) in
            lotSide g zs r d base tan rgt (lotSide g zs r d base tan rgt acc (-1) (-1)%Z) 1 1%Z)
          (floatRange 0 (totalLen r - ZONE_CELL_M * 2) (ZONE_CELL_M * 2)) acc) rs0 acc)).
  { intros rs0. induction rs0 as [|r rs0 IH]; intros acc Hsub Hacc; [exact Hacc|].
    cbn [fold_left]. apply IH; [intros r' h; apply Hsub; right; exact h|].
    assert (Hr : In r rs) by (apply Hsub; left; reflexivity).
    destruct (Nat.ltb_spec (length (pts r)) 2) as [hl|hl]; [exact Hacc|].
    assert (Inner : forall ds acc, (forall d, In d ds -> 0 <= d <= totalLen r - 16) -> accInv rs zs acc ->
      accInv rs zs (fold_left (fun acc d =>
          let '(base, tan) := pointAt r (d + ZONE_CELL_M * 2 * /2) in
          if Rlt_dec (vdot tan tan) eps6 then acc
          else
            let rgt := vnormalize (vcross vup tan) in
            lotSide g zs r d base tan rgt (lotSide g zs r d base tan rgt acc (-1) (-1)%Z) 1 1%Z) ds acc)).
    { intros ds. induction ds as [|d ds IHd]; intros acc0 Hds Hacc0; [exact Hacc0|].
      cbn [fold_left]. apply IHd; [intros d' h; apply Hds; right; exact h|].
      destruct (Hds d (or_introl eq_refl)) as [D1 D2].
      destruct (pointAt r _) as [base tan]. destruct (Rlt_dec _ _); [exact Hacc0|].
      apply lotSide_inv; try assumption; try lra; [right; reflexivity|].
      apply lotSide_inv; try assumption; try lra. left; reflexivity. }
    apply Inner; [|exact Hacc].
    intros d Hd. apply floatRange_bounds in Hd; [unfold ZONE_CELL_M in *; lra|unfold ZONE_CELL_M; lra]. }
  assert (I0 : accInv rs zs (MkLotAcc [] [])).
  { split; [intros c []|]. split; [reflexivity|constructor]. }
  pose proof (Outer rs _ (fun r h => h) I0) as [H1 [H2 H3]].
  rewrite H2 in H3. apply NoDup_rev in H3. rewrite rev_involutive in H3.
  split; [exact H1|exact H3].
Qed.
End Lots.

Section Houses.
Variable assets : AssetCatalog.
Variable g : ZoneGrid.
Variable rs : list Road.
Variable lots : list LotCell.
Variable animate : bool.
Variable nowSec : R.


Lemma isOccupied_false (occ : list (Z * Z)) (pos : vec3) :
  isOccupied occ pos = false -> ~ In (floorZ (vx pos / 6), floorZ (vz pos / 6)) occ.
Proof. unfold isOccupied. apply existsb_key_false. Qed.

Lemma placeLot_inv (st : HouseOut) (c : LotCell) :
  In c lots -> houseInv assets g rs lots animate st -> houseInv assets g rs lots animate (placeLot assets g rs animate nowSec st c).
Proof.
  intros Hc Hst. pose proof Hst as [I1 [I2 [I3 [I4 [I5 I6]]]]].
  unfold placeLot.
  destruct (lzoned c) eqn:Ez; [|exact Hst]. cbn [negb].
  destruct (Z.eqb_spec (Z.land (GetZoneFlagsAt g (lcenter c)) ZONE_FLAG_BLOCKED) 0) as [Hb|Hb];
    [|exact Hst]. cbn [negb].
  set (assetId := match lzoneType c with
                  | Commercial => resolveCategoryAsset assets (ZoneTypeCategory Commercial)
                  | Industrial => resolveCategoryAsset assets (ZoneTypeCategory Industrial)
                  | Office => resolveCategoryAsset assets (ZoneTypeCategory Office)
                  | Residential => resolveCategoryAsset assets (ZoneTypeCategory Residential)
                  end).
  assert (Ha : assetId = resolveCategoryAsset assets (ZoneTypeCategory (lzoneType c)))
    by (unfold assetId; destruct (lzoneType c); reflexivity).
  destruct (GetAssetFootprint _ _ _) as [fpx fpy].
  destruct (Rlt_dec _ _); [exact Hst|].
  set (pos := V3 (vx (lcenter c)) _ (vz (lcenter c))).
  destruct (Rlt_dec _ 0) as [_|Hclr]; [exact Hst|].
  destruct (isOccupied (occupied st) pos) eqn:Eo; [exact Hst|].
  destruct (negb (canPlace _ _ _)); [exact Hst|].
  destruct (ChunkFromPosXZ pos) as [ccx ccz] eqn:Ech.
  apply isOccupied_false in Eo.
  split; [|split; [|split; [|split; [|split]]]]; cbn [buildingChunks occupied houseStatic houseAnim houseStaticByChunk].
  - intros e He. apply in_app_or in He as [He|[<-|[]]]; [apply I1; exact He|].
    cbn. exists c. split; [exact Hc|]. split; [exact Ez|]. split; [exact Hb|].
    split; [reflexivity|]. split; [reflexivity|]. split; [reflexivity|]. split; [exact Ha|].
    split; [apply Rnot_lt_le in Hclr; lra|]. symmetry; exact Ech.
  - rewrite map_app, rev_app_distr, I2. reflexivity.
  - constructor; [rewrite I2 in Eo |- *; exact Eo|exact I3].
  - rewrite length_app. destruct animate; rewrite ?length_app; cbn; lia.
  - rewrite length_app. destruct animate; rewrite ?length_app; cbn; lia.
  - rewrite !length_app. cbn. lia.
Qed.

Lemma placeLot_fold_inv (cs : list LotCell) (st : HouseOut) :
  (forall c, In c cs -> In c lots) -> houseInv assets g rs lots animate st ->
  houseInv assets g rs lots animate (fold_left (placeLot assets g rs animate nowSec) cs st).
Proof.
  revert st. induction cs as [|c cs IH]; intros st Hsub Hst; [exact Hst|].
  cbn [fold_left]. apply IH; [intros c' h; apply Hsub; right; exact h|].
  apply placeLot_inv; [apply Hsub; left; reflexivity|exact Hst].
Qed.

Lemma houseInv_empty : houseInv assets g rs lots animate emptyHouseOut.
Proof.
  split; [intros e []|]. split; [reflexivity|]. split; [constructor|].
  destruct animate; repeat split.
Qed.
End Houses.

(** Every building [RebuildHousesFromLots] places stands at the x/z centre of a zoned lot whose cell is not blocked. Its asset is the one resolved for the lot's zone category, its centre is at least [ROAD_HALF_M] from every road centreline, and it is recorded under its own chunk. No two buildings share a 6 m occupancy cell. Without animation every building has one static transform and no animation entry; with animation it is the other way round. *)
Theorem RebuildHousesFromLots_spec (s : Pipeline) (assets : AssetCatalog) (animate : bool) (nowSec : R) :
  let out := pHouses (RebuildHousesFromLots s assets animate nowSec) in
  (forall cx cz a inst, In (cx, cz, a, inst) (buildingChunks out) ->
     exists c, In c (pLots s) /\ lzoned c = true /\
       Z.land (GetZoneFlagsAt (pGrid s) (lcenter c)) ZONE_FLAG_BLOCKED = 0%Z /\
       vx (localPos inst) = vx (lcenter c) /\ vz (localPos inst) = vz (lcenter c) /\
       a = asset inst /\ asset inst = resolveCategoryAsset assets (ZoneTypeCategory (lzoneType c)) /\
       ROAD_HALF_M <= sqrt (minCenterlineClearSq (pRoads s) (localPos inst)) /\
       (cx, cz) = ChunkFromPosXZ (localPos inst)) /\
  NoDup (map (fun e => (floorZ (vx (localPos (snd e)) / 6), floorZ (vz (localPos (snd e)) / 6)))
             (buildingChunks out)) /\
  length (houseStatic out) = (if animate then 0 else length (buildingChunks out))%nat /\
  length (houseAnim out) = (if animate then length (buildingChunks out) else 0)%nat /\
  length (houseStaticByChunk out) = length (buildingChunks out).
Proof.
  cbv zeta. unfold RebuildHousesFromLots. cbn [pHouses].
  destruct (placeLot_fold_inv assets (pGrid s) (pRoads s) (pLots s) animate nowSec (pLots s)
              emptyHouseOut (fun c h => h) (houseInv_empty _ _ _ _ _)) as [I1 [I2 [I3 [I4 [I5 I6]]]]].
  split; [|split; [|split; [exact I4|split; [exact I5|exact I6]]]].
  - intros cx cz a inst Hin. exact (I1 _ Hin).
  - rewrite I2 in I3. apply NoDup_rev in I3. rewrite rev_involutive in I3.
    erewrite map_ext; [exact I3|]. intros [[[? ?] ?] ?]. reflexivity.
Qed.

Lemma flat_map_length_const {A B : Type} (f : A -> list B) (l : list A) (k : nat) :
  (forall x, length (f x) = k) -> length (flat_map f l) = (length l * k)%nat.
Proof.
  intros Hf. induction l as [|x l IH]; [reflexivity|].
  cbn [flat_map length]. rewrite length_app, IH, Hf. lia.
Qed.

Lemma coverage_fold (F : option Z -> vec3 -> option Z) (l : list vec3) :
  (forall p, F None p = None) ->
  (forall h p, F (Some h) p = None \/ F (Some h) p = Some h \/ F (Some h) p = Some (h + 1)%Z) ->
  forall acc m, (acc = None \/ exists h, acc = Some h /\ (0 <= h <= m)%Z) ->
  fold_left F l acc = None \/
  exists h, fold_left F l acc = Some h /\ (0 <= h <= m + Z.of_nat (length l))%Z.
Proof.
  intros F0 F1. induction l as [|p l IH]; intros acc m Hacc.
  - destruct Hacc as [->|[h [-> Hh]]]; [left; reflexivity|right; exists h; split; [reflexivity|lia]].
  - cbn [fold_left length].
    destruct Hacc as [->|[h [-> Hh]]].
    + rewrite F0. destruct (IH None m (or_introl eq_refl)) as [E|[h' [E H']]]; [left; exact E|].
      right. exists h'. split; [exact E|lia].
    + destruct (IH (F (Some h) p) (m + 1)%Z) as [E|[h' [E H']]].
      * destruct (F1 h p) as [E|[E|E]]; rewrite E; [left; reflexivity|right; exists h; split; [reflexivity|lia]|].
        right. exists (h + 1)%Z. split; [reflexivity|lia].
      * left; exact E.
      * right. exists h'. split; [exact E|lia].
Qed.

(** [ZoneRectCoverage] is always a fraction between 0 and 1, whatever the rectangle and masks. *)
Theorem ZoneRectCoverage_range (g : ZoneGrid) (center forward rgt : vec3) (width depth : R)
    (requiredMask forbiddenMask : Z) :
  0 <= ZoneRectCoverage g center forward rgt width depth requiredMask forbiddenMask <= 1.
Proof.
  unfold ZoneRectCoverage. cbv zeta.
  set (nx := Z.max 1 (ceilZ (width / ZONE_CELL_M))).
  set (nz := Z.max 1 (ceilZ (depth / ZONE_CELL_M))).
  match goal with |- context [fold_left ?F ?L (Some 0%Z)] =>
    assert (HL : length L = (Z.to_nat nz * Z.to_nat nx)%nat);
    [|destruct (coverage_fold F L ltac:(reflexivity)
          ltac:(intros h p; cbn; destruct (negb _); [left; reflexivity|right];
                destruct (Z.eqb _ _); [right|left]; reflexivity)
          (Some 0%Z) 0%Z (or_intror (ex_intro _ 0%Z (conj eq_refl (conj (Z.le_refl 0) (Z.le_refl 0))))))
        as [E|[h [E Hh]]]; rewrite E]
  end.
  - rewrite (flat_map_length_const _ _ (Z.to_nat nx)), length_seq; [reflexivity|].
    intros iz. rewrite length_map, length_seq. reflexivity.
  - lra.
  - rewrite HL in Hh.
    assert (Hnx : (1 <= nx)%Z) by apply Z.le_max_l.
    assert (Hnz : (1 <= nz)%Z) by apply Z.le_max_l.
    rewrite Nat2Z.inj_mul, !Z2Nat.id in Hh by lia.
    destruct (Z.ltb_spec 0 (nx * nz)) as [Ht|Ht]; [|lra].
    assert (0 < IZR (nx * nz)) by (apply IZR_lt; exact Ht).
    assert (0 <= IZR h) by (apply IZR_le; lia).
    assert (IZR h <= IZR (nx * nz)) by (apply IZR_le; lia).
    split; [apply Rmult_le_pos; [lra|left; apply Rinv_0_lt_compat; lra]|].
    apply (Rmult_le_reg_r (IZR (nx * nz))); [lra|].
    unfold Rdiv. rewrite Rmult_assoc, Rinv_l by lra. lra.
Qed.

Lemma StampWaterMask_other (g : ZoneGrid) (water : list CellKey) (k : CellKey) :
  ~ In k water -> StampWaterMask g water k = g k.
Proof.
  unfold StampWaterMask. revert g. induction water as [|k0 water IH]; intros g Hn; [reflexivity|].
  cbn [fold_left]. rewrite IH by (intros h; apply Hn; right; exact h).
  unfold SetZoneCellFlags. destruct (keyeqb k k0) eqn:E; [|reflexivity].
  apply keyeqb_true in E. subst. exfalso. apply Hn. left. reflexivity.
Qed.

Lemma CellKey_eq_dec (a b : CellKey) : {a = b} + {a <> b}.
Proof.
  destruct a as [[[a1 a2] a3] a4], b as [[[b1 b2] b3] b4].
  destruct (Z.eq_dec a1 b1), (Z.eq_dec a2 b2), (Z.eq_dec a3 b3), (Z.eq_dec a4 b4);
    (left; congruence) || (right; intros H; injection H; intros; contradiction).
Defined.

Lemma StampWaterMask_in (g : ZoneGrid) (water : list CellKey) (k : CellKey) (b : Z) :
  In k water -> (0 <= b <= 4)%Z -> Z.testbit (StampWaterMask g water k) b = Z.eqb b 2.
Proof.
  revert g. induction water as [|k0 water IH]; intros g Hk Hb; [destruct Hk|].
  destruct (in_dec CellKey_eq_dec k water) as [Hin|Hn].
  - unfold StampWaterMask in *. cbn [fold_left]. apply IH; assumption.
  - destruct Hk as [->|Hk]; [|contradiction].
    unfold StampWaterMask. cbn [fold_left]. fold (StampWaterMask (SetZoneCellFlags g k ZONE_FLAG_BLOCKED SURFACE_CLEAR) water).
    rewrite StampWaterMask_other by exact Hn.
    rewrite SetZoneCellFlags_bit by lia. rewrite keyeqb_refl.
    assert (Hb' : b = 0%Z \/ b = 1%Z \/ b = 2%Z \/ b = 3%Z \/ b = 4%Z) by lia.
    destruct Hb' as [->|[->|[->|[->| ->]]]]; cbn -[Z.testbit]; rewrite ?andb_false_r, ?orb_true_r, ?orb_false_r; reflexivity.
Qed.

(** With at least one road, every water cell of the rebuilt zone grid ends up blocked, and neither buildable nor zoned, and with no zone-type bits. *)
Theorem RebuildZoneGrid_water_cells (rs : list Road) (water : list CellKey) (k : CellKey) :
  rs <> [] -> In k water ->
  Z.testbit (RebuildZoneGrid rs water k) 2 = true /\
  Z.testbit (RebuildZoneGrid rs water k) 0 = false /\
  Z.testbit (RebuildZoneGrid rs water k) 1 = false /\
  Z.testbit (RebuildZoneGrid rs water k) 3 = false /\
  Z.testbit (RebuildZoneGrid rs water k) 4 = false.
Proof.
  intros Hrs Hk. unfold RebuildZoneGrid. destruct rs as [|r rs]; [congruence|].
  repeat split; rewrite StampWaterMask_in by (assumption || lia); reflexivity.
Qed.

(** With a positive base size and fallback footprint, the size and footprint taken from the asset catalog are positive whatever the catalog holds. *)
Theorem asset_size_footprint_positive (assets : AssetCatalog) (assetId : Z) (baseSize : vec3) (fallback : R * R) :
  0 < vx baseSize -> 0 < vy baseSize -> 0 < vz baseSize ->
  0 < fst fallback -> 0 < snd fallback ->
  0 < vx (ApplyAssetScale assets assetId baseSize) /\
  0 < vy (ApplyAssetScale assets assetId baseSize) /\
  0 < vz (ApplyAssetScale assets assetId baseSize) /\
  0 < fst (GetAssetFootprint assets assetId fallback) /\
  0 < snd (GetAssetFootprint assets assetId fallback).
Proof.
  intros Bx By Bz Fx Fy. unfold ApplyAssetScale, GetAssetFootprint.
  destruct (findAsset assets assetId) as [def|]; [|repeat split; assumption].
  split; [|split; [|split]].
  1-3: destruct (meshRelPathEmpty def);
    [set (s := baseSize) in *|set (s := defaultScale def)];
    unfold Rleb; destruct (Rle_dec (vx s) 0) as [h1|h1], (Rle_dec (vy s) 0) as [h2|h2],
      (Rle_dec (vz s) 0) as [h3|h3]; cbn;
    try apply Rnot_le_lt in h1; try apply Rnot_le_lt in h2; try apply Rnot_le_lt in h3; lra.
  destruct (meshRelPathEmpty def); [split; assumption|].
  unfold Rltb. destruct (Rlt_dec 0 (footprintMX def)), (Rlt_dec 0 (footprintMY def)); cbn; split; assumption.
Qed.

(** [ClosestDistanceAlongRoadSq] returns (1e30, 0) for a road with fewer than two points. Otherwise its distance is at most every segment's distance, and it is either that initial value or the distance and arc length of an actual segment. *)
Theorem ClosestDistanceAlongRoadSq_min (r : Road) (p : vec3) :
  let '(distSq, along, _) := ClosestDistanceAlongRoadSq r p in
  ((length (pts r) < 2)%nat -> distSq = big30 /\ along = 0) /\
  (forall k, (S k < length (pts r))%nat -> distSq <= segDistSq r p k) /\
  (distSq = big30 /\ along = 0 \/
   exists k, (S k < length (pts r))%nat /\ distSq = segDistSq r p k /\ along = segAlong r p k).
Proof.
  unfold ClosestDistanceAlongRoadSq.
  destruct (Nat.ltb_spec (length (pts r)) 2) as [Hl|Hl].
  - split; [intros _; split; reflexivity|]. split; [intros k Hk; lia|left; split; reflexivity].
  - destruct (closest_fold_min r p (seq 0 (length (pts r) - 1)) (big30, 0, V3 1 0 0)) as [A [B C]].
    destruct (fold_left _ _ _) as [[d al] t] eqn:E. cbn in A, B, C.
    split; [intros h; lia|]. split.
    + intros k Hk. apply A. apply in_seq. lia.
    + destruct C as [C|[k [Hk C]]]; [left; injection C as -> ->; split; reflexivity|].
      right. exists k. apply in_seq in Hk. split; [lia|exact C].
Qed.

(** [Road::rebuildCum] yields one entry per point, starting at 0; each next entry adds the XZ length of the segment, so the entries are non-negative and non-decreasing. *)
Theorem rebuildCum_spec (ps : list vec3) :
  length (rebuildCum ps) = length ps /\
  nth 0 (rebuildCum ps) 0 = 0 /\
  (forall k, (S k < length ps)%nat ->
     nth (S k) (rebuildCum ps) 0 = nth k (rebuildCum ps) 0 + LenXZ (nth k ps vzero) (nth (S k) ps vzero)) /\
  (forall k m, (k <= m < length ps)%nat -> 0 <= nth k (rebuildCum ps) 0 <= nth m (rebuildCum ps) 0).
Proof.
  split; [apply rebuildCum_length|]. split; [apply rebuildCum_0|]. split; [apply rebuildCum_step|].
  intros k m Hkm. split; [apply rebuildCum_nonneg; lia|apply rebuildCum_mono; lia].
Qed.

Section Hash.
Local Open Scope Z_scope.

Lemma in32_high (a n : Z) : 0 <= a < 2 ^ 32 -> 32 <= n -> Z.testbit a n = false.
Proof.
  intros Ha Hn. rewrite <- (Z.mod_small a (2 ^ 32) Ha). apply Z.mod_pow2_bits_high. lia.
Qed.

Lemma in32_of_bits (a : Z) : 0 <= a -> (forall n, 32 <= n -> Z.testbit a n = false) -> 0 <= a < 2 ^ 32.
Proof.
  intros H0 Hb. assert (E : a mod 2 ^ 32 = a).
  { apply Z.bits_inj'. intros n Hn. destruct (Z.lt_ge_cases n 32).
    - apply Z.mod_pow2_bits_low. lia.
    - rewrite Z.mod_pow2_bits_high by lia. symmetry. apply Hb. lia. }
  rewrite <- E. apply Z.mod_pos_bound. lia.
Qed.

Lemma xorshift_range (a k : Z) : 0 <= k -> 0 <= a < 2 ^ 32 -> 0 <= Z.lxor a (Z.shiftr a k) < 2 ^ 32.
Proof.
  intros Hk Ha. apply in32_of_bits.
  - apply Z.lxor_nonneg. split; intros _; [apply Z.shiftr_nonneg|]; lia.
  - intros n Hn. rewrite Z.lxor_spec, Z.shiftr_spec by lia.
    rewrite !(in32_high a) by lia. reflexivity.
Qed.

Lemma u32_range (a : Z) : 0 <= u32 a < 2 ^ 32.
Proof. rewrite u32_mod. apply Z.mod_pos_bound. lia. Qed.

Lemma xorshift16_inv (a : Z) : 0 <= a < 2 ^ 32 ->
  Z.lxor (Z.lxor a (Z.shiftr a 16)) (Z.shiftr (Z.lxor a (Z.shiftr a 16)) 16) = a.
Proof.
  intros Ha. apply Z.bits_inj'. intros n Hn.
  rewrite !Z.lxor_spec, !Z.shiftr_spec, Z.lxor_spec, !Z.shiftr_spec by lia.
  rewrite (in32_high a (n + 16 + 16)) by lia.
  destruct (Z.testbit a n), (Z.testbit a (n + 16)); reflexivity.
Qed.

Lemma xorshift15_inv (a : Z) : 0 <= a < 2 ^ 32 ->
  let y := Z.lxor a (Z.shiftr a 15) in
  Z.lxor (Z.lxor y (Z.shiftr y 15)) (Z.shiftr y 30) = a.
Proof.
  intros Ha y. unfold y. apply Z.bits_inj'. intros n Hn.
  rewrite !Z.lxor_spec, !Z.shiftr_spec by lia.
  rewrite !Z.lxor_spec, !Z.shiftr_spec by lia.
  replace (n + 15 + 15) with (n + 30) by lia.
  rewrite (in32_high a (n + 30 + 15)) by lia.
  destruct (Z.testbit a n), (Z.testbit a (n + 15)), (Z.testbit a (n + 30)); reflexivity.
Qed.

Lemma u32_mul_inv (a c ci : Z) : (c * ci) mod 2 ^ 32 = 1 -> 0 <= a < 2 ^ 32 ->
  u32 (u32 (a * c) * ci) = a.
Proof.
  intros Hc Ha. rewrite !u32_mod, Z.mul_mod_idemp_l by lia.
  rewrite <- Z.mul_assoc, <- Z.mul_mod_idemp_r, Hc, Z.mul_1_r by lia.
  apply Z.mod_small. exact Ha.
Qed.

(** [Hash32] is injective on 32-bit inputs: distinct inputs always give distinct hashes. *)
Theorem Hash32_injective (x y : Z) :
  0 <= x < 2 ^ 32 -> 0 <= y < 2 ^ 32 -> Hash32 x = Hash32 y -> x = y.
Proof.
  intros Hx Hy E. unfold Hash32 in E. cbv zeta in E.
  set (a1 := Z.lxor x (Z.shiftr x 16)) in E.
  set (b1 := Z.lxor y (Z.shiftr y 16)) in E.
  set (a2 := u32 (a1 * 2146121005)) in E.
  set (b2 := u32 (b1 * 2146121005)) in E.
  set (a3 := Z.lxor a2 (Z.shiftr a2 15)) in E.
  set (b3 := Z.lxor b2 (Z.shiftr b2 15)) in E.
  set (a4 := u32 (a3 * 2221713035)) in E.
  set (b4 := u32 (b3 * 2221713035)) in E.
  assert (R1a : 0 <= a1 < 2 ^ 32) by (apply xorshift_range; lia).
  assert (R1b : 0 <= b1 < 2 ^ 32) by (apply xorshift_range; lia).
  assert (R2a : 0 <= a2 < 2 ^ 32) by apply u32_range.
  assert (R2b : 0 <= b2 < 2 ^ 32) by apply u32_range.
  assert (R3a : 0 <= a3 < 2 ^ 32) by (apply xorshift_range; lia).
  assert (R3b : 0 <= b3 < 2 ^ 32) by (apply xorshift_range; lia).
  assert (R4a : 0 <= a4 < 2 ^ 32) by apply u32_range.
  assert (R4b : 0 <= b4 < 2 ^ 32) by apply u32_range.
  assert (E4 : a4 = b4) by (rewrite <- (xorshift16_inv a4 R4a), <- (xorshift16_inv b4 R4b), E; reflexivity).
  assert (E3 : a3 = b3).
  { rewrite <- (u32_mul_inv a3 2221713035 1124208931), <- (u32_mul_inv b3 2221713035 1124208931)
      by (reflexivity || assumption).
    fold a4 b4. rewrite E4. reflexivity. }
  assert (E2 : a2 = b2) by (rewrite <- (xorshift15_inv a2 R2a), <- (xorshift15_inv b2 R2b); cbv zeta; fold a3 b3; rewrite E3; reflexivity).
  assert (E1 : a1 = b1).
  { rewrite <- (u32_mul_inv a1 2146121005 493478565), <- (u32_mul_inv b1 2146121005 493478565)
      by (reflexivity || assumption).
    fold a2 b2. rewrite E2. reflexivity. }
  rewrite <- (xorshift16_inv x Hx), <- (xorshift16_inv y Hy). fold a1 b1. rewrite E1. reflexivity.
Qed.
End Hash.

(** [FindRoadIndexById] returns the index of the first road with the id, and returns nothing exactly when no road has it. *)
Theorem FindRoadIndexById_first (rs : list Road) (id : Z) :
  (forall idx, FindRoadIndexById rs id = Some idx <->
     (idx < length rs)%nat /\ rid (nth idx rs dummyRoad) = id /\
     (forall j, (j < idx)%nat -> rid (nth j rs dummyRoad) <> id)) /\
  (FindRoadIndexById rs id = None <-> Forall (fun r => rid r <> id) rs).
Proof.
  induction rs as [|r rs [IHs IHn]].
  - split; [intros idx; split; [discriminate|cbn; lia]|split; [constructor|reflexivity]].
  - cbn [FindRoadIndexById]. destruct (Z.eqb_spec (rid r) id) as [He|Hne].
    + split.
      * intros idx; split; [intros H; injection H as <-; cbn; split; [lia|split; [exact He|intros j Hj; lia]]|].
        intros [_ [_ Hf]]. destruct idx as [|idx]; [reflexivity|].
        exfalso. apply (Hf 0%nat); [lia|exact He].
      * split; [discriminate|intros H; inversion H; contradiction].
    + split.
      * intros idx. destruct idx as [|idx].
        -- split; [destruct (FindRoadIndexById rs id); discriminate|cbn; intros [_ [h _]]; contradiction].
        -- split.
           ++ destruct (FindRoadIndexById rs id) as [i|] eqn:E; [|discriminate].
              intros H; injection H as <-. destruct (proj1 (IHs i) eq_refl) as [A [B C]].
              cbn. split; [lia|split; [exact B|]].
              intros [|j] Hj; [exact Hne|apply C; lia].
           ++ intros [A [B C]]. cbn in A, B.
              assert (Hi : FindRoadIndexById rs id = Some idx).
              { apply IHs. split; [lia|split; [exact B|]]. intros j Hj. exact (C (S j) ltac:(lia)). }
              rewrite Hi. reflexivity.
      * split.
        -- destruct (FindRoadIndexById rs id) eqn:E; [discriminate|].
           intros _. constructor; [exact Hne|apply IHn; reflexivity].
        -- intros H. inversion H as [|? ? _ Ht]. apply IHn in Ht. rewrite Ht. reflexivity.
Qed.


(* ------------------------------------------------------------------ *)
(** ** Witnesses: the hypotheses above hold at concrete inputs *)

Lemma UnpackChunk_PackChunk_witness :
  (- 2 ^ 31 <= -3 < 2 ^ 31)%Z /\ (- 2 ^ 31 <= 7 < 2 ^ 31)%Z /\
  UnpackChunk (PackChunk (-3) 7) = ((-3)%Z, 7%Z).
Proof.
  split; [lia|]. split; [lia|]. apply (UnpackChunk_PackChunk (-3) 7); lia.
Defined.

Lemma PackChunk_UnpackChunk_witness :
  (0 <= 12884901897 < 2 ^ 64)%Z /\
  PackChunk (fst (UnpackChunk 12884901897)) (snd (UnpackChunk 12884901897)) = 12884901897%Z.
Proof.
  split; [lia|]. apply (PackChunk_UnpackChunk 12884901897); lia.
Defined.

Lemma ZoneChunk_set_get_witness :
  length ZoneChunk_cleared = Z.to_nat (DIM * DIM) /\
  ZoneChunk_get (ZoneChunk_set ZoneChunk_cleared 3 5 7) 3 5
  = (if ((0 <=? 3) && (3 <? DIM) && (0 <=? 5) && (5 <? DIM) && (3 =? 3) && (5 =? 5))%Z
     then 7%Z else ZoneChunk_get ZoneChunk_cleared 3 5).
Proof.
  assert (H : length ZoneChunk_cleared = Z.to_nat (DIM * DIM)) by (vm_compute; reflexivity).
  split; [exact H|]. exact (proj2 (ZoneChunk_set_get ZoneChunk_cleared 3 5 7 3 5 H)).
Defined.

Lemma SnapToGridXZ_spec_witness :
  0 < 8 /\ vy (SnapToGridXZ (V3 13 2 (-5)) 8) = 0.
Proof.
  assert (H : 0 < 8) by lra. split; [exact H|].
  exact (proj1 (SnapToGridXZ_spec (V3 13 2 (-5)) 8 H)).
Defined.

Lemma PickRoadPoint_spec_witness :
  Forall (fun r => rid r <> (-1)%Z) [roadA] /\
  (PickRoadPoint [roadA] (V3 1 0 0) 4 = None ->
   forall r q, In r [roadA] -> In q (pts r) -> 4 * 4 <= distSqXZ (V3 1 0 0) q).
Proof.
  assert (H : Forall (fun r => rid r <> (-1)%Z) [roadA]).
  { constructor; [cbn; lia|constructor]. }
  split; [exact H|]. exact (proj2 (PickRoadPoint_spec [roadA] (V3 1 0 0) 4 H)).
Defined.

Lemma SnapToAnyEndpoint_spec_witness :
  Forall (fun r => rid r <> (-1)%Z) [roadA; roadB] /\
  (SnapToAnyEndpoint [roadA; roadB] (V3 1 0 0) 4 = None ->
   forall r, In r [roadA; roadB] -> (2 <= length (pts r))%nat ->
     4 * 4 <= distSqXZ (V3 1 0 0) (hd vzero (pts r)) /\
     4 * 4 <= distSqXZ (V3 1 0 0) (last (pts r) vzero)).
Proof.
  assert (H : Forall (fun r => rid r <> (-1)%Z) [roadA; roadB]).
  { constructor; [cbn; lia|constructor; [cbn; lia|constructor]]. }
  split; [exact H|]. exact (proj2 (SnapToAnyEndpoint_spec [roadA; roadB] (V3 1 0 0) 4 H)).
Defined.

Lemma RebuildZoneGrid_water_cells_witness :
  [roadA] <> [] /\ In (0, 0, 5, 5)%Z [(0, 0, 5, 5)%Z] /\
  Z.testbit (RebuildZoneGrid [roadA] [(0, 0, 5, 5)%Z] (0, 0, 5, 5)%Z) 2 = true.
Proof.
  assert (H1 : [roadA] <> []) by discriminate.
  assert (H2 : In (0, 0, 5, 5)%Z [(0, 0, 5, 5)%Z]) by (left; reflexivity).
  split; [exact H1|]. split; [exact H2|].
  exact (proj1 (RebuildZoneGrid_water_cells [roadA] [(0, 0, 5, 5)%Z] (0, 0, 5, 5)%Z H1 H2)).
Defined.

Lemma asset_size_footprint_positive_witness :
  0 < 8 /\ 0 < 6 /\ 0 < 12 /\ 0 < 8 /\ 0 < 12 /\
  0 < vx (ApplyAssetScale (MkCatalog (fun _ => 0%Z) (fun _ => None)) 0 (V3 8 6 12)).
Proof.
  repeat split; try lra.
  apply (asset_size_footprint_positive (MkCatalog (fun _ => 0%Z) (fun _ => None)) 0 (V3 8 6 12) (8, 12));
    cbn; lra.
Defined.

Lemma Hash32_injective_witness :
  (0 <= 77 < 2 ^ 32)%Z /\ Hash32 77 = Hash32 77 /\ 77%Z = 77%Z.
Proof.
  assert (H : (0 <= 77 < 2 ^ 32)%Z) by lia.
  split; [exact H|]. split; [reflexivity|]. exact (Hash32_injective 77 77 H H eq_refl).
Defined.
